(** * billjs/query-string: [parse] and [stringify] (src/src/index.ts)

    A shallow embedding of the two exported functions together with the
    part of the ECMAScript host they run on: strings as sequences of
    UTF-16 code units, [String.prototype.split] and [replace] for the one
    regular expression the program uses, [encodeURIComponent] and
    [decodeURIComponent] (ECMA-262, Encode and Decode), and ordinary
    objects with their prototype chain, which the program consults when it
    tests [obj[key] !== void 0].

    The data model: a value is undefined, null, a boolean, an integral
    number, a string, an array of values, or one of the built-in objects a
    lookup on an object literal can reach; a mapping is a plain object with
    such values. A callback is a function of its two arguments that returns
    normally; every invocation is recorded in a log, so that the number and
    the order of the invocations can be stated. *)

From Stdlib Require Import String Ascii DecimalString.
From Stdlib Require Import List NArith ZArith Lia Bool Permutation.
Import ListNotations.

Set Implicit Arguments.
Set Warnings "-register-all".

(** ** Host strings *)

(** An ECMAScript string is a finite sequence of 16-bit code units. *)
Definition code_unit := N.
Definition jsstring := list code_unit.

(** Literals: the code units of an ASCII text. *)
Definition js (s : string) : jsstring := map N_of_ascii (list_ascii_of_string s).

Definition is_code_unit (c : code_unit) : bool := (c <? 65536)%N.

Fixpoint jsstring_eqb (a b : jsstring) : bool :=
  match a, b with
  | [], [] => true
  | x :: a', y :: b' => (x =? y)%N && jsstring_eqb a' b'
  | _, _ => false
  end.

(** ** Completion records: a computation returns normally or throws. *)

Inductive error : Type :=
| URIError.

Inductive completion (A : Type) : Type :=
| Normal (a : A)
| Throw (e : error).
Arguments Normal {A} a.
Arguments Throw {A} e.

Definition bind {A B} (m : completion A) (f : A -> completion B) : completion B :=
  match m with
  | Normal a => f a
  | Throw e => Throw e
  end.

Definition fmap {A B} (f : A -> B) (m : completion A) : completion B :=
  bind m (fun x => Normal (f x)).

(** ** URI component coding (ECMA-262, 19.2.6: Encode, Decode) *)

Module URI.
Open Scope N_scope.

Definition is_alpha (c : code_unit) : bool :=
  ((65 <=? c) && (c <=? 90)) || ((97 <=? c) && (c <=? 122)).
Definition is_decimal_digit (c : code_unit) : bool := (48 <=? c) && (c <=? 57).

(** uriMark ::: one of  - _ . ! ~ * ' ( ) *)
Definition uriMark (c : code_unit) : bool := existsb (N.eqb c) (js "-_.!~*'()").

(** The set [encodeURIComponent] leaves alone: uriAlpha, DecimalDigit, uriMark. *)
Definition uriUnescaped (c : code_unit) : bool :=
  is_alpha c || is_decimal_digit c || uriMark c.

Definition is_leading_surrogate (c : code_unit) : bool := (55296 <=? c) && (c <=? 56319).
Definition is_trailing_surrogate (c : code_unit) : bool := (56320 <=? c) && (c <=? 57343).

Definition UTF16SurrogatePairToCodePoint (lead trail : code_unit) : N :=
  (lead - 55296) * 1024 + (trail - 56320) + 65536.

Definition UTF16EncodeCodePoint (cp : N) : jsstring :=
  if cp <=? 65535 then [cp]
  else [(cp - 65536) / 1024 + 55296; (cp - 65536) mod 1024 + 56320].

(** The UTF-8 transformation of a code point into octets. *)
Definition utf8_octets (cp : N) : list N :=
  if cp <? 128 then [cp]
  else if cp <? 2048 then [192 + cp / 64; 128 + cp mod 64]
  else if cp <? 65536 then
    [224 + cp / 4096; 128 + (cp / 64) mod 64; 128 + cp mod 64]
  else
    [240 + cp / 262144; 128 + (cp / 4096) mod 64; 128 + (cp / 64) mod 64;
     128 + cp mod 64].

(** Upper-case hexadecimal digit of a value below 16. *)
Definition hex_digit (n : N) : code_unit := if n <? 10 then 48 + n else 55 + n.

(** "%XY" for one octet. *)
Definition escape_octet (b : N) : jsstring := [37; hex_digit (b / 16); hex_digit (b mod 16)].

Definition escape (cp : N) : jsstring := flat_map escape_octet (utf8_octets cp).

(** Encode(string, unescapedSet) with the set of [encodeURIComponent]:
    a code unit of the set is copied; any other code point is replaced by
    the escapes of its UTF-8 octets; an unpaired surrogate is a URIError. *)
Fixpoint Encode (s : jsstring) : completion jsstring :=
  match s with
  | [] => Normal []
  | c :: rest =>
    if uriUnescaped c then fmap (cons c) (Encode rest)
    else if is_trailing_surrogate c then Throw URIError
    else if is_leading_surrogate c then
      match rest with
      | [] => Throw URIError
      | d :: rest' =>
        if is_trailing_surrogate d
        then fmap (app (escape (UTF16SurrogatePairToCodePoint c d))) (Encode rest')
        else Throw URIError
      end
    else fmap (app (escape c)) (Encode rest)
  end.

(** Value of a hexadecimal digit, either case. *)
Definition hex_value (c : code_unit) : option N :=
  if is_decimal_digit c then Some (c - 48)
  else if (65 <=? c) && (c <=? 70) then Some (c - 55)
  else if (97 <=? c) && (c <=? 102) then Some (c - 87)
  else None.

(** ParseHexOctet: the octet written by two hexadecimal digits. *)
Definition hex_octet (h l : code_unit) : option N :=
  match hex_value h, hex_value l with
  | Some a, Some b => Some (16 * a + b)
  | _, _ => None
  end.

(** The octet of an escape "%XY" given by its three code units. *)
Definition escaped_octet (p h l : code_unit) : option N :=
  if p =? 37 then hex_octet h l else None.

Definition is_continuation (b : N) : bool := (128 <=? b) && (b <=? 191).

(** The code point of a multi-octet UTF-8 sequence, when the sequence is
    valid UTF-8: continuation octets, shortest form, no surrogate, at most
    U+10FFFF. *)
Definition utf8_code_point (octets : list N) : option N :=
  match octets with
  | [b1; b2] =>
    let v := (b1 - 192) * 64 + (b2 - 128) in
    if is_continuation b2 && (128 <=? v) then Some v else None
  | [b1; b2; b3] =>
    let v := (b1 - 224) * 4096 + (b2 - 128) * 64 + (b3 - 128) in
    if is_continuation b2 && is_continuation b3 && (2048 <=? v)
       && negb ((55296 <=? v) && (v <=? 57343))
    then Some v else None
  | [b1; b2; b3; b4] =>
    let v := (b1 - 240) * 262144 + (b2 - 128) * 4096 + (b3 - 128) * 64 + (b4 - 128) in
    if is_continuation b2 && is_continuation b3 && is_continuation b4
       && (65536 <=? v) && (v <=? 1114111)
    then Some v else None
  | _ => None
  end.

Definition decode_sequence (octets : list (option N)) : completion jsstring :=
  match fold_right (fun o acc => match o, acc with
                                 | Some b, Some l => Some (b :: l)
                                 | _, _ => None
                                 end) (Some []) octets with
  | Some l =>
    match utf8_code_point l with
    | Some v => Normal (UTF16EncodeCodePoint v)
    | None => Throw URIError
    end
  | None => Throw URIError
  end.

(** Decode(string, preserveEscapeSet) with the empty set of
    [decodeURIComponent]: a code unit other than "%" is copied; "%" must
    start an escape; an escaped octet below 128 is that code unit; a
    leading octet announces n = 2, 3 or 4 octets, all escaped, that must
    form valid UTF-8; anything else is a URIError. *)
Fixpoint Decode (s : jsstring) : completion jsstring :=
  match s with
  | [] => Normal []
  | c :: k1 =>
    if negb (c =? 37) then fmap (cons c) (Decode k1)
    else
      match k1 with
      | h1 :: l1 :: k3 =>
        match hex_octet h1 l1 with
        | None => Throw URIError
        | Some B =>
          if B <? 128 then fmap (cons B) (Decode k3)
          else if B <? 192 then Throw URIError
          else if B <? 224 then
            match k3 with
            | p2 :: h2 :: l2 :: k6 =>
              bind (decode_sequence [Some B; escaped_octet p2 h2 l2])
                   (fun S => fmap (app S) (Decode k6))
            | _ => Throw URIError
            end
          else if B <? 240 then
            match k3 with
            | p2 :: h2 :: l2 :: p3 :: h3 :: l3 :: k9 =>
              bind (decode_sequence
                      [Some B; escaped_octet p2 h2 l2; escaped_octet p3 h3 l3])
                   (fun S => fmap (app S) (Decode k9))
            | _ => Throw URIError
            end
          else if B <? 248 then
            match k3 with
            | p2 :: h2 :: l2 :: p3 :: h3 :: l3 :: p4 :: h4 :: l4 :: k12 =>
              bind (decode_sequence
                      [Some B; escaped_octet p2 h2 l2; escaped_octet p3 h3 l3;
                       escaped_octet p4 h4 l4])
                   (fun S => fmap (app S) (Decode k12))
            | _ => Throw URIError
            end
          else Throw URIError
        end
      | _ => Throw URIError
      end
  end.

End URI.

(** ** String.prototype.split, Array.prototype.join, String.prototype.replace *)

Fixpoint starts_with (p s : jsstring) : bool :=
  match p, s with
  | [], _ => true
  | x :: p', y :: s' => (x =? y)%N && starts_with p' s'
  | _ :: _, [] => false
  end.

(** The scan of [split] for a non-empty separator: [cur] is the part being
    collected, [skip] the number of code units of a matched separator
    still to pass over. *)
Fixpoint split_from (sep : jsstring) (skip : nat) (cur s : jsstring) : list jsstring :=
  match s with
  | [] => [cur]
  | c :: rest =>
    match skip with
    | S n => split_from sep n cur rest
    | O =>
      if starts_with sep s
      then cur :: split_from sep (length sep - 1) [] rest
      else split_from sep O (cur ++ [c]) rest
    end
  end.

(** [s.split(sep)] for a string separator and no limit; the empty
    separator splits between all code units. *)
Definition split (s sep : jsstring) : list jsstring :=
  match sep with
  | [] => map (fun c => [c]) s
  | _ :: _ => split_from sep 0 [] s
  end.

(** [parts.join(sep)] for an array of strings. *)
Fixpoint join (sep : jsstring) (parts : list jsstring) : jsstring :=
  match parts with
  | [] => []
  | [p] => p
  | p :: rest => p ++ sep ++ join sep rest
  end.

(** LineTerminator: LF, CR, LS, PS; the code units "." does not match. *)
Definition is_line_terminator (c : code_unit) : bool :=
  ((c =? 10) || (c =? 13) || (c =? 8232) || (c =? 8233))%N.

(** The pattern [.*?\?] tried at the start of [s]: the text after the
    match. The lazy star stops at the first "?" and cannot cross a line
    terminator. *)
Fixpoint match_query_prefix (s : jsstring) : option jsstring :=
  match s with
  | [] => None
  | c :: rest =>
    if (c =? 63)%N then Some rest
    else if is_line_terminator c then None
    else match_query_prefix rest
  end.

(** [s.replace(/.*?\?/, '')]: the leftmost match is removed, what comes
    before it is kept. *)
Fixpoint replace_query_prefix (s : jsstring) : jsstring :=
  match match_query_prefix s with
  | Some rest => rest
  | None =>
    match s with
    | [] => []
    | c :: rest => c :: replace_query_prefix rest
    end
  end.

(** ** Values *)

(** The built-in objects a lookup on an object literal can reach. *)
Inductive intrinsic : Type :=
| ObjectPrototype                       (* %Object.prototype% itself *)
| ObjectPrototypeMember (name : string) (* a function of %Object.prototype% *)
| ArrayPrototypeMember (name : string). (* a function of %Array.prototype% *)

(** Values a property or a callback result can hold: the primitives, arrays
    of values, and the built-ins above. [VNumber n] is the Number value for
    the integer [n], that is the binary64 value nearest to it, as a numeric
    literal gives it. *)
Inductive value : Type :=
| VUndefined
| VNull
| VBoolean (b : bool)
| VNumber (n : Z)
| VString (s : jsstring)
| VArray (elems : list value)
| VIntrinsic (i : intrinsic).

(** [QueryObject = Record<string, any>]: a plain object, given by its own
    enumerable properties in the order [Object.keys] lists them. *)
Definition QueryObject : Type := list (jsstring * value).

(** What can be passed where the program expects a string or a mapping: a
    value, or a plain object. *)
Inductive any : Type :=
| AValue (v : value)
| AObject (props : QueryObject).

Definition is_undefined (v : value) : bool :=
  match v with VUndefined => true | _ => false end.

Definition isArray (v : value) : bool :=
  match v with VArray _ => true | _ => false end.

(** The decimal digits of an integer, with "-" before a negative one. *)
Definition decimal (n : Z) : jsstring := js (NilZero.string_of_int (Z.to_int n)).

(** The Number value for a non-negative integer: the nearest binary64
    value, the one with the even significand on a tie. A result of 2^1024
    or more stands for Infinity. *)
Definition number_value (n : Z) : Z :=
  let bits := (Z.log2 n + 1)%Z in
  if (bits <=? 53)%Z then n
  else
    let shift := (bits - 53)%Z in
    let q := Z.shiftr n shift in
    let r := Z.land n (Z.ones shift) in
    let half := Z.shiftl 1 (shift - 1) in
    Z.shiftl (if (half <? r)%Z || ((r =? half)%Z && Z.odd q) then (q + 1)%Z else q) shift.

(** Number::toString, step 5: the integer s * 10^(n-k) with the least
    number k of significant digits whose Number value is [x], tried from
    [k] digits on; of two such the one closer to [x], and the even s when
    they are as close. [digits] is the number of digits of [x]. *)
Fixpoint shortest_decimal (fuel k digits : nat) (x : Z) : Z :=
  match fuel with
  | O => x
  | S fuel' =>
    if Nat.ltb digits k then x
    else
      let p := (10 ^ Z.of_nat (digits - k))%Z in
      let s := (x / p)%Z in
      let below := (s * p)%Z in
      let above := ((s + 1) * p)%Z in
      match (number_value below =? x)%Z, (number_value above =? x)%Z with
      | true, true =>
        if (x - below <? above - x)%Z then below
        else if (above - x <? x - below)%Z then above
        else if Z.even s then below else above
      | true, false => below
      | false, true => above
      | false, false => shortest_decimal fuel' (S k) digits x
      end
  end.

Fixpoint drop_zeros (s : jsstring) : jsstring :=
  match s with
  | 48%N :: rest => drop_zeros rest
  | _ => s
  end.

(** Number::toString, steps 9 and 10: the digits of s, a "." after the
    first if there are more, and the exponent n - 1 with its sign. *)
Definition exponential (v : Z) : jsstring :=
  let e := decimal (Z.of_nat (List.length (decimal v) - 1)) in
  match rev (drop_zeros (rev (decimal v))) with
  | [] => []
  | [d] => d :: js "e+" ++ e
  | d :: rest => d :: 46%N :: rest ++ js "e+" ++ e
  end.

(** Number::toString in radix 10 for the Number value for the integer [n]:
    the digits of s followed by n - k zeros when n is at most 21, the
    exponential form beyond. *)
Definition Number_toString (n : Z) : jsstring :=
  let x := number_value (Z.abs n) in
  let sign := if (n <? 0)%Z then js "-" else [] in
  if (1024 <=? Z.log2 x)%Z then sign ++ js "Infinity"
  else
    let v := shortest_decimal 17 1 (List.length (decimal x)) x in
    sign ++ (if (v <? 10 ^ 21)%Z then decimal v else exponential v).

(** The name of the function a prototype holds under [name]: the property
    name, except that [constructor] holds [Object], respectively [Array]. *)
Definition function_name (i : intrinsic) : string :=
  match i with
  | ObjectPrototype => ""
  | ObjectPrototypeMember name =>
    if String.eqb name "constructor" then "Object" else name
  | ArrayPrototypeMember name =>
    if String.eqb name "constructor" then "Array" else name
  end.

(** The text of a built-in: [[object Object]] for the prototype object, and
    for a function the NativeFunction form, in V8's spelling. *)
Definition intrinsic_text (i : intrinsic) : jsstring :=
  match i with
  | ObjectPrototype => js "[object Object]"
  | _ => js ("function " ++ function_name i ++ "() { [native code] }")%string
  end.

(** ToString. An array is its elements joined by ",", with undefined and
    null elements as the empty string. *)
Fixpoint ToString (v : value) : jsstring :=
  match v with
  | VUndefined => js "undefined"
  | VNull => js "null"
  | VBoolean true => js "true"
  | VBoolean false => js "false"
  | VNumber n => Number_toString n
  | VString s => s
  | VArray elems =>
    join (js ",")
         (map (fun e => match e with
                        | VUndefined | VNull => []
                        | _ => ToString e
                        end) elems)
  | VIntrinsic i => intrinsic_text i
  end.

Definition encodeURIComponent (v : value) : completion jsstring := URI.Encode (ToString v).
Definition decodeURIComponent (s : jsstring) : completion jsstring := URI.Decode s.

Definition typeof (a : any) : string :=
  match a with
  | AValue VUndefined => "undefined"
  | AValue VNull => "object"
  | AValue (VBoolean _) => "boolean"
  | AValue (VNumber _) => "number"
  | AValue (VString _) => "string"
  | AValue (VArray _) => "object"
  | AValue (VIntrinsic ObjectPrototype) => "object"
  | AValue (VIntrinsic _) => "function"
  | AObject _ => "object"
  end.

(** ToBoolean *)
Definition truthy (a : any) : bool :=
  match a with
  | AValue VUndefined | AValue VNull => false
  | AValue (VBoolean b) => b
  | AValue (VNumber n) => negb (n =? 0)%Z
  | AValue (VString s) => match s with [] => false | _ => true end
  | _ => true
  end.

(** ** Ordinary objects and the prototype chain *)

(** The object [parse] builds. It starts as [{}], whose prototype is
    %Object.prototype%; the only other prototype the program can give it is
    an array, through the inherited [__proto__] setter. [own] lists the own
    properties in creation order; [proto] is [None] for %Object.prototype%
    and [Some elems] for an array with these elements. *)
Record object : Type := {
  own : list (jsstring * value);
  proto : option (list value)
}.

Definition empty_object : object := {| own := []; proto := None |}.

Fixpoint assoc_get (key : jsstring) (props : list (jsstring * value)) : option value :=
  match props with
  | [] => None
  | (k, v) :: rest => if jsstring_eqb k key then Some v else assoc_get key rest
  end.

Fixpoint assoc_set (key : jsstring) (v : value) (props : list (jsstring * value))
  : list (jsstring * value) :=
  match props with
  | [] => [(key, v)]
  | (k, w) :: rest =>
    if jsstring_eqb k key then (k, v) :: rest else (k, w) :: assoc_set key v rest
  end.

(** The string-keyed properties of %Object.prototype% that hold functions;
    [__proto__] is an accessor and is treated apart. *)
Definition object_prototype_functions : list string :=
  ["constructor"; "hasOwnProperty"; "isPrototypeOf"; "propertyIsEnumerable";
   "toLocaleString"; "toString"; "valueOf";
   "__defineGetter__"; "__defineSetter__"; "__lookupGetter__"; "__lookupSetter__"]%string.

(** The string-keyed properties of %Array.prototype% (ECMAScript 2023)
    besides [length], which every array shadows. *)
Definition array_prototype_functions : list string :=
  ["at"; "concat"; "constructor"; "copyWithin"; "entries"; "every"; "fill";
   "filter"; "find"; "findIndex"; "findLast"; "findLastIndex"; "flat";
   "flatMap"; "forEach"; "includes"; "indexOf"; "join"; "keys"; "lastIndexOf";
   "map"; "pop"; "push"; "reduce"; "reduceRight"; "reverse"; "shift"; "slice";
   "some"; "sort"; "splice"; "toLocaleString"; "toReversed"; "toSorted";
   "toSpliced"; "toString"; "unshift"; "values"; "with"]%string.

Definition proto_key : jsstring := js "__proto__".

Definition find_name (key : jsstring) (names : list string) : option string :=
  find (fun n => jsstring_eqb (js n) key) names.

Fixpoint digits_value (acc : N) (s : jsstring) : option N :=
  match s with
  | [] => Some acc
  | c :: rest =>
    if URI.is_decimal_digit c then digits_value (10 * acc + (c - 48)) rest else None
  end.

(** The array index a property key denotes, if it is a canonical numeric
    string below 2^32 - 1. *)
Definition array_index (key : jsstring) : option N :=
  match key with
  | [] => None
  | [48%N] => Some 0%N
  | 48%N :: _ => None
  | _ =>
    match digits_value 0 key with
    | Some n => if (n <? 4294967295)%N then Some n else None
    | None => None
    end
  end.

(** The position of an element of [elems] that [key] names. *)
Definition element_index (elems : list value) (key : jsstring) : option nat :=
  match array_index key with
  | Some n => if (n <? N.of_nat (List.length elems))%N then Some (N.to_nat n) else None
  | None => None
  end.

(** Own properties of an array: its elements and [length]. *)
Definition array_own_get (elems : list value) (key : jsstring) : option value :=
  match element_index elems key with
  | Some i => nth_error elems i
  | None =>
    if jsstring_eqb key (js "length")
    then Some (VNumber (Z.of_nat (List.length elems)))
    else None
  end.

(** Lookup on %Object.prototype%; the [__proto__] getter answers the
    prototype of the receiver, [receiver_proto]. *)
Definition object_prototype_get (receiver_proto : value) (key : jsstring) : value :=
  if jsstring_eqb key proto_key then receiver_proto
  else match find_name key object_prototype_functions with
       | Some name => VIntrinsic (ObjectPrototypeMember name)
       | None => VUndefined
       end.

(** [obj[key]] as a read: own properties first, then the prototype chain. *)
Definition Get (o : object) (key : jsstring) : value :=
  match assoc_get key (own o) with
  | Some v => v
  | None =>
    match proto o with
    | None => object_prototype_get (VIntrinsic ObjectPrototype) key
    | Some elems =>
      match array_own_get elems key with
      | Some v => v
      | None =>
        match find_name key array_prototype_functions with
        | Some name => VIntrinsic (ArrayPrototypeMember name)
        | None => object_prototype_get (VArray elems) key
        end
      end
    end
  end.

(** [obj[key] = v]. An own property is overwritten. Otherwise the chain
    decides: [__proto__] is the inherited accessor, whose setter replaces
    the prototype by the array [v]; any other key, inherited as a writable
    data property or absent, becomes a new own property. The program
    assigns to [__proto__] only the array literal of line 87 (the key never
    reads as undefined), so the setter is modelled for arrays, and for the
    primitives, which it ignores. *)
Definition Put (o : object) (key : jsstring) (v : value) : object :=
  match assoc_get key (own o) with
  | Some _ => {| own := assoc_set key v (own o); proto := proto o |}
  | None =>
    if jsstring_eqb key proto_key then
      match v with
      | VArray elems => {| own := own o; proto := Some elems |}
      | _ => o
      end
    else {| own := own o ++ [(key, v)]; proto := proto o |}
  end.

Fixpoint list_update (i : nat) (f : value -> value) (l : list value) : list value :=
  match l, i with
  | [], _ => []
  | x :: rest, O => f x :: rest
  | x :: rest, S j => x :: list_update j f rest
  end.

Definition pushed (v : value) (target : value) : value :=
  match target with
  | VArray elems => VArray (elems ++ [v])
  | _ => target
  end.

(** [obj[key].push(v)] where [obj[key]] is an array: the array that [Get]
    finds grows in place, wherever it lives: in an own property, as an
    element of the prototype array, or as the prototype array itself
    (reached through [__proto__]). *)
Definition push (o : object) (key : jsstring) (v : value) : object :=
  match assoc_get key (own o) with
  | Some w => {| own := assoc_set key (pushed v w) (own o); proto := proto o |}
  | None =>
    match proto o with
    | None => o
    | Some elems =>
      match element_index elems key with
      | Some i => {| own := own o; proto := Some (list_update i (pushed v) elems) |}
      | None =>
        if jsstring_eqb key proto_key
        then {| own := own o; proto := Some (elems ++ [v]) |}
        else o
      end
    end
  end.

(** ** Effects: exceptions and the calls made to the callback *)

(** One invocation of the user callback: the key and the value passed. *)
Definition call : Type := (jsstring * value)%type.

(** A computation runs on the log of callback invocations so far and ends
    with a completion and the extended log. *)
Definition M (A : Type) : Type := list call -> completion A * list call.

Definition ret {A} (a : A) : M A := fun log => (Normal a, log).

Definition mbind {A B} (m : M A) (f : A -> M B) : M B :=
  fun log =>
    match m log with
    | (Normal a, log') => f a log'
    | (Throw e, log') => (Throw e, log')
    end.

Notation "x <- m ;; k" := (mbind m (fun x => k))
  (at level 61, m at next level, right associativity).

Definition lift {A} (c : completion A) : M A := fun log => (c, log).

(** Calling [fn(key, x)]: the call is logged, the result returned. *)
Definition invoke {X} (as_value : X -> value) (fn : jsstring -> X -> value)
           (key : jsstring) (x : X) : M value :=
  fun log => (Normal (fn key x), log ++ [(key, as_value x)]).

(** [for (const x of items) body], threading the loop state. *)
Fixpoint for_of {A St} (items : list A) (body : St -> A -> M St) (s : St) : M St :=
  match items with
  | [] => ret s
  | x :: rest => s' <- body s x ;; for_of rest body s'
  end.

Definition run {A} (m : M A) : completion A * list call := m [].

(** ** The program *)

Definition ParseFunction : Type := jsstring -> jsstring -> value.
Definition StringifyFunction : Type := jsstring -> value -> value.

(** [if (!sep) sep = d]: an absent, null or empty separator is replaced. *)
Definition or_default (sep : option jsstring) (d : jsstring) : jsstring :=
  match sep with
  | None | Some [] => d
  | Some s => s
  end.

(** The end of a turn of the loop of [parse] (lines 86 to 92): a key that
    reads as not undefined is made an array, if it is not one, and the value
    pushed; otherwise the value is assigned. *)
Definition store (obj : object) (key : jsstring) (value : value) : object :=
  if negb (is_undefined (Get obj key)) then
    let obj := if negb (isArray (Get obj key))
               then Put obj key (VArray [Get obj key])
               else obj in
    push obj key value
  else Put obj key value.

(** One turn of the loop of [parse]. *)
Definition parse_group (eq : jsstring) (fn : ParseFunction)
           (obj : object) (group : jsstring) : M object :=
  let keyValue := split group eq in
  if negb (Nat.eqb (List.length keyValue) 2) then ret obj
  else
    key <- lift (decodeURIComponent (nth 0 keyValue [])) ;;
    value <- lift (decodeURIComponent (nth 1 keyValue [])) ;;
    value <- invoke VString fn key value ;;
    ret (store obj key value).

Definition parse (str : any) (sep eq : option jsstring) (fn : option ParseFunction)
  : M object :=
  let obj := empty_object in
  match str with
  | AValue (VString (c :: s)) =>
    let sep := or_default sep (js "&") in
    let eq := or_default eq (js "=") in
    let fn := match fn with
              | Some f => f
              | None => fun key value => VString value
              end in
    let str := replace_query_prefix (c :: s) in
    let groups := split str sep in
    for_of groups (parse_group eq fn) obj
  | _ => ret obj
  end.

Definition isObject (obj : any) : bool :=
  (truthy obj && (String.eqb (typeof obj) "object" || String.eqb (typeof obj) "function"))
  || false.

(** [obj == null] *)
Definition is_nullish (obj : any) : bool :=
  match obj with
  | AValue VUndefined | AValue VNull => true
  | _ => false
  end.

Fixpoint indexed (i : nat) (elems : list value) : list (jsstring * value) :=
  match elems with
  | [] => []
  | e :: rest => (decimal (Z.of_nat i), e) :: indexed (S i) rest
  end.

(** The pairs [key], [obj[key]] for [key] of [Object.keys(obj)]. *)
Definition entries (obj : any) : list (jsstring * value) :=
  match obj with
  | AObject props => props
  | AValue (VArray elems) => indexed 0 elems
  | AValue _ => []
  end.

(** [qs.push([_key, encodeURIComponent(val)].join(eq))] after
    [val = fn(key, val)]. *)
Definition stringify_value (eq : jsstring) (fn : StringifyFunction)
           (key _key : jsstring) (qs : list jsstring) (val : value) : M (list jsstring) :=
  val <- invoke (fun v => v) fn key val ;;
  encoded <- lift (encodeURIComponent val) ;;
  ret (qs ++ [join eq [_key; encoded]]).

(** One turn of the loop of [stringify]. *)
Definition stringify_key (eq : jsstring) (fn : StringifyFunction)
           (qs : list jsstring) (entry : jsstring * value) : M (list jsstring) :=
  let (key, value) := entry in
  _key <- lift (encodeURIComponent (VString key)) ;;
  if is_undefined value then ret qs
  else
    match value with
    | VArray elems => for_of elems (stringify_value eq fn key _key) qs
    | _ => stringify_value eq fn key _key qs value
    end.

Definition stringify (obj : any) (sep eq : option jsstring) (fn : option StringifyFunction)
  : M jsstring :=
  if is_nullish obj || negb (isObject obj) then ret []
  else
    let sep := or_default sep (js "&") in
    let eq := or_default eq (js "=") in
    let fn := match fn with
              | Some f => f
              | None => fun key value => value
              end in
    qs <- for_of (entries obj) (stringify_key eq fn) [] ;;
    ret (join sep qs).

(** The object with the given own properties and the default prototype. *)
Definition record (props : list (jsstring * value)) : object :=
  {| own := props; proto := None |}.

Definition str (s : string) : value := VString (js s).

(** The completion of a run, and the callback invocations it made. *)
Definition outcome {A} (m : M A) : completion A := fst (run m).
Definition calls {A} (m : M A) : list call := snd (run m).

(** ** Notions the properties are stated with *)

(** String.prototype.isWellFormed: every surrogate is part of a pair. *)
Fixpoint isWellFormed (s : jsstring) : bool :=
  match s with
  | [] => true
  | c :: rest =>
    if URI.is_trailing_surrogate c then false
    else if URI.is_leading_surrogate c then
      match rest with
      | [] => false
      | d :: rest' => URI.is_trailing_surrogate d && isWellFormed rest'
      end
    else is_code_unit c && isWellFormed rest
  end.

(** A group is retained when it splits into exactly two parts. *)
Definition retained (eq group : jsstring) : bool :=
  Nat.eqb (List.length (split group eq)) 2.

(** The groups [parse] iterates over, and its separators after defaulting. *)
Definition groups_of (s : jsstring) (sep : option jsstring) : list jsstring :=
  split (replace_query_prefix s) (or_default sep (js "&")).

Definition eq_of (eq : option jsstring) : jsstring := or_default eq (js "=").

Definition parse_fn_of (fn : option ParseFunction) : ParseFunction :=
  match fn with
  | Some f => f
  | None => fun _ value => VString value
  end.

Definition stringify_fn_of (fn : option StringifyFunction) : StringifyFunction :=
  match fn with
  | Some f => f
  | None => fun _ value => value
  end.

(** A retained group whose key or value does not decode. *)
Definition undecodable (eq group : jsstring) : bool :=
  retained eq group &&
  match decodeURIComponent (nth 0 (split group eq) []),
        decodeURIComponent (nth 1 (split group eq) []) with
  | Normal _, Normal _ => false
  | _, _ => true
  end.

(** The decoded key and value of each retained group, in order, as far as
    the loop gets: it stops at the first group that does not decode. *)
Fixpoint decoded_pairs (eq : jsstring) (groups : list jsstring) : list (jsstring * jsstring) :=
  match groups with
  | [] => []
  | group :: rest =>
    if retained eq group then
      match decodeURIComponent (nth 0 (split group eq) []),
            decodeURIComponent (nth 1 (split group eq) []) with
      | Normal key, Normal value => (key, value) :: decoded_pairs eq rest
      | _, _ => []
      end
    else decoded_pairs eq rest
  end.

(** [w] is the value [v], or a sequence in which [v] occurs. *)
Definition holds (w v : value) : Prop :=
  w = v \/ exists elems, w = VArray elems /\ In v elems.

(** Neither undefined nor an array. *)
Definition is_scalar (v : value) : bool := negb (is_undefined v) && negb (isArray v).

(** A key that an object literal inherits: it reads as not undefined on
    the empty object. *)
Definition inherited (key : jsstring) : bool :=
  negb (is_undefined (Get empty_object key)).

(** The scalar occurrences [stringify] discovers: one per element of a
    sequence value, one per other value that is not undefined. *)
Definition occurrences (props : list (jsstring * value)) : list call :=
  flat_map (fun entry : jsstring * value =>
              let (key, value) := entry in
              match value with
              | VUndefined => []
              | VArray elems => map (pair key) elems
              | _ => [(key, value)]
              end) props.

Fixpoint sequence {A} (l : list (completion A)) : completion (list A) :=
  match l with
  | [] => Normal []
  | m :: rest => bind m (fun a => fmap (cons a) (sequence rest))
  end.

(** The pair emitted for one occurrence: encoded key, key-value separator,
    encoded text of the transformed value. *)
Definition pair_of (eq : jsstring) (fn : StringifyFunction) (occ : call)
  : completion jsstring :=
  bind (encodeURIComponent (VString (fst occ))) (fun _key =>
  bind (encodeURIComponent (fn (fst occ) (snd occ))) (fun encoded =>
  Normal (_key ++ eq ++ encoded))).

(** The pairs of one key as the specification words them: none for an
    undefined value, one per element for a sequence, one for a scalar. *)
Definition pairs_of_entry (eq : jsstring) (fn : StringifyFunction)
           (entry : jsstring * value) : completion (list jsstring) :=
  bind (encodeURIComponent (VString (fst entry))) (fun _ =>
  match snd entry with
  | VUndefined => Normal []
  | VArray elems => sequence (map (fun e => pair_of eq fn (fst entry, e)) elems)
  | v => sequence [pair_of eq fn (fst entry, v)]
  end).

Definition emitted_pairs (eq : jsstring) (fn : StringifyFunction)
           (props : list (jsstring * value)) : completion (list jsstring) :=
  fmap (@concat jsstring) (sequence (map (pairs_of_entry eq fn) props)).

(** A value that survives the round trip: a well-formed string, or a
    sequence of at least two of them. *)
Definition round_trip_value (v : value) : bool :=
  match v with
  | VString s => isWellFormed s
  | VArray elems =>
    Nat.leb 2 (List.length elems) &&
    forallb (fun e => match e with VString s => isWellFormed s | _ => false end) elems
  | _ => false
  end.

Definition round_trip_entry (entry : jsstring * value) : bool :=
  isWellFormed (fst entry) && negb (inherited (fst entry)) && round_trip_value (snd entry).

(** [o] is the mapping with properties [m], keys compared as a set: the
    same keys with the same values, under the default prototype. *)
Definition same_mapping (o : object) (m : list (jsstring * value)) : Prop :=
  proto o = None /\ forall key, assoc_get key (own o) = assoc_get key m.

(** [parse(stringify(m))] is [m], for the mapping with properties [m]. *)
Definition round_trip (m : list (jsstring * value)) : Prop :=
  exists s o,
    outcome (stringify (AObject m) None None None) = Normal s /\
    outcome (parse (AValue (VString s)) None None None) = Normal o /\
    same_mapping o m.

(** A string, or a sequence of strings of any length. *)
Definition string_or_strings (v : value) : bool :=
  match v with
  | VString _ => true
  | VArray elems => forallb (fun e => match e with VString _ => true | _ => false end) elems
  | _ => false
  end.

(** A code point that UTF-8 can carry: a Unicode scalar value. *)
Definition is_scalar_value (cp : N) : bool :=
  ((cp <? 1114112) && negb ((55296 <=? cp) && (cp <=? 57343)))%N.

(** The separators of the default format and the URL query mark. *)
Definition is_separator (c : code_unit) : bool :=
  ((c =? 38) || (c =? 61) || (c =? 63))%N.

(** Storing the transformed value of a decoded pair, and the invocation
    that was logged for it. *)
Definition store_pair (fn : ParseFunction) (obj : object) (kv : jsstring * jsstring) : object :=
  store obj (fst kv) (fn (fst kv) (snd kv)).

Definition logged (kv : jsstring * jsstring) : call := (fst kv, VString (snd kv)).

(** The text of a string value. *)
Definition text_of (v : value) : jsstring :=
  match v with VString s => s | _ => [] end.

(** The key and text of every scalar occurrence of a mapping of strings. *)
Definition flat_pairs (m : list (jsstring * value)) : list (jsstring * jsstring) :=
  flat_map (fun entry : jsstring * value =>
              match snd entry with
              | VArray elems => map (fun e => (fst entry, text_of e)) elems
              | v => [(fst entry, text_of v)]
              end) m.

(** The encoding of a string that encodes. *)
Definition encoded (s : jsstring) : jsstring :=
  match URI.Encode s with Normal e => e | Throw _ => [] end.

(** The group written for a key and a text with the default separator. *)
Definition group_of (kv : jsstring * jsstring) : jsstring :=
  encoded (fst kv) ++ js "=" ++ encoded (snd kv).

(** [!str || typeof str !== 'string'] fails: a string that is not empty. *)
Definition nonempty_string (a : any) : bool :=
  match a with
  | AValue (VString (_ :: _)) => true
  | _ => false
  end.

(** The encode primitive returns normally on the text of [v]. *)
Definition encodes (v : value) : bool :=
  match encodeURIComponent v with Normal _ => true | Throw _ => false end.

(** [__proto__] is not an own property, and the array that may have
    replaced the prototype holds no array. *)
Definition plain_prototype (o : object) : Prop :=
  assoc_get proto_key (own o) = None /\
  forall elems, proto o = Some elems -> Forall (fun e => isArray e = false) elems.

(** [o] keeps the value [x] stored for [key]: in the own property [key],
    or, for [__proto__], in the array that replaced the prototype. *)
Definition kept (o : object) (key : jsstring) (x : value) : Prop :=
  if jsstring_eqb key proto_key
  then exists elems, proto o = Some elems /\ In x elems
  else exists w, assoc_get key (own o) = Some w /\ holds w x.

(** What [encodeURIComponent] can write: an unescaped code unit or "%". *)
Definition uri_output (c : code_unit) : bool := URI.uriUnescaped c || (c =? 37)%N.

(** Separators the encoding cannot collide with: both start with a code
    unit the encoder never writes, the first one of the group separator is
    not in the key-value separator, and neither holds "?". *)
Definition safe_separators (sep eq : jsstring) : bool :=
  match sep, eq with
  | c1 :: _, c2 :: _ =>
    negb (uri_output c1) && negb (uri_output c2) &&
    negb (existsb (N.eqb c1) eq) &&
    negb (existsb (N.eqb 63%N) sep) && negb (existsb (N.eqb 63%N) eq)
  | _, _ => false
  end.

(** The key and the text [stringify] writes for an occurrence. *)
Definition written (fn : StringifyFunction) (occ : call) : jsstring * jsstring :=
  (fst occ, ToString (fn (fst occ) (snd occ))).

(** The group written for a key and a text with the separator [eq]. *)
Definition group_with (eq : jsstring) (kv : jsstring * jsstring) : jsstring :=
  encoded (fst kv) ++ eq ++ encoded (snd kv).

(** The transformed values of the pairs with key [key], in order. *)
Definition values_of (fn : ParseFunction) (key : jsstring)
           (pairs : list (jsstring * jsstring)) : list value :=
  map (fun kv => fn (fst kv) (snd kv))
      (filter (fun kv => jsstring_eqb (fst kv) key) pairs).

(** What a key holds after its values were stored one by one: nothing, the
    single value, or the sequence of all of them. *)
Definition collected (vs : list value) : option value :=
  match vs with
  | [] => None
  | [v] => Some v
  | _ => Some (VArray vs)
  end.

(** The raw key and value of each retained group. *)
Definition raw_pairs (eq : jsstring) (groups : list jsstring) : list (jsstring * jsstring) :=
  flat_map (fun group => match split group eq with
                         | [rk; rv] => [(rk, rv)]
                         | _ => []
                         end) groups.

(** What a key that reads as [old] holds after [new] was stored. *)
Definition merged (old new : value) : value :=
  match old with
  | VUndefined => new
  | VArray elems => VArray (elems ++ [new])
  | _ => VArray [old; new]
  end.

(** A decoded pair that the round trip can carry. *)
Definition round_trip_pair (kv : jsstring * jsstring) : bool :=
  negb (inherited (fst kv)) && isWellFormed (fst kv) && isWellFormed (snd kv).

(** ** The URI coding *)

Section URI_facts.
Import URI.
Open Scope N_scope.

Ltac dlia := zify; Z.to_euclidean_division_equations; lia.

Lemma hex_value_digit (n : N) : n < 16 -> hex_value (hex_digit n) = Some n.
Proof.
  intros Hn. unfold hex_value, hex_digit, is_decimal_digit.
  destruct (n <? 10) eqn:E.
  - apply N.ltb_lt in E.
    replace ((48 <=? 48 + n) && (48 + n <=? 57)) with true.
    + f_equal. lia.
    + symmetry. apply andb_true_iff. split; apply N.leb_le; lia.
  - apply N.ltb_ge in E.
    replace ((48 <=? 55 + n) && (55 + n <=? 57)) with false.
    + replace ((65 <=? 55 + n) && (55 + n <=? 70)) with true.
      * f_equal. lia.
      * symmetry. apply andb_true_iff. split; apply N.leb_le; lia.
    + symmetry. apply andb_false_iff. right. apply N.leb_gt. lia.
Qed.

Lemma hex_octet_escape (b : N) :
  b < 256 -> hex_octet (hex_digit (b / 16)) (hex_digit (b mod 16)) = Some b.
Proof.
  intros Hb. unfold hex_octet.
  rewrite !hex_value_digit by dlia.
  f_equal. dlia.
Qed.

Lemma Decode_plain (c : code_unit) (rest : jsstring) :
  c <> 37 -> Decode (c :: rest) = fmap (cons c) (Decode rest).
Proof.
  intros Hc. cbn [Decode]. apply N.eqb_neq in Hc. rewrite Hc. reflexivity.
Qed.

Lemma Decode_escape (h l : code_unit) (k3 : jsstring) :
  Decode (37 :: h :: l :: k3) =
  match hex_octet h l with
  | None => Throw URIError
  | Some B =>
    if B <? 128 then fmap (cons B) (Decode k3)
    else if B <? 192 then Throw URIError
    else if B <? 224 then
      match k3 with
      | p2 :: h2 :: l2 :: k6 =>
        bind (decode_sequence [Some B; escaped_octet p2 h2 l2])
             (fun S => fmap (app S) (Decode k6))
      | _ => Throw URIError
      end
    else if B <? 240 then
      match k3 with
      | p2 :: h2 :: l2 :: p3 :: h3 :: l3 :: k9 =>
        bind (decode_sequence
                [Some B; escaped_octet p2 h2 l2; escaped_octet p3 h3 l3])
             (fun S => fmap (app S) (Decode k9))
      | _ => Throw URIError
      end
    else if B <? 248 then
      match k3 with
      | p2 :: h2 :: l2 :: p3 :: h3 :: l3 :: p4 :: h4 :: l4 :: k12 =>
        bind (decode_sequence
                [Some B; escaped_octet p2 h2 l2; escaped_octet p3 h3 l3;
                 escaped_octet p4 h4 l4])
             (fun S => fmap (app S) (Decode k12))
      | _ => Throw URIError
      end
    else Throw URIError
  end.
Proof. reflexivity. Qed.

Lemma escaped_octet_escape (b : N) :
  b < 256 -> escaped_octet 37 (hex_digit (b / 16)) (hex_digit (b mod 16)) = Some b.
Proof. intros Hb. unfold escaped_octet. cbn [N.eqb Pos.eqb]. now apply hex_octet_escape. Qed.

Lemma scalar_value_spec (cp : N) :
  is_scalar_value cp = true <-> cp < 1114112 /\ (cp < 55296 \/ 57343 < cp).
Proof.
  unfold is_scalar_value. rewrite andb_true_iff, negb_true_iff, andb_false_iff.
  rewrite N.ltb_lt, !N.leb_gt. tauto.
Qed.

Ltac range_tests :=
  repeat match goal with
  | |- context [?a <? ?b] =>
    first [ replace (a <? b) with true by (symmetry; apply N.ltb_lt; dlia)
          | replace (a <? b) with false by (symmetry; apply N.ltb_ge; dlia) ]
  | |- context [?a <=? ?b] =>
    first [ replace (a <=? b) with true by (symmetry; apply N.leb_le; dlia)
          | replace (a <=? b) with false by (symmetry; apply N.leb_gt; dlia) ]
  end.

Lemma Decode_escaped_code_point (cp : N) (rest : jsstring) :
  is_scalar_value cp = true ->
  Decode (escape cp ++ rest) = fmap (app (UTF16EncodeCodePoint cp)) (Decode rest).
Proof.
  intros Hcp. apply scalar_value_spec in Hcp. destruct Hcp as [Hmax Hsur].
  unfold escape, utf8_octets.
  destruct (cp <? 128) eqn:E1; [apply N.ltb_lt in E1 | apply N.ltb_ge in E1].
  { cbn [flat_map app escape_octet]. rewrite Decode_escape, hex_octet_escape by lia.
    range_tests. unfold UTF16EncodeCodePoint. range_tests.
    destruct (Decode rest); reflexivity. }
  destruct (cp <? 2048) eqn:E2; [apply N.ltb_lt in E2 | apply N.ltb_ge in E2].
  { cbn [flat_map app escape_octet]. rewrite Decode_escape, hex_octet_escape by dlia.
    range_tests. rewrite escaped_octet_escape by dlia.
    unfold decode_sequence, utf8_code_point, is_continuation. cbn [fold_right].
    range_tests. cbn [andb bind].
    replace ((192 + cp / 64 - 192) * 64 + (128 + cp mod 64 - 128)) with cp by dlia.
    reflexivity. }
  destruct (cp <? 65536) eqn:E3; [apply N.ltb_lt in E3 | apply N.ltb_ge in E3].
  { cbn [flat_map app escape_octet]. rewrite Decode_escape, hex_octet_escape by dlia.
    range_tests. rewrite !escaped_octet_escape by dlia.
    unfold decode_sequence, utf8_code_point, is_continuation. cbn [fold_right].
    replace ((224 + cp / 4096 - 224) * 4096 + (128 + (cp / 64) mod 64 - 128) * 64
             + (128 + cp mod 64 - 128)) with cp by dlia.
    range_tests. cbn [andb].
    replace ((55296 <=? cp) && (cp <=? 57343)) with false
      by (symmetry; apply andb_false_iff; rewrite !N.leb_gt; lia).
    reflexivity. }
  cbn [flat_map app escape_octet]. rewrite Decode_escape, hex_octet_escape by dlia.
  range_tests. rewrite !escaped_octet_escape by dlia.
  unfold decode_sequence, utf8_code_point, is_continuation. cbn [fold_right].
  replace ((240 + cp / 262144 - 240) * 262144 + (128 + (cp / 4096) mod 64 - 128) * 4096
           + (128 + (cp / 64) mod 64 - 128) * 64 + (128 + cp mod 64 - 128)) with cp by dlia.
  range_tests. reflexivity.
Qed.

Lemma uriUnescaped_ascii (c : code_unit) :
  uriUnescaped c = true -> c < 128 /\ c <> 37 /\ is_separator c = false.
Proof.
  unfold uriUnescaped, is_alpha, is_decimal_digit, uriMark, is_separator.
  cbn [existsb js list_ascii_of_string map N_of_ascii N_of_digits].
  rewrite !orb_true_iff, !andb_true_iff, !N.leb_le, !N.eqb_eq, !orb_false_iff, !N.eqb_neq.
  cbn. lia.
Qed.

Lemma hex_digit_no_separator (n : N) :
  hex_digit n <> 37 /\ is_separator (hex_digit n) = false.
Proof.
  unfold hex_digit, is_separator. rewrite !orb_false_iff, !N.eqb_neq.
  destruct (n <? 10) eqn:E; [apply N.ltb_lt in E | apply N.ltb_ge in E]; lia.
Qed.

Lemma escape_octet_no_separator (b : N) :
  Forall (fun c => is_separator c = false) (escape_octet b).
Proof.
  unfold escape_octet. repeat constructor; apply hex_digit_no_separator.
Qed.

Lemma escape_no_separator (cp : N) :
  Forall (fun c => is_separator c = false) (escape cp).
Proof.
  unfold escape. induction (utf8_octets cp) as [|b l IH]; cbn [flat_map].
  - constructor.
  - apply Forall_app. split; [apply escape_octet_no_separator | exact IH].
Qed.

(** The output of [Encode] holds no "&", "=" or "?". *)
Lemma Encode_no_separator (s e : jsstring) :
  Encode s = Normal e -> Forall (fun c => is_separator c = false) e.
Proof.
  remember (List.length s) as n eqn:Hn.
  revert s e Hn. induction n as [n IH] using lt_wf_ind. intros s e Hn He.
  destruct s as [|c rest]; cbn [Encode] in He.
  - injection He as <-. constructor.
  - destruct (uriUnescaped c) eqn:Eu.
    + destruct (Encode rest) as [e'|] eqn:Er; [|discriminate].
      injection He as <-. constructor.
      * now apply uriUnescaped_ascii.
      * apply (IH (List.length rest)) with (s := rest); subst; cbn; auto with arith.
    + destruct (is_trailing_surrogate c); [discriminate|].
      destruct (is_leading_surrogate c).
      * destruct rest as [|d rest']; [discriminate|].
        destruct (is_trailing_surrogate d); [|discriminate].
        destruct (Encode rest') as [e'|] eqn:Er; [|discriminate].
        injection He as <-. apply Forall_app. split; [apply escape_no_separator|].
        apply (IH (List.length rest')) with (s := rest'); subst; cbn; auto with arith.
      * destruct (Encode rest) as [e'|] eqn:Er; [|discriminate].
        injection He as <-. apply Forall_app. split; [apply escape_no_separator|].
        apply (IH (List.length rest)) with (s := rest); subst; cbn; auto with arith.
Qed.

Lemma surrogate_pair_code_point (c d : code_unit) :
  is_leading_surrogate c = true -> is_trailing_surrogate d = true ->
  is_scalar_value (UTF16SurrogatePairToCodePoint c d) = true /\
  UTF16EncodeCodePoint (UTF16SurrogatePairToCodePoint c d) = [c; d].
Proof.
  unfold is_leading_surrogate, is_trailing_surrogate.
  rewrite !andb_true_iff, !N.leb_le. intros [Hc1 Hc2] [Hd1 Hd2].
  unfold UTF16SurrogatePairToCodePoint. split.
  - apply scalar_value_spec. lia.
  - unfold UTF16EncodeCodePoint. range_tests. f_equal; [|f_equal]; dlia.
Qed.

(** Decoding reverses encoding on every well-formed string, and encoding
    succeeds there. *)
Lemma Decode_Encode (s : jsstring) :
  isWellFormed s = true -> exists e, Encode s = Normal e /\ Decode e = Normal s.
Proof.
  remember (List.length s) as n eqn:Hn.
  revert s Hn. induction n as [n IH] using lt_wf_ind. intros s Hn Hwf.
  destruct s as [|c rest]; cbn [Encode isWellFormed] in *.
  - exists []. split; reflexivity.
  - destruct (uriUnescaped c) eqn:Eu.
    + destruct (uriUnescaped_ascii _ Eu) as (Hlt & Hpct & _).
      assert (Ht : is_trailing_surrogate c = false).
      { unfold is_trailing_surrogate. apply andb_false_iff. left. apply N.leb_gt. lia. }
      assert (Hl : is_leading_surrogate c = false).
      { unfold is_leading_surrogate. apply andb_false_iff. left. apply N.leb_gt. lia. }
      rewrite Ht, Hl in Hwf. apply andb_true_iff in Hwf. destruct Hwf as [_ Hwf].
      destruct (IH (List.length rest)) with (s := rest) as (e' & He' & Hd');
        [subst; cbn; auto with arith | reflexivity | exact Hwf |].
      exists (c :: e'). rewrite He'. split; [reflexivity|].
      rewrite Decode_plain by exact Hpct. rewrite Hd'. reflexivity.
    + destruct (is_trailing_surrogate c) eqn:Et; [discriminate|].
      destruct (is_leading_surrogate c) eqn:El.
      * destruct rest as [|d rest']; [discriminate|].
        apply andb_true_iff in Hwf. destruct Hwf as [Hd Hwf]. rewrite Hd.
        destruct (IH (List.length rest')) with (s := rest') as (e' & He' & Hd');
          [subst; cbn; auto with arith | reflexivity | exact Hwf |].
        destruct (surrogate_pair_code_point _ _ El Hd) as [Hsv Hpair].
        exists (escape (UTF16SurrogatePairToCodePoint c d) ++ e').
        rewrite He'. split; [reflexivity|].
        rewrite Decode_escaped_code_point by exact Hsv.
        rewrite Hd', Hpair. reflexivity.
      * apply andb_true_iff in Hwf. destruct Hwf as [Hcu Hwf].
        destruct (IH (List.length rest)) with (s := rest) as (e' & He' & Hd');
          [subst; cbn; auto with arith | reflexivity | exact Hwf |].
        exists (escape c ++ e'). rewrite He'. split; [reflexivity|].
        assert (Hsv : is_scalar_value c = true).
        { apply scalar_value_spec. unfold is_code_unit in Hcu. apply N.ltb_lt in Hcu.
          unfold is_trailing_surrogate, is_leading_surrogate in *.
          apply andb_false_iff in Et, El. rewrite !N.leb_gt in Et, El. lia. }
        rewrite Decode_escaped_code_point by exact Hsv. rewrite Hd'.
        unfold UTF16EncodeCodePoint.
        replace (c <=? 65535) with true; [reflexivity|].
        symmetry. apply N.leb_le. unfold is_code_unit in Hcu. apply N.ltb_lt in Hcu. lia.
Qed.

(** On code units, encoding succeeds only on well-formed strings. *)
Lemma Encode_well_formed (s e : jsstring) :
  forallb is_code_unit s = true -> Encode s = Normal e -> isWellFormed s = true.
Proof.
  remember (List.length s) as n eqn:Hn.
  revert s e Hn. induction n as [n IH] using lt_wf_ind. intros s e Hn Hcu He.
  destruct s as [|c rest]; [reflexivity|].
  cbn [Encode isWellFormed forallb] in *.
  apply andb_true_iff in Hcu. destruct Hcu as [Hc Hcu].
  destruct (is_trailing_surrogate c) eqn:Et.
  - destruct (uriUnescaped c) eqn:Eu; [|discriminate].
    apply uriUnescaped_ascii in Eu. destruct Eu as [Eu _].
    unfold is_trailing_surrogate in Et. apply andb_true_iff in Et.
    destruct Et as [Et _]. apply N.leb_le in Et. lia.
  - destruct (is_leading_surrogate c) eqn:El.
    + destruct (uriUnescaped c) eqn:Eu.
      { apply uriUnescaped_ascii in Eu. destruct Eu as [Eu _].
        unfold is_leading_surrogate in El. apply andb_true_iff in El.
        destruct El as [El _]. apply N.leb_le in El. lia. }
      destruct rest as [|d rest']; [discriminate|].
      destruct (is_trailing_surrogate d); [|discriminate]. cbn [andb].
      destruct (Encode rest') as [e'|] eqn:Er; [|discriminate].
      cbn [forallb] in Hcu. apply andb_true_iff in Hcu. destruct Hcu as [_ Hcu].
      apply (IH (List.length rest')) with (s := rest') (e := e');
        subst; cbn; auto with arith.
    + rewrite Hc. cbn [andb].
      destruct (uriUnescaped c);
        (destruct (Encode rest) as [e'|] eqn:Er; [|discriminate]);
        apply (IH (List.length rest)) with (s := rest) (e := e');
        subst; cbn; auto with arith.
Qed.

End URI_facts.

(** ** Splitting and joining *)

Section Split_facts.
Open Scope N_scope.

Variable c0 : code_unit.

Lemma split_from_piece (cur piece rest : jsstring) :
  Forall (fun c => c <> c0) piece ->
  split_from [c0] 0 cur (piece ++ rest) = split_from [c0] 0 (cur ++ piece) rest.
Proof.
  intros Hp. revert cur. induction Hp as [|c piece Hc Hp IH]; intros cur.
  - now rewrite app_nil_r.
  - cbn [app split_from starts_with].
    replace (c0 =? c) with false by (symmetry; apply N.eqb_neq; congruence).
    cbn [andb]. rewrite IH, <- app_assoc. reflexivity.
Qed.

Lemma split_from_separator (cur rest : jsstring) :
  split_from [c0] 0 cur (c0 :: rest) = cur :: split_from [c0] 0 [] rest.
Proof.
  cbn [split_from starts_with]. rewrite N.eqb_refl. destruct rest; reflexivity.
Qed.

Lemma split_free (piece : jsstring) :
  Forall (fun c => c <> c0) piece -> split piece [c0] = [piece].
Proof.
  intros Hp. unfold split.
  rewrite <- (app_nil_r piece) at 1. rewrite split_from_piece by exact Hp.
  reflexivity.
Qed.

(** Splitting what [join] built from separator-free pieces gives the pieces back. *)
Lemma split_join (pieces : list jsstring) :
  pieces <> [] -> Forall (Forall (fun c => c <> c0)) pieces ->
  split (join [c0] pieces) [c0] = pieces.
Proof.
  intros Hne Hall. unfold split. revert Hne.
  induction Hall as [|p rest Hp Hrest IH]; intros Hne; [now destruct Hne|].
  destruct rest as [|q rest].
  - cbn [join]. now apply split_free.
  - change (join [c0] (p :: q :: rest)) with (p ++ [c0] ++ join [c0] (q :: rest)).
    rewrite split_from_piece by exact Hp.
    cbn [app]. rewrite split_from_separator. f_equal. apply IH. discriminate.
Qed.

End Split_facts.

Lemma match_query_prefix_none (s : jsstring) :
  Forall (fun c => (c =? 63)%N = false) s -> match_query_prefix s = None.
Proof.
  induction 1 as [|c s Hc Hs IH]; [reflexivity|].
  cbn [match_query_prefix].
  rewrite Hc. destruct (is_line_terminator c); [reflexivity | exact IH].
Qed.

(** A string without "?" is used as it is. *)
Lemma replace_query_prefix_none (s : jsstring) :
  Forall (fun c => (c =? 63)%N = false) s -> replace_query_prefix s = s.
Proof.
  induction 1 as [|c s Hc Hs IH]; [reflexivity|].
  cbn [replace_query_prefix].
  rewrite (match_query_prefix_none (Forall_cons c Hc Hs)), IH. reflexivity.
Qed.

(** When no line terminator comes before the first "?", everything up to
    and including it goes. *)
Lemma replace_query_prefix_first (p r : jsstring) :
  Forall (fun c => (c =? 63)%N = false /\ is_line_terminator c = false) p ->
  replace_query_prefix (p ++ 63%N :: r) = r.
Proof.
  intros Hp.
  assert (H : match_query_prefix (p ++ 63%N :: r) = Some r).
  { induction Hp as [|c p [Hc Hl] Hp IH]; [reflexivity|].
    cbn [app match_query_prefix]. now rewrite Hc, Hl. }
  destruct p; cbn [app replace_query_prefix] in *; now rewrite H.
Qed.

(** ** The loops *)

Lemma retained_spec (eq group : jsstring) :
  retained eq group = true <-> exists rk rv, split group eq = [rk; rv].
Proof.
  unfold retained. split.
  - intros H. apply Nat.eqb_eq in H.
    destruct (split group eq) as [|rk [|rv [|x l]]]; try discriminate. eauto.
  - intros (rk & rv & ->). reflexivity.
Qed.

(** One turn of the loop of [parse], in full. *)
Lemma parse_group_run (eq : jsstring) (fn : ParseFunction) (obj : object)
      (group : jsstring) (log : list call) :
  parse_group eq fn obj group log =
  if retained eq group then
    match decodeURIComponent (nth 0 (split group eq) []) with
    | Throw e => (Throw e, log)
    | Normal key =>
      match decodeURIComponent (nth 1 (split group eq) []) with
      | Throw e => (Throw e, log)
      | Normal value =>
        (Normal (store obj key (fn key value)), log ++ [(key, VString value)])
      end
    end
  else (Normal obj, log).
Proof.
  unfold parse_group, retained.
  destruct (Nat.eqb (List.length (split group eq)) 2); [|reflexivity].
  cbn [negb]. unfold mbind, lift, invoke, ret.
  destruct (decodeURIComponent (nth 0 (split group eq) [])); [|reflexivity].
  destruct (decodeURIComponent (nth 1 (split group eq) [])); reflexivity.
Qed.

Lemma for_of_cons {A St} (x : A) (rest : list A) (body : St -> A -> M St) (s : St)
      (log : list call) :
  for_of (x :: rest) body s log =
  match body s x log with
  | (Normal s', log') => for_of rest body s' log'
  | (Throw e, log') => (Throw e, log')
  end.
Proof. reflexivity. Qed.

(** The loop of [parse], in full: it throws when some retained group does
    not decode; otherwise it stores the transformed value of every decoded
    pair, in order; the log gains one invocation per decoded pair. *)
Lemma parse_loop_run (eq : jsstring) (fn : ParseFunction) (groups : list jsstring)
      (obj : object) (log : list call) :
  for_of groups (parse_group eq fn) obj log =
  (if existsb (undecodable eq) groups
   then Throw URIError
   else Normal (fold_left (store_pair fn) (decoded_pairs eq groups) obj),
   log ++ map logged (decoded_pairs eq groups)).
Proof.
  revert obj log. induction groups as [|g rest IH]; intros obj log.
  - cbn. now rewrite app_nil_r.
  - rewrite for_of_cons, parse_group_run.
    cbn [existsb decoded_pairs]. unfold undecodable at 1.
    destruct (retained eq g); cbn [andb orb].
    + destruct (decodeURIComponent (nth 0 (split g eq) [])) as [key|[]];
        [|cbn; now rewrite app_nil_r].
      destruct (decodeURIComponent (nth 1 (split g eq) [])) as [value|[]];
        [|cbn; now rewrite app_nil_r].
      rewrite IH. cbn [orb map fold_left]. rewrite <- app_assoc. reflexivity.
    + apply IH.
Qed.

Lemma parse_string (c : code_unit) (s : jsstring) (sep eq : option jsstring)
      (fn : option ParseFunction) :
  run (parse (AValue (VString (c :: s))) sep eq fn) =
  run (for_of (groups_of (c :: s) sep) (parse_group (eq_of eq) (parse_fn_of fn)) empty_object).
Proof. destruct fn; reflexivity. Qed.

Lemma join_pair (eq a b : jsstring) : join eq [a; b] = a ++ eq ++ b.
Proof. reflexivity. Qed.

Lemma stringify_value_run (eq : jsstring) (fn : StringifyFunction) (key _key : jsstring)
      (qs : list jsstring) (val : value) (log : list call) :
  stringify_value eq fn key _key qs val log =
  (fmap (fun encoded => qs ++ [_key ++ eq ++ encoded]) (encodeURIComponent (fn key val)),
   log ++ [(key, val)]).
Proof.
  unfold stringify_value, mbind, invoke, lift, ret.
  destruct (encodeURIComponent (fn key val)); reflexivity.
Qed.

Lemma pair_of_encoded (eq : jsstring) (fn : StringifyFunction) (key _key : jsstring)
      (v : value) :
  encodeURIComponent (VString key) = Normal _key ->
  pair_of eq fn (key, v) =
  fmap (fun encoded => _key ++ eq ++ encoded) (encodeURIComponent (fn key v)).
Proof. intros H. unfold pair_of. cbn [fst snd]. rewrite H. reflexivity. Qed.

(** The inner loop of [stringify] over the elements of a sequence. *)
Lemma stringify_elements_outcome (eq : jsstring) (fn : StringifyFunction)
      (key _key : jsstring) (elems : list value) (qs : list jsstring) (log : list call) :
  encodeURIComponent (VString key) = Normal _key ->
  fst (for_of elems (stringify_value eq fn key _key) qs log) =
  fmap (app qs) (sequence (map (fun e => pair_of eq fn (key, e)) elems)).
Proof.
  intros Hk. revert qs log. induction elems as [|e elems IH]; intros qs log.
  - cbn. now rewrite app_nil_r.
  - rewrite for_of_cons, stringify_value_run. cbn [map sequence].
    rewrite pair_of_encoded with (_key := _key) by exact Hk.
    destruct (encodeURIComponent (fn key e)) as [enc|err]; cbn [fmap bind]; [|reflexivity].
    rewrite IH. destruct (sequence (map (fun e0 => pair_of eq fn (key, e0)) elems));
      cbn [fmap bind]; [|reflexivity].
    now rewrite <- app_assoc.
Qed.


(** One turn of the loop of [stringify] emits the pairs of its entry. *)
Lemma stringify_key_outcome (eq : jsstring) (fn : StringifyFunction)
      (qs : list jsstring) (entry : jsstring * value) (log : list call) :
  fst (stringify_key eq fn qs entry log) = fmap (app qs) (pairs_of_entry eq fn entry).
Proof.
  destruct entry as [key value]. unfold stringify_key, pairs_of_entry, mbind, lift.
  cbn [fst snd].
  destruct (encodeURIComponent (VString key)) as [_key|err] eqn:Hk; [|reflexivity].
  cbn [bind].
  assert (Hone : forall v,
    fst (stringify_value eq fn key _key qs v log) =
    fmap (app qs) (sequence [pair_of eq fn (key, v)])).
  { intros v. rewrite stringify_value_run. cbn [fst sequence].
    rewrite pair_of_encoded with (_key := _key) by exact Hk.
    destruct (encodeURIComponent (fn key v)); reflexivity. }
  destruct value; cbn [is_undefined]; try apply Hone.
  - cbn. now rewrite app_nil_r.
  - now apply stringify_elements_outcome.
Qed.


Lemma occurrences_cons (entry : jsstring * value) (props : list (jsstring * value)) :
  occurrences (entry :: props) = occurrences [entry] ++ occurrences props.
Proof. unfold occurrences. cbn [flat_map]. now rewrite app_nil_r. Qed.

(** The loop of [stringify]: its completion is that of the emitted pairs. *)
Lemma stringify_loop_outcome (eq : jsstring) (fn : StringifyFunction)
      (props : list (jsstring * value)) (qs : list jsstring) (log : list call) :
  fst (for_of props (stringify_key eq fn) qs log) =
  fmap (app qs) (emitted_pairs eq fn props).
Proof.
  revert qs log. induction props as [|entry props IH]; intros qs log.
  - cbn. now rewrite app_nil_r.
  - rewrite for_of_cons. pose proof (stringify_key_outcome eq fn qs entry log) as H.
    destruct (stringify_key eq fn qs entry log) as [[qs1|err] log1]; cbn [fst] in H.
    + rewrite IH. unfold emitted_pairs. cbn [map sequence].
      destruct (pairs_of_entry eq fn entry) as [ps|]; [|discriminate].
      injection H as ->. cbn [bind fmap].
      destruct (sequence (map (pairs_of_entry eq fn) props)); cbn [bind fmap concat];
        [|reflexivity].
      now rewrite app_assoc.
    + unfold emitted_pairs. cbn [map sequence fst].
      destruct (pairs_of_entry eq fn entry); [discriminate|].
      injection H as ->. reflexivity.
Qed.


Lemma isObject_not_nullish (obj : any) : isObject obj = true -> is_nullish obj = false.
Proof. destruct obj as [[]|]; cbn; congruence. Qed.

Lemma stringify_object (obj : any) (sep eq : option jsstring) (fn : option StringifyFunction) :
  isObject obj = true ->
  run (stringify obj sep eq fn) =
  let r := for_of (entries obj) (stringify_key (eq_of eq) (stringify_fn_of fn)) [] [] in
  (fmap (join (or_default sep (js "&"))) (fst r), snd r).
Proof.
  intros Ho. unfold stringify, run. rewrite (isObject_not_nullish _ Ho), Ho. cbn [orb negb].
  unfold mbind, ret, eq_of, stringify_fn_of. cbn zeta.
  destruct fn;
    match goal with |- context [for_of ?a ?b ?c ?d] => destruct (for_of a b c d) as [[]] end;
    reflexivity.
Qed.

(** The serializer as the specification words it: the emitted pairs,
    joined with the group separator. *)
Lemma stringify_outcome (obj : any) (sep eq : option jsstring) (fn : option StringifyFunction) :
  isObject obj = true ->
  outcome (stringify obj sep eq fn) =
  fmap (join (or_default sep (js "&")))
       (emitted_pairs (eq_of eq) (stringify_fn_of fn) (entries obj)).
Proof.
  intros Ho. unfold outcome. rewrite (stringify_object _ _ _ _ Ho). cbn zeta. cbn [fst].
  rewrite stringify_loop_outcome.
  destruct (emitted_pairs (eq_of eq) (stringify_fn_of fn) (entries obj)); reflexivity.
Qed.


(** ** Objects *)

Lemma jsstring_eqb_eq (a b : jsstring) : jsstring_eqb a b = true <-> a = b.
Proof.
  revert b. induction a as [|x a IH]; intros [|y b]; cbn; try (split; congruence).
  rewrite andb_true_iff, N.eqb_eq, IH. split.
  - intros [-> ->]. reflexivity.
  - intros [= -> ->]. split; reflexivity.
Qed.

Lemma jsstring_eqb_refl (a : jsstring) : jsstring_eqb a a = true.
Proof. now apply jsstring_eqb_eq. Qed.

Lemma jsstring_eqb_neq (a b : jsstring) : jsstring_eqb a b = false <-> a <> b.
Proof.
  rewrite <- jsstring_eqb_eq. destruct (jsstring_eqb a b); split; congruence.
Qed.

Lemma assoc_get_absent (key : jsstring) (props : list (jsstring * value)) :
  ~ In key (map fst props) -> assoc_get key props = None.
Proof.
  induction props as [|[k w] props IH]; cbn; [reflexivity|]. intros H.
  replace (jsstring_eqb k key) with false by (symmetry; apply jsstring_eqb_neq; tauto).
  apply IH. tauto.
Qed.

Lemma assoc_get_last (key : jsstring) (w : value) (props : list (jsstring * value)) :
  ~ In key (map fst props) -> assoc_get key (props ++ [(key, w)]) = Some w.
Proof.
  induction props as [|[k u] props IH]; cbn; intros H.
  - now rewrite jsstring_eqb_refl.
  - replace (jsstring_eqb k key) with false by (symmetry; apply jsstring_eqb_neq; tauto).
    apply IH. tauto.
Qed.

Lemma assoc_set_last (key : jsstring) (w w' : value) (props : list (jsstring * value)) :
  ~ In key (map fst props) ->
  assoc_set key w' (props ++ [(key, w)]) = props ++ [(key, w')].
Proof.
  induction props as [|[k u] props IH]; cbn; intros H.
  - now rewrite jsstring_eqb_refl.
  - replace (jsstring_eqb k key) with false by (symmetry; apply jsstring_eqb_neq; tauto).
    f_equal. apply IH. tauto.
Qed.

Lemma not_inherited (key : jsstring) :
  inherited key = false ->
  jsstring_eqb key proto_key = false /\
  object_prototype_get (VIntrinsic ObjectPrototype) key = VUndefined.
Proof.
  unfold inherited, Get. cbn [own proto empty_object assoc_get].
  rewrite negb_false_iff. unfold object_prototype_get.
  destruct (jsstring_eqb key proto_key); [discriminate|].
  destruct (find_name key object_prototype_functions); [discriminate|]. tauto.
Qed.

(** A key read for the first time, and not inherited: the value is stored
    as it is, as a new own property. *)
Lemma store_new (m : list (jsstring * value)) (key : jsstring) (v : value) :
  ~ In key (map fst m) -> inherited key = false ->
  store (record m) key v = record (m ++ [(key, v)]).
Proof.
  intros Hk Hi. destruct (not_inherited _ Hi) as [Hp Hu].
  unfold store, Get, Put, record. cbn [own proto].
  rewrite (assoc_get_absent _ _ Hk), Hu. cbn [is_undefined negb].
  rewrite Hp. reflexivity.
Qed.

(** A key that holds a scalar: the entry becomes the sequence of the old
    value, then the new one. *)
Lemma store_second (m : list (jsstring * value)) (key : jsstring) (w v : value) :
  ~ In key (map fst m) -> is_scalar w = true ->
  store (record (m ++ [(key, w)])) key v = record (m ++ [(key, VArray [w; v])]).
Proof.
  intros Hk Hs. unfold is_scalar in Hs. apply andb_true_iff in Hs. destruct Hs as [Hu Ha].
  unfold store, Get, record. cbn [own proto].
  rewrite (assoc_get_last _ _ _ Hk), Hu, Ha. cbn [negb].
  unfold Put. cbn [own proto].
  rewrite (assoc_get_last _ _ _ Hk), (assoc_set_last _ _ _ _ Hk).
  unfold push. cbn [own proto].
  rewrite (assoc_get_last _ _ _ Hk), (assoc_set_last _ _ _ _ Hk). reflexivity.
Qed.

(** A key that holds a sequence: the new value is appended. *)
Lemma store_more (m : list (jsstring * value)) (key : jsstring) (elems : list value)
      (v : value) :
  ~ In key (map fst m) ->
  store (record (m ++ [(key, VArray elems)])) key v =
  record (m ++ [(key, VArray (elems ++ [v]))]).
Proof.
  intros Hk. unfold store, Get, record. cbn [own proto].
  rewrite (assoc_get_last _ _ _ Hk). cbn [is_undefined isArray negb].
  unfold push. cbn [own proto].
  rewrite (assoc_get_last _ _ _ Hk), (assoc_set_last _ _ _ _ Hk). reflexivity.
Qed.

(** ** The round trip *)

Lemma Forall_join (P : code_unit -> Prop) (sep : jsstring) (parts : list jsstring) :
  Forall P sep -> Forall (Forall P) parts -> Forall P (join sep parts).
Proof.
  intros Hsep. induction 1 as [|p rest Hp Hrest IH]; [constructor|].
  destruct rest as [|q rest]; [exact Hp|].
  change (join sep (p :: q :: rest)) with (p ++ sep ++ join sep (q :: rest)).
  rewrite !Forall_app. auto.
Qed.

Lemma encoded_well_formed (s : jsstring) :
  isWellFormed s = true ->
  URI.Encode s = Normal (encoded s) /\ URI.Decode (encoded s) = Normal s.
Proof.
  intros H. destruct (Decode_Encode _ H) as (e & He & Hd).
  unfold encoded. rewrite He. auto.
Qed.

Lemma encoded_no_separator (s : jsstring) :
  Forall (fun c => is_separator c = false) (encoded s).
Proof.
  unfold encoded. destruct (URI.Encode s) eqn:E; [|constructor].
  now apply Encode_no_separator with (s := s).
Qed.

Lemma encoded_free (s : jsstring) (c0 : code_unit) :
  is_separator c0 = true -> Forall (fun c => c <> c0) (encoded s).
Proof.
  intros H0. eapply Forall_impl; [|apply encoded_no_separator].
  cbn. intros c Hc ->. congruence.
Qed.

Lemma group_of_split (kv : jsstring * jsstring) :
  split (group_of kv) (js "=") = [encoded (fst kv); encoded (snd kv)].
Proof.
  change (group_of kv) with (join [61%N] [encoded (fst kv); encoded (snd kv)]).
  change (js "=") with [61%N].
  apply split_join; [discriminate|].
  repeat constructor; now apply encoded_free.
Qed.

Lemma group_of_free (kv : jsstring * jsstring) (c0 : code_unit) :
  (c0 =? 61)%N = false -> is_separator c0 = true ->
  Forall (fun c => c <> c0) (group_of kv).
Proof.
  intros Hne H0. unfold group_of. rewrite !Forall_app. repeat split.
  - now apply encoded_free.
  - constructor; [|constructor]. apply N.eqb_neq in Hne. intros E. apply Hne. now rewrite <- E.
  - now apply encoded_free.
Qed.

Lemma group_of_retained (kv : jsstring * jsstring) :
  retained (js "=") (group_of kv) = true.
Proof. unfold retained. now rewrite group_of_split. Qed.

Lemma group_of_decodable (kv : jsstring * jsstring) :
  isWellFormed (fst kv) = true -> isWellFormed (snd kv) = true ->
  undecodable (js "=") (group_of kv) = false.
Proof.
  intros Hk Hv. unfold undecodable. rewrite group_of_retained, group_of_split.
  cbn [nth andb]. unfold decodeURIComponent.
  destruct (encoded_well_formed _ Hk) as [_ ->].
  destruct (encoded_well_formed _ Hv) as [_ ->]. reflexivity.
Qed.

(** The groups written for well-formed keys and texts all decode, to these
    keys and texts. *)
Lemma decoded_pairs_groups (pairs : list (jsstring * jsstring)) :
  Forall (fun kv => isWellFormed (fst kv) = true /\ isWellFormed (snd kv) = true) pairs ->
  decoded_pairs (js "=") (map group_of pairs) = pairs /\
  existsb (undecodable (js "=")) (map group_of pairs) = false.
Proof.
  induction 1 as [|[k v] pairs [Hk Hv] Hrest [IH1 IH2]]; [split; reflexivity|].
  cbn [map decoded_pairs existsb].
  rewrite group_of_decodable, group_of_retained, group_of_split, IH1, IH2 by assumption.
  cbn [nth fst snd] in *. unfold decodeURIComponent.
  destruct (encoded_well_formed _ Hk) as [_ ->].
  destruct (encoded_well_formed _ Hv) as [_ ->]. split; reflexivity.
Qed.

Lemma groups_of_join (pairs : list (jsstring * jsstring)) :
  pairs <> [] ->
  groups_of (join (js "&") (map group_of pairs)) None = map group_of pairs.
Proof.
  intros Hne. unfold groups_of. cbn [or_default].
  rewrite replace_query_prefix_none.
  - change (js "&") with [38%N]. apply split_join.
    + destruct pairs; [congruence | discriminate].
    + apply Forall_forall. intros g Hg. apply in_map_iff in Hg.
      destruct Hg as (kv & <- & _). now apply group_of_free.
  - apply Forall_join; [repeat constructor|].
    apply Forall_forall. intros g Hg. apply in_map_iff in Hg.
    destruct Hg as (kv & <- & _).
    eapply Forall_impl; [|apply (group_of_free kv 63%N); reflexivity].
    cbn. intros c Hc. now apply N.eqb_neq.
Qed.

Lemma pair_of_string (key s : jsstring) :
  isWellFormed key = true -> isWellFormed s = true ->
  pair_of (js "=") (stringify_fn_of None) (key, VString s) = Normal (group_of (key, s)).
Proof.
  intros Hk Hs. unfold pair_of, encodeURIComponent, stringify_fn_of. cbn [fst snd ToString].
  destruct (encoded_well_formed _ Hk) as [-> _].
  destruct (encoded_well_formed _ Hs) as [-> _]. reflexivity.
Qed.

Lemma pairs_of_strings (key : jsstring) (elems : list value) :
  isWellFormed key = true ->
  forallb (fun e => match e with VString s => isWellFormed s | _ => false end) elems = true ->
  sequence (map (fun e => pair_of (js "=") (stringify_fn_of None) (key, e)) elems) =
  Normal (map (fun e => group_of (key, text_of e)) elems).
Proof.
  intros Hk. induction elems as [|e elems IH]; cbn [forallb map sequence]; [reflexivity|].
  rewrite andb_true_iff. intros [He Hall].
  destruct e; try discriminate. rewrite pair_of_string, IH by assumption. reflexivity.
Qed.

Lemma pairs_of_entry_round_trip (entry : jsstring * value) :
  round_trip_entry entry = true ->
  pairs_of_entry (js "=") (stringify_fn_of None) entry =
  Normal (map group_of (flat_pairs [entry])).
Proof.
  destruct entry as [key v]. unfold round_trip_entry, flat_pairs. cbn [fst snd flat_map].
  rewrite !andb_true_iff, app_nil_r. intros [[Hk _] Hv].
  unfold pairs_of_entry. cbn [fst snd].
  unfold encodeURIComponent at 1. cbn [ToString].
  destruct (encoded_well_formed _ Hk) as [-> _]. cbn [bind].
  destruct v; try discriminate; cbn [round_trip_value] in Hv.
  - cbn [sequence]. rewrite pair_of_string by assumption. reflexivity.
  - apply andb_true_iff in Hv. destruct Hv as [_ Hall].
    rewrite pairs_of_strings, map_map by assumption. reflexivity.
Qed.

Lemma flat_pairs_cons (entry : jsstring * value) (m : list (jsstring * value)) :
  flat_pairs (entry :: m) = flat_pairs [entry] ++ flat_pairs m.
Proof. unfold flat_pairs. cbn [flat_map]. now rewrite app_nil_r. Qed.

(** What [stringify] emits for a mapping of strings. *)
Lemma emitted_round_trip (m : list (jsstring * value)) :
  Forall (fun entry => round_trip_entry entry = true) m ->
  emitted_pairs (js "=") (stringify_fn_of None) m = Normal (map group_of (flat_pairs m)).
Proof.
  unfold emitted_pairs. induction 1 as [|entry m He Hm IH]; [reflexivity|].
  cbn [map sequence]. rewrite (pairs_of_entry_round_trip _ He). cbn [bind].
  destruct (sequence (map (pairs_of_entry (js "=") (stringify_fn_of None)) m));
    [|discriminate].
  injection IH as IH. cbn [fmap bind concat].
  rewrite IH, (flat_pairs_cons entry m), map_app. reflexivity.
Qed.

Lemma flat_pairs_well_formed (m : list (jsstring * value)) :
  Forall (fun entry => round_trip_entry entry = true) m ->
  Forall (fun kv => isWellFormed (fst kv) = true /\ isWellFormed (snd kv) = true)
         (flat_pairs m).
Proof.
  induction 1 as [|[key v] m He Hm IH]; [constructor|].
  rewrite flat_pairs_cons. apply Forall_app. split; [|exact IH].
  unfold round_trip_entry in He. cbn [fst snd] in He.
  rewrite !andb_true_iff in He. destruct He as [[Hk _] Hv].
  unfold flat_pairs. cbn [flat_map fst snd]. rewrite app_nil_r.
  destruct v; try discriminate; cbn [round_trip_value] in Hv.
  - repeat constructor; assumption.
  - apply andb_true_iff in Hv. destruct Hv as [_ Hall].
    apply Forall_forall. intros kv Hin. apply in_map_iff in Hin.
    destruct Hin as (e & <- & Hin). cbn [fst snd]. split; [exact Hk|].
    rewrite forallb_forall in Hall. specialize (Hall e Hin).
    destruct e; try discriminate. exact Hall.
Qed.

Lemma store_elements (m : list (jsstring * value)) (key : jsstring)
      (elems rest : list value) :
  ~ In key (map fst m) ->
  forallb (fun e => match e with VString s => isWellFormed s | _ => false end) rest = true ->
  fold_left (store_pair (parse_fn_of None)) (map (fun e => (key, text_of e)) rest)
            (record (m ++ [(key, VArray elems)])) =
  record (m ++ [(key, VArray (elems ++ rest))]).
Proof.
  intros Hk. revert elems. induction rest as [|e rest IH]; intros elems Hall.
  - cbn. now rewrite app_nil_r.
  - cbn [forallb] in Hall. apply andb_true_iff in Hall. destruct Hall as [He Hall].
    destruct e; try discriminate.
    cbn [map fold_left]. unfold store_pair at 2. cbn [fst snd parse_fn_of text_of].
    rewrite store_more, IH, <- app_assoc by assumption. reflexivity.
Qed.

(** Storing the pairs of a mapping of strings, one after the other, builds
    that mapping. *)
Lemma store_pairs_record (m1 m2 : list (jsstring * value)) :
  NoDup (map fst (m1 ++ m2)) ->
  Forall (fun entry => round_trip_entry entry = true) m2 ->
  fold_left (store_pair (parse_fn_of None)) (flat_pairs m2) (record m1) =
  record (m1 ++ m2).
Proof.
  intros Hnd Hall. revert m1 Hnd.
  induction Hall as [|[key v] m2 He Hm IH]; intros m1 Hnd.
  - cbn. now rewrite app_nil_r.
  - assert (Hk : ~ In key (map fst m1)).
    { rewrite map_app in Hnd. cbn [map fst] in Hnd. apply NoDup_remove_2 in Hnd.
      intros Hin. apply Hnd. apply in_or_app. now left. }
    assert (Hnd' : NoDup (map fst ((m1 ++ [(key, v)]) ++ m2))).
    { now rewrite <- app_assoc. }
    rewrite flat_pairs_cons, fold_left_app.
    replace (m1 ++ (key, v) :: m2) with ((m1 ++ [(key, v)]) ++ m2)
      by now rewrite <- app_assoc.
    rewrite <- (IH _ Hnd'). f_equal.
    unfold round_trip_entry in He. cbn [fst snd] in He.
    rewrite !andb_true_iff, negb_true_iff in He. destruct He as [[_ Hi] Hv].
    unfold flat_pairs. cbn [flat_map fst snd]. rewrite app_nil_r.
    destruct v; try discriminate; cbn [round_trip_value] in Hv.
    + cbn [fold_left]. unfold store_pair. cbn [fst snd parse_fn_of text_of].
      now apply store_new.
    + apply andb_true_iff in Hv. destruct Hv as [Hlen Hall].
      destruct elems as [|e1 [|e2 rest]]; try discriminate.
      cbn [forallb] in Hall. rewrite !andb_true_iff in Hall.
      destruct Hall as (H1 & H2 & Hall).
      destruct e1; try discriminate. destruct e2; try discriminate.
      cbn [map fold_left]. unfold store_pair at 2 3. cbn [fst snd parse_fn_of text_of].
      rewrite store_new, store_second by (assumption || reflexivity).
      rewrite store_elements by assumption. reflexivity.
Qed.

Lemma join_nonempty (sep p : jsstring) (rest : list jsstring) :
  p <> [] -> join sep (p :: rest) <> [].
Proof.
  intros Hp. destruct rest; cbn [join]; [exact Hp|].
  intros H. apply app_eq_nil in H. tauto.
Qed.

Lemma group_of_nonempty (kv : jsstring * jsstring) : group_of kv <> [].
Proof.
  unfold group_of. intros H. apply app_eq_nil in H. destruct H as [_ H]. discriminate.
Qed.

Lemma parse_stringify_strings (m : list (jsstring * value)) :
  NoDup (map fst m) ->
  Forall (fun entry => round_trip_entry entry = true) m ->
  exists s,
    outcome (stringify (AObject m) None None None) = Normal s /\
    outcome (parse (AValue (VString s)) None None None) = Normal (record m).
Proof.
  intros Hnd Hall. exists (join (js "&") (map group_of (flat_pairs m))). split.
  - rewrite stringify_outcome by reflexivity. cbn [entries].
    change (eq_of None) with (js "="). now rewrite emitted_round_trip.
  - destruct (flat_pairs m) as [|kv pairs] eqn:Hfp.
    + destruct m as [|[key v] m]; [reflexivity|]. exfalso.
      apply Forall_inv in Hall. unfold round_trip_entry in Hall. cbn [fst snd] in Hall.
      rewrite !andb_true_iff in Hall. destruct Hall as [_ Hv].
      rewrite flat_pairs_cons in Hfp. apply app_eq_nil in Hfp. destruct Hfp as [Hfp _].
      unfold flat_pairs in Hfp. cbn [flat_map snd fst] in Hfp. rewrite app_nil_r in Hfp.
      destruct v; try discriminate. cbn [round_trip_value] in Hv.
      destruct elems as [|e1 [|e2 rest]]; discriminate.
    + pose proof (flat_pairs_well_formed Hall) as Hwf. rewrite Hfp in Hwf.
      destruct (decoded_pairs_groups Hwf) as [Hdec Hok].
      assert (Hg : groups_of (join (js "&") (map group_of (kv :: pairs))) None
                   = map group_of (kv :: pairs)) by (apply groups_of_join; discriminate).
      destruct (join (js "&") (map group_of (kv :: pairs))) as [|c s] eqn:Hs.
      { exfalso. revert Hs. cbn [map]. apply join_nonempty, group_of_nonempty. }
      unfold outcome. rewrite parse_string. unfold run.
      change (eq_of None) with (js "=").
      rewrite parse_loop_run, Hg, Hdec, Hok. cbn [fst].
      rewrite <- Hfp. f_equal.
      change empty_object with (record []).
      now rewrite store_pairs_record.
Qed.

Lemma same_mapping_record (m : list (jsstring * value)) : same_mapping (record m) m.
Proof. split; reflexivity. Qed.

(** C1 (amended). For every mapping whose keys are distinct, well-formed
    and not inherited from the object prototype, and whose values are
    well-formed strings or sequences of at least two well-formed strings,
    stringify succeeds and parse of its result is the mapping itself: the
    same keys in the same order, sequences kept as sequences. *)
Theorem round_trip_strings (m : list (jsstring * value)) :
  NoDup (map fst m) ->
  Forall (fun entry => round_trip_entry entry = true) m ->
  round_trip m /\
  exists s,
    outcome (stringify (AObject m) None None None) = Normal s /\
    outcome (parse (AValue (VString s)) None None None) = Normal (record m).
Proof.
  intros Hnd Hall.
  destruct (parse_stringify_strings Hnd Hall) as (s & Hs & Hp). split.
  - exists s, (record m). auto using same_mapping_record.
  - exists s. auto.
Qed.

Lemma round_trip_strings_witness :
  round_trip [(js "a", str "1"); (js "b", VArray [str "s"; str "s2"])].
Proof.
  apply (@round_trip_strings [(js "a", str "1"); (js "b", VArray [str "s"; str "s2"])]).
  - repeat constructor; cbn; intuition discriminate.
  - repeat constructor.
Defined.

(** C1 as stated fails on a sequence of one string: it comes back as a
    scalar. *)
Lemma round_trip_single_element_fails :
  string_or_strings (VArray [str "x"]) = true /\
  existsb is_separator (js "a" ++ js "x") = false /\
  ~ round_trip [(js "a", VArray [str "x"])].
Proof.
  split; [reflexivity|]. split; [reflexivity|].
  intros (s & o & Hs & Hp & _ & Hsame).
  vm_compute in Hs. injection Hs as <-.
  vm_compute in Hp. injection Hp as <-.
  specialize (Hsame (js "a")). vm_compute in Hsame. discriminate.
Qed.

(** ** Errors of the parser *)

Lemma undecodable_spec (eq group : jsstring) :
  undecodable eq group = true <->
  exists rk rv e,
    split group eq = [rk; rv] /\
    (decodeURIComponent rk = Throw e \/ decodeURIComponent rv = Throw e).
Proof.
  unfold undecodable. rewrite andb_true_iff, retained_spec. split.
  - intros [(rk & rv & Hs) H]. rewrite Hs in H. cbn [nth] in H.
    destruct (decodeURIComponent rk) as [k|e] eqn:Ek; [|exists rk, rv, e; auto].
    destruct (decodeURIComponent rv) as [v|e] eqn:Ev; [discriminate|].
    exists rk, rv, e. auto.
  - intros (rk & rv & e & Hs & H). split; [eauto|]. rewrite Hs. cbn [nth].
    destruct H as [-> | ->]; [reflexivity|].
    destruct (decodeURIComponent rk); reflexivity.
Qed.

Lemma parse_not_string (a : any) (sep eq : option jsstring) (fn : option ParseFunction) :
  nonempty_string a = false -> run (parse a sep eq fn) = (Normal empty_object, []).
Proof. destruct a as [[| | | |[|c s]| |]|]; intros H; (reflexivity || discriminate). Qed.

Lemma or_default_nonempty (sep : option jsstring) (d : jsstring) :
  d <> [] -> or_default sep d <> [].
Proof. destruct sep as [[|c s]|]; cbn; congruence. Qed.

Lemma split_empty (sep : jsstring) : sep <> [] -> split [] sep = [[]].
Proof. destruct sep; [congruence | reflexivity]. Qed.

(** [parse] on any string: the loop over the groups, also for the empty
    string, whose only group is not retained. *)
Lemma parse_run (s : jsstring) (sep eq : option jsstring) (fn : option ParseFunction) :
  run (parse (AValue (VString s)) sep eq fn) =
  (if existsb (undecodable (eq_of eq)) (groups_of s sep)
   then Throw URIError
   else Normal (fold_left (store_pair (parse_fn_of fn))
                          (decoded_pairs (eq_of eq) (groups_of s sep)) empty_object),
   map logged (decoded_pairs (eq_of eq) (groups_of s sep))).
Proof.
  destruct s as [|c s].
  - unfold groups_of. cbn [replace_query_prefix match_query_prefix].
    rewrite split_empty by (apply or_default_nonempty; discriminate).
    cbn [existsb decoded_pairs]. unfold undecodable, retained, eq_of.
    rewrite split_empty by (apply or_default_nonempty; discriminate). reflexivity.
  - rewrite parse_string. unfold run. now rewrite parse_loop_run.
Qed.


(** C5. parse raises exactly when the key or the value of some retained
    group does not percent-decode, and it raises the error of the decode
    primitive; a source that is empty, absent or not a string gives the
    empty mapping, without error and without calling the callback. *)
Theorem parse_raises_iff_decode_fails (s : jsstring) (sep eq : option jsstring)
        (fn : option ParseFunction) (e : error) :
  (outcome (parse (AValue (VString s)) sep eq fn) = Throw e <->
   exists group rk rv,
     In group (groups_of s sep) /\ split group (eq_of eq) = [rk; rv] /\
     (decodeURIComponent rk = Throw e \/ decodeURIComponent rv = Throw e)) /\
  (forall a : any,
     nonempty_string a = false ->
     run (parse a sep eq fn) = (Normal empty_object, [])).
Proof.
  split; [|intros a; apply parse_not_string].
  unfold outcome. rewrite parse_run. cbn [fst]. split.
  - destruct (existsb (undecodable (eq_of eq)) (groups_of s sep)) eqn:E; [|discriminate].
    intros _. apply existsb_exists in E. destruct E as (g & Hin & Hg).
    apply undecodable_spec in Hg. destruct Hg as (rk & rv & e' & Hs & H).
    destruct e, e'. exists g, rk, rv. auto.
  - intros (g & rk & rv & Hin & Hs & H).
    replace (existsb (undecodable (eq_of eq)) (groups_of s sep)) with true.
    + now destruct e.
    + symmetry. apply existsb_exists. exists g. split; [exact Hin|].
      apply undecodable_spec. exists rk, rv, e. auto.
Qed.

Lemma parse_raises_iff_decode_fails_witness :
  outcome (parse (AValue (str "a=1&b=%E0%A4%A")) None None None) = Throw URIError /\
  run (parse (AValue VNull) None None None) = (Normal empty_object, []).
Proof.
  split.
  - apply (proj1 (parse_raises_iff_decode_fails (js "a=1&b=%E0%A4%A") None None None
                                                 URIError)).
    exists (js "b=%E0%A4%A"), (js "b"), (js "%E0%A4%A").
    split; [cbn; tauto|]. split; [reflexivity|]. right. reflexivity.
  - apply (parse_raises_iff_decode_fails [] None None None URIError). reflexivity.
Defined.

(** ** The defects of the presence test and of the prefix pattern *)

(** C2. The insertion step reads [obj[key]] through the prototype chain.
    For repeated ordinary keys it does what the specification says; an inherited
    key such as [toString], seen once, is not stored as a scalar: the
    inherited function and the value become a sequence. A value for which
    the callback gave undefined is overwritten by the next one. *)
Theorem parse_presence_test_inherited_key :
  outcome (parse (AValue (str "a=1&a=2&a=3")) None None None) =
    Normal (record [(js "a", VArray [str "1"; str "2"; str "3"])]) /\
  outcome (parse (AValue (str "toString=1")) None None None) =
    Normal (record [(js "toString",
                     VArray [VIntrinsic (ObjectPrototypeMember "toString"); str "1"])]) /\
  outcome (parse (AValue (str "c=x&c=on")) None None
                 (Some (fun _ value =>
                          if jsstring_eqb value (js "on") then VBoolean true
                          else VUndefined))) =
    Normal (record [(js "c", VBoolean true)]).
Proof. repeat split; reflexivity. Qed.

(** C6. The pattern is [.*?\?], and "." does not match a line terminator:
    with a line feed before the first "?" the match starts after the line
    feed, so the text before it stays and becomes part of the first key. *)
Theorem replace_query_prefix_line_terminator :
  replace_query_prefix (js "x" ++ [10%N] ++ js "y?a=1") = js "x" ++ [10%N] ++ js "a=1" /\
  outcome (parse (AValue (VString (js "x" ++ [10%N] ++ js "y?a=1"))) None None None) =
    Normal (record [(js "x" ++ [10%N] ++ js "a", str "1")]) /\
  outcome (parse (AValue (str "http://foo.com?a=1&b=s")) None None None) =
    Normal (record [(js "a", str "1"); (js "b", str "s")]).
Proof. repeat split; reflexivity. Qed.

(** ** The emitted pairs *)

Lemma sequence_app {A} (l1 l2 : list (completion A)) :
  sequence (l1 ++ l2) = bind (sequence l1) (fun a => fmap (app a) (sequence l2)).
Proof.
  induction l1 as [|m l1 IH]; cbn [app sequence bind].
  - destruct (sequence l2); reflexivity.
  - destruct m as [a|e]; cbn [bind]; [|reflexivity]. rewrite IH.
    destruct (sequence l1); cbn [bind fmap]; [|reflexivity].
    destruct (sequence l2); reflexivity.
Qed.

Lemma sequence_normal_iff {A} (l : list (completion A)) :
  (exists qs, sequence l = Normal qs) <-> Forall (fun m => exists q, m = Normal q) l.
Proof.
  induction l as [|m l IH]; cbn [sequence].
  - split; [constructor | eauto].
  - split.
    + intros [qs H]. destruct m as [a|e]; [|discriminate]. cbn [bind] in H.
      destruct (sequence l) as [qs'|e]; [|discriminate].
      constructor; [eauto | apply IH; eauto].
    + intros H. inversion H as [|? ? [q ->] Hl]; subst.
      apply IH in Hl. destruct Hl as [qs ->]. cbn. eauto.
Qed.

Lemma emitted_pairs_cons (eq : jsstring) (fn : StringifyFunction)
      (entry : jsstring * value) (props : list (jsstring * value)) :
  emitted_pairs eq fn (entry :: props) =
  bind (pairs_of_entry eq fn entry) (fun ps => fmap (app ps) (emitted_pairs eq fn props)).
Proof.
  unfold emitted_pairs. cbn [map sequence].
  destruct (pairs_of_entry eq fn entry); cbn [bind fmap]; [|reflexivity].
  destruct (sequence (map (pairs_of_entry eq fn) props)); reflexivity.
Qed.

(** The pairs of a key are the pairs of its occurrences, once the key encodes. *)
Lemma pairs_of_entry_occurrences (eq : jsstring) (fn : StringifyFunction)
      (entry : jsstring * value) :
  pairs_of_entry eq fn entry =
  bind (encodeURIComponent (VString (fst entry)))
       (fun _ => sequence (map (pair_of eq fn) (occurrences [entry]))).
Proof.
  destruct entry as [key v]. unfold pairs_of_entry, occurrences.
  cbn [fst snd flat_map]. rewrite app_nil_r.
  destruct (encodeURIComponent (VString key)); [|reflexivity]. cbn [bind].
  destruct v; try reflexivity. now rewrite map_map.
Qed.

Lemma emitted_pairs_occurrences (eq : jsstring) (fn : StringifyFunction)
      (props : list (jsstring * value)) (qs : list jsstring) :
  emitted_pairs eq fn props = Normal qs ->
  sequence (map (pair_of eq fn) (occurrences props)) = Normal qs.
Proof.
  revert qs. induction props as [|entry props IH]; intros qs H.
  - exact H.
  - rewrite emitted_pairs_cons, pairs_of_entry_occurrences in H.
    destruct (encodeURIComponent (VString (fst entry))); [|discriminate]. cbn [bind] in H.
    rewrite occurrences_cons, map_app, sequence_app.
    destruct (sequence (map (pair_of eq fn) (occurrences [entry]))); [|discriminate].
    cbn [bind] in *. destruct (emitted_pairs eq fn props); [|discriminate].
    now rewrite (IH _ eq_refl).
Qed.

Lemma pair_of_normal_iff (eq : jsstring) (fn : StringifyFunction) (occ : call) :
  (exists q, pair_of eq fn occ = Normal q) <->
  encodes (VString (fst occ)) = true /\ encodes (fn (fst occ) (snd occ)) = true.
Proof.
  unfold pair_of, encodes.
  destruct (encodeURIComponent (VString (fst occ))); cbn [bind].
  - destruct (encodeURIComponent (fn (fst occ) (snd occ))); cbn [bind].
    + split; eauto.
    + split; [intros [q H]; discriminate | intros [_ H]; discriminate].
  - split; [intros [q H]; discriminate | intros [H _]; discriminate].
Qed.

Lemma occurrences_key (entry : jsstring * value) (occ : call) :
  In occ (occurrences [entry]) -> fst occ = fst entry.
Proof.
  destruct entry as [key v]. unfold occurrences. cbn [flat_map]. rewrite app_nil_r.
  destruct v; cbn; try tauto; try (intros [<- | []]; reflexivity).
  intros H. apply in_map_iff in H. destruct H as (e & <- & _). reflexivity.
Qed.

Lemma pairs_of_entry_normal_iff (eq : jsstring) (fn : StringifyFunction)
      (entry : jsstring * value) :
  (exists ps, pairs_of_entry eq fn entry = Normal ps) <->
  encodes (VString (fst entry)) = true /\
  Forall (fun occ => encodes (fn (fst occ) (snd occ)) = true) (occurrences [entry]).
Proof.
  rewrite pairs_of_entry_occurrences. unfold encodes at 1.
  destruct (encodeURIComponent (VString (fst entry))) as [_key|e] eqn:Hk; cbn [bind].
  - rewrite sequence_normal_iff, Forall_map. split.
    + intros H. split; [reflexivity|]. eapply Forall_impl; [|exact H].
      cbn. intros occ Hocc. now apply pair_of_normal_iff in Hocc.
    + intros [_ H]. rewrite Forall_forall in *. intros occ Hin.
      apply pair_of_normal_iff. split; [|now apply H].
      unfold encodes. now rewrite (occurrences_key _ _ Hin), Hk.
  - split; [intros [ps H]; discriminate | intros [H _]; discriminate].
Qed.

(** The pairs are all emitted exactly when every key and every transformed
    value encodes. *)
Lemma emitted_pairs_normal_iff (eq : jsstring) (fn : StringifyFunction)
      (props : list (jsstring * value)) :
  (exists qs, emitted_pairs eq fn props = Normal qs) <->
  Forall (fun entry => encodes (VString (fst entry)) = true) props /\
  Forall (fun occ => encodes (fn (fst occ) (snd occ)) = true) (occurrences props).
Proof.
  induction props as [|entry props IH].
  - split; [intros _; split; constructor | intros _; eexists; reflexivity].
  - rewrite emitted_pairs_cons, (occurrences_cons entry props), Forall_app. split.
    + intros [qs H].
      destruct (pairs_of_entry eq fn entry) as [ps|] eqn:He; [|discriminate].
      cbn [bind] in H. destruct (emitted_pairs eq fn props) as [qs'|]; [|discriminate].
      destruct (proj1 (pairs_of_entry_normal_iff eq fn entry)) as [Hk Ho]; [eauto|].
      destruct (proj1 IH) as [Hks Hos]; [eauto|]. auto.
    + intros [Hks [Ho Hos]]. inversion Hks as [|? ? Hk Hks']; subst.
      destruct (proj2 (pairs_of_entry_normal_iff eq fn entry)) as [ps ->]; [auto|].
      destruct (proj2 IH) as [qs ->]; [auto|]. cbn. eauto.
Qed.

Lemma sequence_normal_In {A} (l : list (completion A)) (qs : list A) :
  sequence l = Normal qs ->
  (forall q, In q qs -> In (Normal q) l) /\ (forall q, In (Normal q) l -> In q qs).
Proof.
  revert qs. induction l as [|m l IH]; intros qs H; cbn [sequence] in H.
  - injection H as <-. split; intros q []. 
  - destruct m as [a|e]; [|discriminate]. cbn [bind] in H.
    destruct (sequence l) as [qs'|e]; [|discriminate]. injection H as <-.
    destruct (IH _ eq_refl) as [IH1 IH2]. split; intros q [Hq|Hq].
    + left. now subst.
    + right. now apply IH1.
    + left. congruence.
    + right. now apply IH2.
Qed.

Lemma join_last (sep q : jsstring) (init : list jsstring) :
  exists pre, join sep (init ++ [q]) = pre ++ q.
Proof.
  induction init as [|x init [pre IH]]; [now exists []|].
  destruct init as [|y init].
  - exists (x ++ sep). cbn. now rewrite <- app_assoc.
  - exists (x ++ sep ++ pre).
    change (join sep ((x :: y :: init) ++ [q]))
      with (x ++ sep ++ join sep ((y :: init) ++ [q])).
    now rewrite IH, <- !app_assoc.
Qed.

Lemma starts_with_other (c0 : code_unit) (q post : jsstring) :
  q <> [] -> Forall (fun c => c <> c0) q -> starts_with [c0] (q ++ post) = false.
Proof.
  intros Hne Hq. destruct q as [|c q]; [congruence|].
  apply Forall_inv in Hq. cbn [app starts_with].
  replace (c0 =? c)%N with false by (symmetry; apply N.eqb_neq; congruence).
  reflexivity.
Qed.

(** Joined pieces that are not empty and hold no separator neither begin
    nor end with the separator. *)
Lemma join_no_outer_separator (c0 : code_unit) (qs : list jsstring) :
  Forall (fun q => q <> [] /\ Forall (fun c => c <> c0) q) qs ->
  starts_with [c0] (join [c0] qs) = false /\
  starts_with [c0] (rev (join [c0] qs)) = false.
Proof.
  intros Hqs. destruct qs as [|q0 rest]; [split; reflexivity|]. split.
  - apply Forall_inv in Hqs. destruct Hqs as [Hne Hq].
    destruct rest as [|q1 rest].
    + cbn [join]. rewrite <- (app_nil_r q0). now apply starts_with_other.
    + change (join [c0] (q0 :: q1 :: rest)) with (q0 ++ [c0] ++ join [c0] (q1 :: rest)).
      now apply starts_with_other.
  - destruct (@exists_last _ (q0 :: rest)) as (init & q & Heq); [discriminate|].
    rewrite Heq in *. apply Forall_app in Hqs. destruct Hqs as [_ Hq].
    apply Forall_inv in Hq. destruct Hq as [Hne Hq].
    destruct (join_last [c0] q init) as [pre ->]. rewrite rev_app_distr.
    apply starts_with_other.
    + intros H. apply Hne. rewrite <- (rev_involutive q), H. reflexivity.
    + now apply Forall_rev.
Qed.

Lemma pair_of_shape (eq : jsstring) (fn : StringifyFunction) (occ : call) (q : jsstring) :
  pair_of eq fn occ = Normal q ->
  exists _key encoded,
    encodeURIComponent (VString (fst occ)) = Normal _key /\
    encodeURIComponent (fn (fst occ) (snd occ)) = Normal encoded /\
    q = _key ++ eq ++ encoded.
Proof.
  unfold pair_of.
  destruct (encodeURIComponent (VString (fst occ))) as [_key|]; [|discriminate].
  destruct (encodeURIComponent (fn (fst occ) (snd occ))) as [encoded|]; [|discriminate].
  cbn. intros [= <-]. eauto.
Qed.

Lemma emitted_pairs_default_shape (fn : StringifyFunction)
      (props : list (jsstring * value)) (qs : list jsstring) :
  emitted_pairs (js "=") fn props = Normal qs ->
  Forall (fun q => q <> [] /\ Forall (fun c => c <> 38%N) q) qs.
Proof.
  intros H. apply emitted_pairs_occurrences in H.
  apply sequence_normal_In in H. destruct H as [H _].
  apply Forall_forall. intros q Hq. apply H, in_map_iff in Hq.
  destruct Hq as (occ & Hocc & _). apply pair_of_shape in Hocc.
  destruct Hocc as (_key & encoded & Hk & He & ->). split.
  - intros E. apply app_eq_nil in E. destruct E as [_ E]. discriminate.
  - unfold encodeURIComponent in Hk, He.
    apply Encode_no_separator in Hk, He.
    rewrite !Forall_app. repeat split.
    + eapply Forall_impl; [|exact Hk]. cbn. intros c Hc ->. discriminate.
    + repeat constructor. discriminate.
    + eapply Forall_impl; [|exact He]. cbn. intros c Hc ->. discriminate.
Qed.

(** ** The text of a number *)

Section Number_text.
Open Scope Z_scope.

(** An integer below 2^53 is its own Number value. *)
Lemma number_value_exact (v : Z) : 0 <= v < 2 ^ 53 -> number_value v = v.
Proof.
  intros Hv. unfold number_value.
  assert (H : Z.log2 v + 1 <= 53).
  { destruct (Z.eq_dec v 0) as [-> | Hne]; [cbn; lia|].
    assert (Z.log2 v < 53) by (apply Z.log2_lt_pow2; lia). lia. }
  apply Z.leb_le in H. now rewrite H.
Qed.

(** Rounding does not go below 2^53. *)
Lemma number_value_large (v : Z) : 2 ^ 53 <= v -> 2 ^ 53 <= number_value v.
Proof.
  intros Hv. unfold number_value.
  assert (Hl : 53 <= Z.log2 v) by (apply Z.log2_le_pow2; lia).
  destruct (Z.log2 v + 1 <=? 53) eqn:E; [apply Z.leb_le in E; lia|].
  set (shift := Z.log2 v + 1 - 53).
  assert (Hs : 1 <= shift) by (unfold shift; lia).
  assert (Hq : 2 ^ 52 <= Z.shiftr v shift).
  { rewrite Z.shiftr_div_pow2 by lia.
    apply Z.div_le_lower_bound; [apply Z.pow_pos_nonneg; lia|].
    rewrite <- Z.pow_add_r by lia.
    replace (shift + 52) with (Z.log2 v) by (unfold shift; lia).
    apply Z.log2_spec. lia. }
  rewrite Z.shiftl_mul_pow2 by lia.
  assert (Hp : 2 ^ 1 <= 2 ^ shift) by (apply Z.pow_le_mono_r; lia).
  change (2 ^ 1) with 2 in Hp. change (2 ^ 53) with (2 ^ 52 * 2).
  destruct ((Z.shiftl 1 (shift - 1) <? Z.land v (Z.ones shift))
            || ((Z.land v (Z.ones shift) =? Z.shiftl 1 (shift - 1))
                && Z.odd (Z.shiftr v shift))); nia.
Qed.

(** The shortest digits of an integer below 2^53 are its own. *)
Lemma shortest_decimal_exact (fuel k digits : nat) (x : Z) :
  0 <= x < 2 ^ 53 -> shortest_decimal fuel k digits x = x.
Proof.
  intros Hx. revert k. induction fuel as [|fuel IH]; intros k; [reflexivity|].
  cbn [shortest_decimal]. destruct (Nat.ltb digits k); [reflexivity|].
  set (p := 10 ^ Z.of_nat (digits - k)).
  assert (Hp : 0 < p) by (apply Z.pow_pos_nonneg; lia).
  pose proof (Z.mul_div_le x p Hp) as Hlo.
  pose proof (Z.mul_succ_div_gt x p Hp) as Hhi.
  assert (H0 : 0 <= x / p) by (apply Z.div_pos; lia).
  replace (x / p * p) with (p * (x / p)) by lia.
  replace ((x / p + 1) * p) with (p * Z.succ (x / p)) by lia.
  assert (Ha : (number_value (p * Z.succ (x / p)) =? x) = false).
  { apply Z.eqb_neq.
    destruct (Z_lt_le_dec (p * Z.succ (x / p)) (2 ^ 53)) as [Hlt | Hge].
    - rewrite number_value_exact by nia. lia.
    - pose proof (number_value_large Hge). lia. }
  rewrite Ha. rewrite number_value_exact by nia.
  destruct (p * (x / p) =? x) eqn:Eb; [now apply Z.eqb_eq in Eb | apply IH].
Qed.

Lemma decimal_negative (n : Z) : n < 0 -> decimal n = 45%N :: decimal (- n).
Proof. destruct n as [|p|p]; try lia. intros _. reflexivity. Qed.

(** The text of an integer of magnitude below 2^53 is its decimal digits. *)
Lemma Number_toString_exact (n : Z) :
  - 2 ^ 53 < n < 2 ^ 53 -> ToString (VNumber n) = decimal n.
Proof.
  intros Hn. cbn [ToString]. unfold Number_toString.
  assert (Ha : 0 <= Z.abs n < 2 ^ 53) by lia.
  rewrite (number_value_exact Ha), (shortest_decimal_exact _ _ _ Ha).
  assert (Hl : (1024 <=? Z.log2 (Z.abs n)) = false).
  { apply Z.leb_gt. destruct (Z.eq_dec (Z.abs n) 0) as [-> | Hne]; [cbn; lia|].
    assert (Z.log2 (Z.abs n) < 53) by (apply Z.log2_lt_pow2; lia). lia. }
  rewrite Hl.
  assert (Hv : (Z.abs n <? 10 ^ 21) = true) by (apply Z.ltb_lt; lia).
  rewrite Hv. destruct (n <? 0) eqn:Es.
  - apply Z.ltb_lt in Es. rewrite (decimal_negative Es).
    now replace (Z.abs n) with (- n) by lia.
  - apply Z.ltb_ge in Es. now replace (Z.abs n) with n by lia.
Qed.

End Number_text.

(** C9. For an object-like mapping the serializer returns the pairs the
    specification describes, in the order of the keys and, for a sequence,
    of its elements, joined with the group separator: no pair for an
    undefined value, one pair per element of a sequence, one pair for any
    other value, whose text is its canonical form: "true" and "false", the
    decimal digits of an integer of magnitude below 2^53, the shortest
    digits that give the same Number beyond. With the default separators
    the result neither begins nor ends with the separator. *)
Theorem stringify_joins_emitted_pairs (obj : any) (sep eq : option jsstring)
        (fn : option StringifyFunction) :
  isObject obj = true ->
  outcome (stringify obj sep eq fn) =
    fmap (join (or_default sep (js "&")))
         (emitted_pairs (eq_of eq) (stringify_fn_of fn) (entries obj)) /\
  (forall s, outcome (stringify obj None None fn) = Normal s ->
             starts_with (js "&") s = false /\ starts_with (js "&") (rev s) = false) /\
  ToString (VBoolean false) = js "false" /\
  ToString (VBoolean true) = js "true" /\
  (forall n, (- 2 ^ 53 < n < 2 ^ 53)%Z -> ToString (VNumber n) = decimal n) /\
  ToString (VNumber 12) = js "12" /\
  ToString (VNumber (-7)) = js "-7" /\
  ToString (VNumber (2 ^ 60)) = js "1152921504606847000" /\
  ToString (VNumber (10 ^ 21)) = js "1e+21" /\
  ToString (VNumber (2 ^ 70)) = js "1.1805916207174113e+21" /\
  outcome (stringify (AObject [(js "a", str "1"); (js "b", VArray [str "s"; str "s2"]);
                               (js "c", VBoolean false); (js "d", VUndefined);
                               (js "n", VNumber 12); (js "m", VNumber (10 ^ 21))])
                     None None None) =
    Normal (js "a=1&b=s&b=s2&c=false&n=12&m=1e%2B21").
Proof.
  intros Ho. split; [now apply stringify_outcome|].
  split; [|split; [reflexivity|split; [reflexivity|split;
    [exact Number_toString_exact | repeat split; vm_compute; reflexivity]]]].
  intros s Hs. rewrite stringify_outcome in Hs by exact Ho.
  change (eq_of None) with (js "=") in Hs. cbn [or_default] in Hs.
  destruct (emitted_pairs (js "=") (stringify_fn_of fn) (entries obj)) as [qs|] eqn:E;
    [|discriminate].
  injection Hs as <-. apply emitted_pairs_default_shape in E.
  change (js "&") with [38%N]. now apply join_no_outer_separator.
Qed.

Lemma stringify_joins_emitted_pairs_witness :
  outcome (stringify (AValue (VArray [str "x"; VNull])) (Some (js ";")) None None) =
  fmap (join (js ";"))
       (emitted_pairs (js "=") (fun _ v => v) [(js "0", str "x"); (js "1", VNull)]).
Proof.
  apply (@stringify_joins_emitted_pairs (AValue (VArray [str "x"; VNull]))
           (Some (js ";")) None None).
  reflexivity.
Defined.

Lemma emitted_pairs_In (eq : jsstring) (fn : StringifyFunction)
      (props : list (jsstring * value)) (qs : list jsstring) (occ : call) :
  emitted_pairs eq fn props = Normal qs ->
  In occ (occurrences props) ->
  exists q, pair_of eq fn occ = Normal q /\ In q qs.
Proof.
  intros H Hin. apply emitted_pairs_occurrences in H.
  pose proof H as Hall. apply sequence_normal_In in H. destruct H as [_ H].
  assert (Hn : exists q, pair_of eq fn occ = Normal q).
  { assert (Hex : exists l, sequence (map (pair_of eq fn) (occurrences props)) = Normal l)
      by eauto.
    apply sequence_normal_iff in Hex. rewrite Forall_map, Forall_forall in Hex. auto. }
  destruct Hn as [q Hq]. exists q. split; [exact Hq|].
  apply H. rewrite <- Hq. now apply in_map.
Qed.

Lemma occurrences_In (props : list (jsstring * value)) (key : jsstring) (v : value) :
  In (key, v) props -> is_scalar v = true -> In (key, v) (occurrences props).
Proof.
  intros Hin Hs. unfold occurrences. apply in_flat_map. exists (key, v).
  split; [exact Hin|]. destruct v; try discriminate; now left.
Qed.

(** C10. A key whose value is null is not skipped: with the default
    callback its pair, the encoded key, the key-value separator and the
    text "null", is among the pairs the result joins. *)
Theorem stringify_null_value (props : list (jsstring * value)) (sep eq : option jsstring)
        (key s : jsstring) :
  In (key, VNull) props ->
  outcome (stringify (AObject props) sep eq None) = Normal s ->
  exists _key qs,
    encodeURIComponent (VString key) = Normal _key /\
    In (_key ++ eq_of eq ++ js "null") qs /\
    s = join (or_default sep (js "&")) qs.
Proof.
  intros Hin Hs. rewrite stringify_outcome in Hs by reflexivity. cbn [entries] in Hs.
  destruct (emitted_pairs (eq_of eq) (stringify_fn_of None) props) as [qs|] eqn:E;
    [|discriminate].
  injection Hs as <-.
  destruct (emitted_pairs_In _ _ _ (key, VNull) E) as (q & Hq & Hqs).
  { now apply occurrences_In. }
  apply pair_of_shape in Hq. destruct Hq as (_key & encoded & Hk & He & ->).
  cbn [fst snd stringify_fn_of] in *. injection He as <-.
  exists _key, qs. auto.
Qed.

Lemma stringify_null_value_witness :
  exists _key qs,
    encodeURIComponent (VString (js "a")) = Normal _key /\
    In (_key ++ js "=" ++ js "null") qs /\
    js "a=null" = join (js "&") qs.
Proof.
  apply (@stringify_null_value [(js "a", VNull)] None None (js "a") (js "a=null")).
  - now left.
  - reflexivity.
Defined.

(** ** Errors of the serializer *)

Lemma stringify_not_object (obj : any) (sep eq : option jsstring)
      (fn : option StringifyFunction) :
  is_nullish obj || negb (isObject obj) = true ->
  run (stringify obj sep eq fn) = (Normal [], []).
Proof. intros H. unfold stringify, run. now rewrite H. Qed.

Lemma encodes_well_formed (v : value) : isWellFormed (ToString v) = true -> encodes v = true.
Proof.
  intros H. unfold encodes, encodeURIComponent.
  now destruct (encoded_well_formed _ H) as [-> _].
Qed.

(** C4 as stated fails: a value with an unpaired surrogate makes the
    encode primitive, and with it stringify, raise. *)
Lemma stringify_raises_on_unpaired_surrogate :
  outcome (stringify (AObject [(js "a", VString [55296%N])]) None None None) =
  Throw URIError.
Proof. reflexivity. Qed.

Lemma Forall_or_Exists {A} (f : A -> bool) (l : list A) :
  Forall (fun a => f a = true) l \/ Exists (fun a => f a = false) l.
Proof.
  induction l as [|a l [IH | IH]]; [now left | |right; now right].
  destruct (f a) eqn:E; [left; now constructor | right; now left].
Qed.

Lemma Forall_Exists_false {A} (f : A -> bool) (l : list A) :
  Forall (fun a => f a = true) l -> Exists (fun a => f a = false) l -> False.
Proof.
  intros Hall Hex. apply Exists_exists in Hex. destruct Hex as (a & Hin & Ha).
  rewrite Forall_forall in Hall. rewrite (Hall a Hin) in Ha. discriminate.
Qed.

(** C4 (amended). For a source that is null, absent or not object-like
    stringify returns the empty string, without error and without calling
    the callback. For an object-like source it returns normally exactly
    when the encode primitive succeeds on every key and on the text of
    every transformed value, and raises the URIError of that primitive
    exactly when it fails on one of them; the primitive succeeds on all
    well-formed text and on no other. *)
Theorem stringify_raises_iff_encode_fails (obj : any) (sep eq : option jsstring)
        (fn : option StringifyFunction) :
  (is_nullish obj || negb (isObject obj) = true ->
   run (stringify obj sep eq fn) = (Normal [], [])) /\
  (isObject obj = true ->
   ((exists s, outcome (stringify obj sep eq fn) = Normal s) <->
    Forall (fun entry => encodes (VString (fst entry)) = true) (entries obj) /\
    Forall (fun occ => encodes (stringify_fn_of fn (fst occ) (snd occ)) = true)
           (occurrences (entries obj))) /\
   (outcome (stringify obj sep eq fn) = Throw URIError <->
    Exists (fun entry => encodes (VString (fst entry)) = false) (entries obj) \/
    Exists (fun occ => encodes (stringify_fn_of fn (fst occ) (snd occ)) = false)
           (occurrences (entries obj)))) /\
  (forall v, isWellFormed (ToString v) = true -> encodes v = true) /\
  (forall v, forallb is_code_unit (ToString v) = true -> encodes v = true ->
             isWellFormed (ToString v) = true).
Proof.
  split; [apply stringify_not_object|]. split; [|split].
  - intros Ho. rewrite stringify_outcome by exact Ho.
    pose proof (emitted_pairs_normal_iff (eq_of eq) (stringify_fn_of fn) (entries obj))
      as Hiff.
    destruct (emitted_pairs (eq_of eq) (stringify_fn_of fn) (entries obj)) as [qs|[]];
      cbn [fmap bind].
    + destruct (proj1 Hiff) as [Hk Hv]; [eauto|]. split.
      * split; [intros _; now split | eauto].
      * split; [discriminate|].
        intros [H | H]; exfalso.
        -- exact (@Forall_Exists_false _ (fun entry => encodes (VString (fst entry)))
                    _ Hk H).
        -- exact (@Forall_Exists_false _
                    (fun occ => encodes (stringify_fn_of fn (fst occ) (snd occ))) _ Hv H).
    + split.
      * split; [intros [s H]; discriminate|].
        intros H. apply Hiff in H. destruct H as [qs H]. discriminate.
      * split; [|reflexivity]. intros _.
        destruct (Forall_or_Exists (fun entry => encodes (VString (fst entry)))
                                   (entries obj)) as [Hk | Hk]; [|now left].
        destruct (Forall_or_Exists
                    (fun occ => encodes (stringify_fn_of fn (fst occ) (snd occ)))
                    (occurrences (entries obj))) as [Hv | Hv]; [|now right].
        destruct (proj2 Hiff (conj Hk Hv)) as [qs H]. discriminate.
  - apply encodes_well_formed.
  - intros v Hcu Hv. unfold encodes, encodeURIComponent in Hv.
    destruct (URI.Encode (ToString v)) as [e|] eqn:E; [|discriminate].
    now apply Encode_well_formed with (e := e).
Qed.

Lemma stringify_raises_iff_encode_fails_witness :
  run (stringify (AValue (str "abc")) None None None) = (Normal [], []) /\
  (outcome (stringify (AObject [(js "k", VNumber 5); (js "u", VString [56320%N])])
                      None None None) = Throw URIError <->
   Exists (fun entry => encodes (VString (fst entry)) = false)
          [(js "k", VNumber 5); (js "u", VString [56320%N])] \/
   Exists (fun occ => encodes (snd occ) = false)
          [(js "k", VNumber 5); (js "u", VString [56320%N])]).
Proof.
  split.
  - apply (stringify_raises_iff_encode_fails (AValue (str "abc")) None None None).
    reflexivity.
  - apply (stringify_raises_iff_encode_fails
             (AObject [(js "k", VNumber 5); (js "u", VString [56320%N])]) None None None).
    reflexivity.
Defined.

(** ** The reserved set and the symmetry of the coding *)

Lemma uriUnescaped_spec (c : code_unit) :
  URI.uriUnescaped c = true <->
  URI.is_alpha c = true \/ URI.is_decimal_digit c = true \/
  In c (js "-_.~") \/ In c (js "!'()*").
Proof.
  unfold URI.uriUnescaped, URI.uriMark.
  cbn [existsb In js list_ascii_of_string map].
  rewrite !orb_true_iff, !N.eqb_eq. cbn. intuition congruence.
Qed.

(** ** What the insertion step keeps *)

Lemma assoc_get_set_same (key : jsstring) (v : value) (props : list (jsstring * value)) :
  assoc_get key (assoc_set key v props) = Some v.
Proof.
  induction props as [|[k u] props IH]; cbn.
  - now rewrite jsstring_eqb_refl.
  - destruct (jsstring_eqb k key) eqn:E; cbn; rewrite E; [reflexivity | exact IH].
Qed.

Lemma assoc_get_set_other (key key' : jsstring) (v : value)
      (props : list (jsstring * value)) :
  key <> key' -> assoc_get key (assoc_set key' v props) = assoc_get key props.
Proof.
  intros Hne. induction props as [|[k u] props IH]; cbn.
  - replace (jsstring_eqb key' key) with false; [reflexivity|].
    symmetry. apply jsstring_eqb_neq. congruence.
  - destruct (jsstring_eqb k key') eqn:E; cbn.
    + apply jsstring_eqb_eq in E. subst k.
      replace (jsstring_eqb key' key) with false; [reflexivity|].
      symmetry. apply jsstring_eqb_neq. congruence.
    + destruct (jsstring_eqb k key); [reflexivity | exact IH].
Qed.

Lemma assoc_set_absent (key : jsstring) (v : value) (props : list (jsstring * value)) :
  assoc_get key props = None -> assoc_set key v props = props ++ [(key, v)].
Proof.
  induction props as [|[k u] props IH]; cbn; [reflexivity|].
  destruct (jsstring_eqb k key); [discriminate|]. intros H. now rewrite IH.
Qed.

Lemma assoc_set_set (key : jsstring) (v v' : value) (props : list (jsstring * value)) :
  assoc_set key v (assoc_set key v' props) = assoc_set key v props.
Proof.
  induction props as [|[k u] props IH]; cbn.
  - now rewrite jsstring_eqb_refl.
  - destruct (jsstring_eqb k key) eqn:E; cbn; rewrite E; [reflexivity | now rewrite IH].
Qed.

Lemma assoc_set_keys (key k : jsstring) (v : value) (props : list (jsstring * value)) :
  In k (map fst (assoc_set key v props)) -> k = key \/ In k (map fst props).
Proof.
  induction props as [|[k' u] props IH]; cbn.
  - intros [<- | []]. now left.
  - destruct (jsstring_eqb k' key) eqn:E; cbn.
    + tauto.
    + intros [<- | H]; [tauto|]. apply IH in H. tauto.
Qed.

Lemma Put_own (o : object) (key : jsstring) (v : value) :
  key <> proto_key ->
  Put o key v = {| own := assoc_set key v (own o); proto := proto o |}.
Proof.
  intros Hne. unfold Put.
  destruct (assoc_get key (own o)) eqn:E; [reflexivity|].
  replace (jsstring_eqb key proto_key) with false
    by (symmetry; now apply jsstring_eqb_neq).
  now rewrite (assoc_set_absent _ _ _ E).
Qed.

Lemma push_own (o : object) (key : jsstring) (v w0 : value) :
  assoc_get key (own o) = Some w0 ->
  push o key v = {| own := assoc_set key (pushed v w0) (own o); proto := proto o |}.
Proof. intros E. unfold push. now rewrite E. Qed.

Lemma proto_key_not_own_of_array (elems : list value) :
  array_own_get elems proto_key = None /\
  find_name proto_key array_prototype_functions = None.
Proof. split; reflexivity. Qed.

Lemma Get_proto_key (o : object) :
  assoc_get proto_key (own o) = None ->
  Get o proto_key = match proto o with
                    | None => VIntrinsic ObjectPrototype
                    | Some elems => VArray elems
                    end.
Proof.
  intros E. unfold Get. rewrite E. destruct (proto o) as [elems|]; reflexivity.
Qed.

(** What an object reads through its chain is never an array, as long as
    the prototype array holds none. *)
Lemma Get_inherited_not_array (o : object) (key : jsstring) :
  plain_prototype o -> key <> proto_key -> assoc_get key (own o) = None ->
  isArray (Get o key) = false.
Proof.
  intros [_ Hp] Hne E. apply jsstring_eqb_neq in Hne.
  unfold Get, array_own_get, object_prototype_get. rewrite E, Hne.
  destruct (proto o) as [elems|] eqn:Ep.
  - specialize (Hp _ eq_refl).
    destruct (element_index elems key) as [i|].
    + destruct (nth_error elems i) as [v|] eqn:En.
      * apply nth_error_In in En. rewrite Forall_forall in Hp. now apply Hp.
      * destruct (find_name key array_prototype_functions); [reflexivity|].
        destruct (find_name key object_prototype_functions); reflexivity.
    + destruct (jsstring_eqb key (js "length")); [reflexivity|].
      destruct (find_name key array_prototype_functions); [reflexivity|].
      destruct (find_name key object_prototype_functions); reflexivity.
  - destruct (find_name key object_prototype_functions); reflexivity.
Qed.

Lemma Get_own (o : object) (key : jsstring) (w0 : value) :
  assoc_get key (own o) = Some w0 -> Get o key = w0.
Proof. intros E. unfold Get. now rewrite E. Qed.

(** Storing under [__proto__]: the value goes into the array that replaces
    the prototype, after the old prototype if that was not an array. *)
Lemma store_proto_key (o : object) (w : value) :
  assoc_get proto_key (own o) = None ->
  store o proto_key w =
  {| own := own o;
     proto := Some (match proto o with
                    | None => [VIntrinsic ObjectPrototype]
                    | Some elems => elems
                    end ++ [w]) |}.
Proof.
  intros E. unfold store. rewrite (Get_proto_key _ E).
  destruct o as [props [elems|]]; cbn [own proto] in *.
  - cbn [is_undefined isArray negb]. unfold push. cbn [own proto]. rewrite E. reflexivity.
  - cbn [is_undefined isArray negb]. unfold Put. cbn [own proto].
    rewrite E, jsstring_eqb_refl.
    unfold push. cbn [own proto]. rewrite E. reflexivity.
Qed.

(** Storing under any other key: the own property [key] is set, to the
    value, or to a sequence that ends with it and keeps what was there. *)
Lemma store_own_key (o : object) (key : jsstring) (w : value) :
  plain_prototype o -> key <> proto_key ->
  exists w',
    store o key w = {| own := assoc_set key w' (own o); proto := proto o |} /\
    holds w' w /\
    forall w0 x, assoc_get key (own o) = Some w0 -> holds w0 x -> is_scalar x = true ->
                 holds w' x.
Proof.
  intros Hplain Hne. unfold store.
  destruct (is_undefined (Get o key)) eqn:Eu; cbn [negb].
  - exists w. split; [now apply Put_own|]. split; [now left|].
    intros w0 x E Hx Hs. rewrite (Get_own _ _ E) in Eu.
    destruct Hx as [-> | (l & -> & _)]; [|discriminate].
    unfold is_scalar in Hs. rewrite Eu in Hs. discriminate.
  - destruct (isArray (Get o key)) eqn:Ea; cbn [negb].
    + destruct (assoc_get key (own o)) as [w0|] eqn:E.
      * rewrite (Get_own _ _ E) in Ea. destruct w0 as [| | | | |l|]; try discriminate.
        exists (VArray (l ++ [w])). split; [exact (push_own _ _ w E)|].
        split; [right; exists (l ++ [w]); split; [reflexivity | apply in_or_app; right; now left]|].
        intros w0 x [= <-] Hx Hs. right. exists (l ++ [w]). split; [reflexivity|].
        destruct Hx as [<- | (l' & [= <-] & Hin)]; [discriminate|].
        apply in_or_app. now left.
      * rewrite Get_inherited_not_array in Ea by assumption. discriminate.
    + exists (VArray [Get o key; w]). split.
      * rewrite Put_own by exact Hne.
        rewrite push_own with (w0 := VArray [Get o key])
          by (cbn [own]; apply assoc_get_set_same).
        cbn [own proto pushed app]. now rewrite assoc_set_set.
      * split; [right; eexists; split; [reflexivity | right; now left]|].
        intros w0 x E Hx Hs. rewrite (Get_own _ _ E) in *.
        destruct Hx as [<- | (l & -> & _)]; [|discriminate].
        right. eexists. split; [reflexivity | now left].
Qed.

Lemma plain_prototype_empty : plain_prototype empty_object.
Proof. split; [reflexivity | discriminate]. Qed.

Lemma store_plain (o : object) (key : jsstring) (w : value) :
  plain_prototype o -> is_scalar w = true -> plain_prototype (store o key w).
Proof.
  intros Hplain Hw. destruct (jsstring_eqb key proto_key) eqn:Ek.
  - apply jsstring_eqb_eq in Ek. subst key. destruct Hplain as [Hown Hp].
    rewrite store_proto_key by exact Hown. split; [exact Hown|].
    cbn [proto]. intros elems [= <-]. apply Forall_app. split.
    + destruct (proto o) as [A|]; [now apply Hp | repeat constructor].
    + repeat constructor. unfold is_scalar in Hw. apply andb_true_iff in Hw.
      destruct Hw as [_ Hw]. now apply negb_true_iff in Hw.
  - apply jsstring_eqb_neq in Ek.
    destruct (store_own_key w Hplain Ek) as (w' & -> & _).
    destruct Hplain as [Hown Hp]. split; [|exact Hp]. cbn [own].
    rewrite assoc_get_set_other by congruence. exact Hown.
Qed.

Lemma store_kept_new (o : object) (key : jsstring) (w : value) :
  plain_prototype o -> kept (store o key w) key w.
Proof.
  intros Hplain. unfold kept. destruct (jsstring_eqb key proto_key) eqn:Ek.
  - apply jsstring_eqb_eq in Ek. subst key. destruct Hplain as [Hown _].
    rewrite store_proto_key by exact Hown. cbn [proto]. eexists. split; [reflexivity|].
    apply in_or_app. right. now left.
  - apply jsstring_eqb_neq in Ek.
    destruct (store_own_key w Hplain Ek) as (w' & -> & Hw & _).
    cbn [own]. exists w'. split; [apply assoc_get_set_same | exact Hw].
Qed.

Lemma store_kept_old (o : object) (key key' : jsstring) (w x : value) :
  plain_prototype o -> is_scalar x = true ->
  kept o key x -> kept (store o key' w) key x.
Proof.
  intros Hplain Hx Hk. unfold kept in *.
  destruct (jsstring_eqb key' proto_key) eqn:Ek'.
  - apply jsstring_eqb_eq in Ek'. subst key'.
    rewrite store_proto_key by apply Hplain. cbn [own proto].
    destruct (jsstring_eqb key proto_key); [|exact Hk].
    destruct Hk as (elems & -> & Hin). eexists. split; [reflexivity|].
    apply in_or_app. now left.
  - apply jsstring_eqb_neq in Ek'.
    destruct (store_own_key w Hplain Ek') as (w' & -> & _ & Hold).
    cbn [own proto]. destruct (jsstring_eqb key proto_key) eqn:Ek; [exact Hk|].
    destruct Hk as (w0 & E & Hw0).
    destruct (jsstring_eqb key key') eqn:Ekk.
    + apply jsstring_eqb_eq in Ekk. subst key'. exists w'.
      split; [apply assoc_get_set_same | eauto].
    + apply jsstring_eqb_neq in Ekk. exists w0.
      rewrite assoc_get_set_other by exact Ekk. auto.
Qed.

Lemma kept_holds (o : object) (key : jsstring) (x : value) :
  plain_prototype o -> kept o key x -> holds (Get o key) x.
Proof.
  intros [Hown _]. unfold kept. destruct (jsstring_eqb key proto_key) eqn:Ek.
  - apply jsstring_eqb_eq in Ek. subst key. intros (elems & Hp & Hin).
    rewrite (Get_proto_key _ Hown), Hp. right. eauto.
  - intros (w & E & Hw). now rewrite (Get_own _ _ E).
Qed.

Lemma fold_store_kept (fn : ParseFunction) (pairs : list (jsstring * jsstring))
      (o : object) :
  (forall k v, is_scalar (fn k v) = true) -> plain_prototype o ->
  plain_prototype (fold_left (store_pair fn) pairs o) /\
  (forall key x, is_scalar x = true -> kept o key x ->
                 kept (fold_left (store_pair fn) pairs o) key x) /\
  (forall kv, In kv pairs ->
              kept (fold_left (store_pair fn) pairs o) (fst kv) (fn (fst kv) (snd kv))).
Proof.
  intros Hfn. revert o. induction pairs as [|kv pairs IH]; intros o Hplain.
  - repeat split; [apply Hplain | apply Hplain | auto | intros kv []].
  - cbn [fold_left].
    assert (Hplain' : plain_prototype (store_pair fn o kv))
      by (now apply store_plain).
    destruct (IH _ Hplain') as (IH1 & IH2 & IH3).
    split; [exact IH1|]. split.
    + intros key x Hx Hk. apply IH2; [exact Hx|]. now apply store_kept_old.
    + intros kv' [<- | Hin]; [|now apply IH3].
      apply IH2; [apply Hfn|]. now apply store_kept_new.
Qed.

Lemma Put_keys (o : object) (key k : jsstring) (v : value) :
  In k (map fst (own (Put o key v))) -> k = key \/ In k (map fst (own o)).
Proof.
  unfold Put. destruct (assoc_get key (own o)); cbn [own].
  - apply assoc_set_keys.
  - destruct (jsstring_eqb key proto_key).
    + destruct v; cbn [own]; tauto.
    + cbn [own]. rewrite map_app, in_app_iff. cbn. intuition auto.
Qed.

Lemma push_keys (o : object) (key k : jsstring) (v : value) :
  In k (map fst (own (push o key v))) -> k = key \/ In k (map fst (own o)).
Proof.
  unfold push. destruct (assoc_get key (own o)); cbn [own].
  - apply assoc_set_keys.
  - destruct (proto o) as [elems|]; [|tauto].
    destruct (element_index elems key); [cbn [own]; tauto|].
    destruct (jsstring_eqb key proto_key); cbn [own]; tauto.
Qed.

(** The insertion step creates no own property but that of its key. *)
Lemma store_keys (o : object) (key k : jsstring) (w : value) :
  In k (map fst (own (store o key w))) -> k = key \/ In k (map fst (own o)).
Proof.
  unfold store. destruct (negb (is_undefined (Get o key))).
  - intros H. apply push_keys in H. destruct H as [H|H]; [now left|].
    destruct (negb (isArray (Get o key))); [|now right]. now apply Put_keys in H.
  - apply Put_keys.
Qed.

Lemma fold_store_keys (fn : ParseFunction) (pairs : list (jsstring * jsstring))
      (o : object) (k : jsstring) :
  In k (map fst (own (fold_left (store_pair fn) pairs o))) ->
  In k (map fst (own o)) \/ In k (map fst pairs).
Proof.
  revert o. induction pairs as [|kv pairs IH]; intros o H; [now left|].
  cbn [fold_left] in H. apply IH in H. destruct H as [H|H].
  - apply store_keys in H. destruct H as [-> | H]; [right; now left | now left].
  - right. now right.
Qed.

Lemma decoded_pairs_In (eq : jsstring) (groups : list jsstring) (kv : jsstring * jsstring) :
  In kv (decoded_pairs eq groups) ->
  exists group rk rv,
    In group groups /\ split group eq = [rk; rv] /\
    decodeURIComponent rk = Normal (fst kv) /\ decodeURIComponent rv = Normal (snd kv).
Proof.
  induction groups as [|g groups IH]; cbn [decoded_pairs]; [intros []|].
  destruct (retained eq g) eqn:Er.
  - apply retained_spec in Er. destruct Er as (rk & rv & Hs). rewrite Hs. cbn [nth].
    destruct (decodeURIComponent rk) as [k|] eqn:Ek; [|intros []].
    destruct (decodeURIComponent rv) as [v|] eqn:Ev; [|intros []].
    intros [<- | Hin].
    + exists g, rk, rv. cbn. auto.
    + destruct (IH Hin) as (g' & rk' & rv' & Hg & H). exists g', rk', rv'. cbn. tauto.
  - intros Hin. destruct (IH Hin) as (g' & rk' & rv' & Hg & H).
    exists g', rk', rv'. cbn. tauto.
Qed.

Lemma decoded_pairs_complete (eq : jsstring) (groups : list jsstring)
      (group rk rv : jsstring) :
  existsb (undecodable eq) groups = false ->
  In group groups -> split group eq = [rk; rv] ->
  exists key value,
    decodeURIComponent rk = Normal key /\ decodeURIComponent rv = Normal value /\
    In (key, value) (decoded_pairs eq groups).
Proof.
  intros Hok Hin Hs. induction groups as [|g groups IH]; [destruct Hin|].
  cbn [existsb] in Hok. apply orb_false_iff in Hok. destruct Hok as [Hg Hok].
  cbn [decoded_pairs]. unfold undecodable in Hg.
  destruct Hin as [-> | Hin].
  - assert (Er : retained eq group = true) by (apply retained_spec; eauto).
    rewrite Er in *. rewrite Hs in *. cbn [nth andb] in *.
    destruct (decodeURIComponent rk) as [k|]; [|discriminate].
    destruct (decodeURIComponent rv) as [v|]; [|discriminate].
    exists k, v. cbn. auto.
  - destruct (IH Hok Hin) as (k & v & Hk & Hv & H). exists k, v.
    split; [exact Hk|]. split; [exact Hv|].
    destruct (retained eq g); [|exact H]. cbn [andb] in Hg.
    destruct (decodeURIComponent (nth 0 (split g eq) [])); [|discriminate].
    destruct (decodeURIComponent (nth 1 (split g eq) [])); [|discriminate].
    now right.
Qed.

(** Dropping the groups that are not retained changes nothing. *)
Lemma filter_retained (eq : jsstring) (groups : list jsstring) :
  existsb (undecodable eq) (filter (retained eq) groups) = existsb (undecodable eq) groups /\
  decoded_pairs eq (filter (retained eq) groups) = decoded_pairs eq groups.
Proof.
  induction groups as [|g groups [IH1 IH2]]; [split; reflexivity|].
  cbn [filter existsb decoded_pairs]. destruct (retained eq g) eqn:Er.
  - cbn [existsb decoded_pairs]. rewrite Er, IH1, IH2. split; reflexivity.
  - unfold undecodable at 2. rewrite Er. cbn [andb orb]. split; assumption.
Qed.

(** C3. The groups that do not split into two parts on the key-value
    separator are dropped with no error, no callback invocation and no
    effect on the result, and every own property of the result has the
    decoded key of a retained group. But a retained group does not always
    contribute an entry: the presence test reads [obj[key]] through the
    prototype chain, so a group with the key [__proto__] finds the
    prototype there, and its value goes into an array that replaces the
    prototype: the result has no entry for it. With a callback that
    returns scalars (such as the default one) every retained group with
    another key does contribute the own property of its decoded key, which
    holds its value, alone or in a sequence. *)
Theorem retained_group_proto_key_no_entry :
  (split (js "__proto__=1") (js "=") = [js "__proto__"; js "1"] /\
   outcome (parse (AValue (str "__proto__=1")) None None None) =
     Normal {| own := []; proto := Some [VIntrinsic ObjectPrototype; str "1"] |}) /\
  (forall s sep eq fn,
     run (parse (AValue (VString s)) sep eq fn) =
       run (for_of (filter (retained (eq_of eq)) (groups_of s sep))
                   (parse_group (eq_of eq) (parse_fn_of fn)) empty_object) /\
     forall o, outcome (parse (AValue (VString s)) sep eq fn) = Normal o ->
       (forall key, In key (map fst (own o)) ->
          exists group rk rv value,
            In group (groups_of s sep) /\ split group (eq_of eq) = [rk; rv] /\
            decodeURIComponent rk = Normal key /\
            decodeURIComponent rv = Normal value) /\
       ((forall k v, is_scalar (parse_fn_of fn k v) = true) ->
        forall group rk rv,
          In group (groups_of s sep) -> split group (eq_of eq) = [rk; rv] ->
          exists key value,
            decodeURIComponent rk = Normal key /\
            decodeURIComponent rv = Normal value /\
            (key = proto_key -> assoc_get key (own o) = None) /\
            (key <> proto_key ->
             exists w, assoc_get key (own o) = Some w /\
                       holds w (parse_fn_of fn key value)))) /\
  outcome (parse (AValue (str "a=1&b&c=2")) None None None) =
    Normal (record [(js "a", str "1"); (js "c", str "2")]).
Proof.
  split; [split; reflexivity|]. split; [|reflexivity].
  intros s sep eq fn. split.
  - rewrite parse_run. unfold run. rewrite parse_loop_run.
    destruct (filter_retained (eq_of eq) (groups_of s sep)) as [-> ->]. reflexivity.
  - intros o Ho. unfold outcome in Ho. rewrite parse_run in Ho. cbn [fst] in Ho.
    destruct (existsb (undecodable (eq_of eq)) (groups_of s sep)) eqn:Hok; [discriminate|].
    injection Ho as <-. split.
    + intros key Hkey. apply fold_store_keys in Hkey. destruct Hkey as [[]|Hkey].
      apply in_map_iff in Hkey. destruct Hkey as (kv & <- & Hin).
      apply decoded_pairs_In in Hin. destruct Hin as (g & rk & rv & Hg & Hs & Hk & Hv).
      exists g, rk, rv, (snd kv). auto.
    + intros Hfn g rk rv Hg Hs.
      destruct (@decoded_pairs_complete _ _ _ _ _ Hok Hg Hs) as (k & v & Hk & Hv & Hin).
      exists k, v. split; [exact Hk|]. split; [exact Hv|].
      destruct (@fold_store_kept (parse_fn_of fn)
                  (decoded_pairs (eq_of eq) (groups_of s sep)) empty_object Hfn
                  plain_prototype_empty) as ([Hown _] & _ & Hkept).
      specialize (Hkept (k, v) Hin). unfold kept in Hkept. cbn [fst snd] in Hkept. split.
      * intros ->. exact Hown.
      * intros Hne. apply jsstring_eqb_neq in Hne. rewrite Hne in Hkept. exact Hkept.
Qed.

(** ** Where the round trip stops *)

(** A key whose sequence is empty emits no pair and is gone after the
    round trip. *)
Lemma round_trip_empty_sequence_fails : ~ round_trip [(js "a", VArray [])].
Proof.
  intros (s & o & Hs & Hp & _ & Hsame).
  vm_compute in Hs. injection Hs as <-.
  vm_compute in Hp. injection Hp as <-.
  specialize (Hsame (js "a")). vm_compute in Hsame. discriminate.
Qed.

(** A string with an unpaired surrogate does not get through stringify. *)
Lemma round_trip_unpaired_surrogate_fails : ~ round_trip [(js "a", VString [55296%N])].
Proof. intros (s & o & Hs & _). vm_compute in Hs. discriminate. Qed.

(** An inherited key comes back as a sequence that starts with the
    inherited function (the defect of the presence test). *)
Lemma round_trip_inherited_key_fails : ~ round_trip [(js "toString", str "1")].
Proof.
  intros (s & o & Hs & Hp & _ & Hsame).
  vm_compute in Hs. injection Hs as <-.
  vm_compute in Hp. injection Hp as <-.
  specialize (Hsame (js "toString")). vm_compute in Hsame. discriminate.
Qed.

(** ** Separators of any length *)

Section Split_general.
Open Scope N_scope.

Variable c0 : code_unit.
Variable sep' : jsstring.

Lemma split_from_piece_general (cur piece rest : jsstring) :
  Forall (fun c => c <> c0) piece ->
  split_from (c0 :: sep') 0 cur (piece ++ rest) =
  split_from (c0 :: sep') 0 (cur ++ piece) rest.
Proof.
  intros Hp. revert cur. induction Hp as [|c piece Hc Hp IH]; intros cur.
  - now rewrite app_nil_r.
  - cbn [app split_from starts_with].
    replace (c0 =? c) with false by (symmetry; apply N.eqb_neq; congruence).
    cbn [andb]. rewrite IH, <- app_assoc. reflexivity.
Qed.

Lemma starts_with_app (p rest : jsstring) : starts_with p (p ++ rest) = true.
Proof.
  induction p as [|x p IH]; [reflexivity|]. cbn. now rewrite N.eqb_refl, IH.
Qed.

Lemma split_from_skip (sep cur x rest : jsstring) :
  split_from sep (List.length x) cur (x ++ rest) = split_from sep 0 cur rest.
Proof.
  induction x as [|a x IH]; [reflexivity|]. cbn [List.length app split_from]. exact IH.
Qed.

Lemma split_from_separator_general (cur rest : jsstring) :
  split_from (c0 :: sep') 0 cur ((c0 :: sep') ++ rest) =
  cur :: split_from (c0 :: sep') 0 [] rest.
Proof.
  cbn [app]. cbn [split_from].
  change (c0 :: sep' ++ rest) with ((c0 :: sep') ++ rest).
  rewrite starts_with_app. f_equal.
  replace (List.length (c0 :: sep') - 1)%nat with (List.length sep') by (cbn; lia).
  apply split_from_skip.
Qed.

(** Splitting what [join] built gives the pieces back, when no piece holds
    the first code unit of the separator. *)
Lemma split_join_general (pieces : list jsstring) :
  pieces <> [] -> Forall (Forall (fun c => c <> c0)) pieces ->
  split (join (c0 :: sep') pieces) (c0 :: sep') = pieces.
Proof.
  intros Hne Hall. unfold split. revert Hne.
  induction Hall as [|p rest Hp Hrest IH]; intros Hne; [now destruct Hne|].
  destruct rest as [|q rest].
  - cbn [join]. rewrite <- (app_nil_r p) at 1.
    rewrite split_from_piece_general by exact Hp. reflexivity.
  - change (join (c0 :: sep') (p :: q :: rest))
      with (p ++ (c0 :: sep') ++ join (c0 :: sep') (q :: rest)).
    rewrite split_from_piece_general by exact Hp.
    rewrite split_from_separator_general. cbn [app]. f_equal. apply IH. discriminate.
Qed.

End Split_general.

(** ** What the encoder writes *)

Section Encode_alphabet.
Import URI.
Open Scope N_scope.

Ltac elia := zify; Z.to_euclidean_division_equations; lia.

Lemma hex_digit_output (n : N) : n < 16 -> uri_output (hex_digit n) = true.
Proof.
  intros Hn. unfold uri_output, uriUnescaped, hex_digit.
  destruct (n <? 10) eqn:E; [apply N.ltb_lt in E | apply N.ltb_ge in E].
  - replace (is_decimal_digit (48 + n)) with true; [now rewrite orb_true_r|].
    symmetry. unfold is_decimal_digit. apply andb_true_iff.
    split; apply N.leb_le; lia.
  - replace (is_alpha (55 + n)) with true; [reflexivity|].
    symmetry. unfold is_alpha. apply orb_true_iff. left. apply andb_true_iff.
    split; apply N.leb_le; lia.
Qed.

Lemma escape_octet_output (b : N) :
  b < 256 -> Forall (fun c => uri_output c = true) (escape_octet b).
Proof.
  intros Hb. unfold escape_octet.
  repeat constructor; apply hex_digit_output; elia.
Qed.

Lemma utf8_octets_bound (cp : N) :
  cp < 2097152 -> Forall (fun b => b < 256) (utf8_octets cp).
Proof.
  intros Hcp. unfold utf8_octets.
  destruct (cp <? 128) eqn:E1; [apply N.ltb_lt in E1 | apply N.ltb_ge in E1].
  { repeat constructor. lia. }
  destruct (cp <? 2048) eqn:E2; [apply N.ltb_lt in E2 | apply N.ltb_ge in E2].
  { repeat constructor; elia. }
  destruct (cp <? 65536) eqn:E3; [apply N.ltb_lt in E3 | apply N.ltb_ge in E3].
  { repeat constructor; elia. }
  repeat constructor; elia.
Qed.

Lemma escape_output (cp : N) :
  cp < 2097152 -> Forall (fun c => uri_output c = true) (escape cp).
Proof.
  intros Hcp. unfold escape.
  induction (utf8_octets_bound Hcp) as [|b l Hb Hl IH]; cbn [flat_map]; [constructor|].
  apply Forall_app. split; [now apply escape_octet_output | exact IH].
Qed.

(** The encoding of a well-formed string holds only unescaped code units
    and "%". *)
Lemma Encode_output (s e : jsstring) :
  isWellFormed s = true -> Encode s = Normal e ->
  Forall (fun c => uri_output c = true) e.
Proof.
  remember (List.length s) as n eqn:Hn.
  revert s e Hn. induction n as [n IH] using lt_wf_ind. intros s e Hn Hwf He.
  destruct s as [|c rest]; cbn [Encode isWellFormed] in *.
  - injection He as <-. constructor.
  - destruct (uriUnescaped c) eqn:Eu.
    + destruct (Encode rest) as [e'|] eqn:Er; [|discriminate].
      injection He as <-.
      destruct (uriUnescaped_ascii _ Eu) as (Hlt & _ & _).
      assert (Ht : is_trailing_surrogate c = false).
      { unfold is_trailing_surrogate. apply andb_false_iff. left. apply N.leb_gt. lia. }
      assert (Hl : is_leading_surrogate c = false).
      { unfold is_leading_surrogate. apply andb_false_iff. left. apply N.leb_gt. lia. }
      rewrite Ht, Hl in Hwf. apply andb_true_iff in Hwf. destruct Hwf as [_ Hwf].
      constructor; [unfold uri_output; now rewrite Eu|].
      apply (IH (List.length rest)) with (s := rest); subst; cbn; auto with arith.
    + destruct (is_trailing_surrogate c) eqn:Et; [discriminate|].
      destruct (is_leading_surrogate c) eqn:El.
      * destruct rest as [|d rest']; [discriminate|].
        apply andb_true_iff in Hwf. destruct Hwf as [Hd Hwf]. rewrite Hd in He.
        destruct (Encode rest') as [e'|] eqn:Er; [|discriminate].
        injection He as <-. apply Forall_app. split.
        -- apply escape_output. unfold UTF16SurrogatePairToCodePoint.
           unfold is_leading_surrogate, is_trailing_surrogate in *.
           apply andb_true_iff in El, Hd. rewrite !N.leb_le in El, Hd. lia.
        -- apply (IH (List.length rest')) with (s := rest'); subst; cbn; auto with arith.
      * apply andb_true_iff in Hwf. destruct Hwf as [Hcu Hwf].
        destruct (Encode rest) as [e'|] eqn:Er; [|discriminate].
        injection He as <-. apply Forall_app. split.
        -- apply escape_output. unfold is_code_unit in Hcu. apply N.ltb_lt in Hcu. lia.
        -- apply (IH (List.length rest)) with (s := rest); subst; cbn; auto with arith.
Qed.

End Encode_alphabet.

(** ** Reading back what was written *)

Lemma safe_separators_spec (sep eq : jsstring) :
  safe_separators sep eq = true ->
  exists c1 sep' c2 eq',
    sep = c1 :: sep' /\ eq = c2 :: eq' /\
    uri_output c1 = false /\ uri_output c2 = false /\
    ~ In c1 eq /\ ~ In 63%N sep /\ ~ In 63%N eq.
Proof.
  unfold safe_separators. destruct sep as [|c1 sep']; [discriminate|].
  destruct eq as [|c2 eq']; [discriminate|].
  rewrite !andb_true_iff, !negb_true_iff. intros [[[[H1 H2] H3] H4] H5].
  exists c1, sep', c2, eq'. repeat split; try assumption.
  - intros Hin. assert (E : existsb (N.eqb c1) (c2 :: eq') = true).
    { apply existsb_exists. exists c1. split; [exact Hin | apply N.eqb_refl]. }
    congruence.
  - intros Hin. assert (E : existsb (N.eqb 63%N) (c1 :: sep') = true).
    { apply existsb_exists. exists 63%N. split; [exact Hin | reflexivity]. }
    congruence.
  - intros Hin. assert (E : existsb (N.eqb 63%N) (c2 :: eq') = true).
    { apply existsb_exists. exists 63%N. split; [exact Hin | reflexivity]. }
    congruence.
Qed.

Lemma encoded_avoids (s : jsstring) (c0 : code_unit) :
  isWellFormed s = true -> uri_output c0 = false ->
  Forall (fun c => c <> c0) (encoded s).
Proof.
  intros Hwf H0. destruct (encoded_well_formed _ Hwf) as [He _].
  eapply Forall_impl; [|exact (@Encode_output _ _ Hwf He)].
  cbn. intros c Hc ->. congruence.
Qed.

Lemma Forall_not_In (c0 : code_unit) (l : jsstring) :
  ~ In c0 l -> Forall (fun c => c <> c0) l.
Proof. intros H. apply Forall_forall. intros c Hin ->. contradiction. Qed.

Section Safe_separators.

Variables (sep eq : jsstring).
Hypothesis Hsafe : safe_separators sep eq = true.

Lemma group_with_avoids (kv : jsstring * jsstring) (c0 : code_unit) :
  isWellFormed (fst kv) = true -> isWellFormed (snd kv) = true ->
  uri_output c0 = false -> ~ In c0 eq ->
  Forall (fun c => c <> c0) (group_with eq kv).
Proof.
  intros Hk Hv H0 Hin. unfold group_with. rewrite !Forall_app.
  repeat split; [now apply encoded_avoids | now apply Forall_not_In | now apply encoded_avoids].
Qed.

Lemma group_with_split (kv : jsstring * jsstring) :
  isWellFormed (fst kv) = true -> isWellFormed (snd kv) = true ->
  split (group_with eq kv) eq = [encoded (fst kv); encoded (snd kv)].
Proof.
  intros Hk Hv.
  destruct (safe_separators_spec _ _ Hsafe) as (c1 & sep' & c2 & eq' & _ & -> & _ & H2 & _).
  change (group_with (c2 :: eq') kv)
    with (join (c2 :: eq') [encoded (fst kv); encoded (snd kv)]).
  apply split_join_general; [discriminate|].
  repeat constructor; now apply encoded_avoids.
Qed.

Lemma decoded_pairs_group_with (pairs : list (jsstring * jsstring)) :
  Forall (fun kv => isWellFormed (fst kv) = true /\ isWellFormed (snd kv) = true) pairs ->
  decoded_pairs eq (map (group_with eq) pairs) = pairs /\
  existsb (undecodable eq) (map (group_with eq) pairs) = false.
Proof.
  induction 1 as [|[k v] pairs [Hk Hv] Hrest [IH1 IH2]]; [split; reflexivity|].
  cbn [map decoded_pairs existsb]. unfold undecodable at 1, retained.
  rewrite (group_with_split (k, v) Hk Hv). cbn [List.length Nat.eqb nth andb].
  cbn [fst snd] in *. unfold decodeURIComponent.
  destruct (encoded_well_formed _ Hk) as [_ ->].
  destruct (encoded_well_formed _ Hv) as [_ ->].
  rewrite IH1, IH2. split; reflexivity.
Qed.

Lemma groups_of_join_group_with (pairs : list (jsstring * jsstring)) :
  pairs <> [] ->
  Forall (fun kv => isWellFormed (fst kv) = true /\ isWellFormed (snd kv) = true) pairs ->
  split (replace_query_prefix (join sep (map (group_with eq) pairs))) sep =
  map (group_with eq) pairs.
Proof.
  intros Hne Hwf.
  destruct (safe_separators_spec _ _ Hsafe)
    as (c1 & sep' & c2 & eq' & Es & Ee & H1 & H2 & Hin & Hq1 & Hq2).
  rewrite replace_query_prefix_none.
  - rewrite Es. apply split_join_general.
    + destruct pairs; [congruence | discriminate].
    + rewrite Forall_forall in *. intros g Hg. apply in_map_iff in Hg.
      destruct Hg as (kv & <- & Hkv). destruct (Hwf _ Hkv) as [Hk Hv].
      apply group_with_avoids; assumption.
  - assert (Hno : forall l : jsstring, Forall (fun c => c <> 63%N) l ->
                    Forall (fun c => (c =? 63)%N = false) l).
    { intros l Hl. eapply Forall_impl; [|exact Hl]. cbn. intros c Hc.
      now apply N.eqb_neq. }
    apply Hno. apply Forall_join; [now apply Forall_not_In|].
    rewrite Forall_forall in *. intros g Hg. apply in_map_iff in Hg.
    destruct Hg as (kv & <- & Hkv). destruct (Hwf _ Hkv) as [Hk Hv].
    now apply group_with_avoids.
Qed.

End Safe_separators.

Lemma pair_of_written (eq : jsstring) (fn : StringifyFunction) (occ : call) (q : jsstring) :
  pair_of eq fn occ = Normal q -> q = group_with eq (written fn occ).
Proof.
  intros H. apply pair_of_shape in H. destruct H as (_key & enc & Hk & He & ->).
  unfold group_with, written, encoded, encodeURIComponent in *. cbn [fst snd ToString] in *.
  now rewrite Hk, He.
Qed.

Lemma sequence_pair_of_written (eq : jsstring) (fn : StringifyFunction)
      (occs : list call) (qs : list jsstring) :
  sequence (map (pair_of eq fn) occs) = Normal qs ->
  qs = map (group_with eq) (map (written fn) occs).
Proof.
  revert qs. induction occs as [|occ occs IH]; intros qs H; cbn [map sequence] in H.
  - now injection H as <-.
  - destruct (pair_of eq fn occ) as [q|] eqn:Eq; [|discriminate]. cbn [bind] in H.
    destruct (sequence (map (pair_of eq fn) occs)) as [qs'|]; [|discriminate].
    injection H as <-. cbn [map]. now rewrite (@pair_of_written _ _ _ _ Eq), (IH _ eq_refl).
Qed.

Lemma written_well_formed (eq : jsstring) (fn : StringifyFunction)
      (occs : list call) (qs : list jsstring) :
  sequence (map (pair_of eq fn) occs) = Normal qs ->
  Forall (fun occ => forallb is_code_unit (fst occ) = true /\
                     forallb is_code_unit (ToString (fn (fst occ) (snd occ))) = true) occs ->
  Forall (fun kv => isWellFormed (fst kv) = true /\ isWellFormed (snd kv) = true)
         (map (written fn) occs).
Proof.
  intros H Hcu. assert (Hn : exists l, sequence (map (pair_of eq fn) occs) = Normal l) by eauto.
  apply sequence_normal_iff in Hn. rewrite Forall_map in *. rewrite Forall_forall in *.
  intros occ Hin. destruct (Hn _ Hin) as [q Hq]. destruct (Hcu _ Hin) as [Hk Hv].
  apply pair_of_shape in Hq. destruct Hq as (_key & enc & Ek & Ee & _).
  unfold encodeURIComponent in Ek, Ee. cbn [ToString] in Ek. cbn [written fst snd].
  split; eapply Encode_well_formed; eassumption.
Qed.

Lemma stringify_written (obj : any) (sep eq : option jsstring)
      (fn : option StringifyFunction) (s : jsstring) :
  isObject obj = true ->
  outcome (stringify obj sep eq fn) = Normal s ->
  sequence (map (pair_of (eq_of eq) (stringify_fn_of fn)) (occurrences (entries obj))) =
    Normal (map (group_with (eq_of eq))
                (map (written (stringify_fn_of fn)) (occurrences (entries obj)))) /\
  s = join (or_default sep (js "&"))
           (map (group_with (eq_of eq))
                (map (written (stringify_fn_of fn)) (occurrences (entries obj)))).
Proof.
  intros Ho Hs. rewrite stringify_outcome in Hs by exact Ho.
  destruct (emitted_pairs (eq_of eq) (stringify_fn_of fn) (entries obj)) as [qs|] eqn:E;
    [|discriminate].
  injection Hs as <-. apply emitted_pairs_occurrences in E.
  pose proof (@sequence_pair_of_written _ _ _ _ E) as Hqs. rewrite <- Hqs. auto.
Qed.

(** [parse] on the joined groups of well-formed keys and values, under
    separators the encoding cannot collide with. *)
Lemma parse_written_groups (sep eq : option jsstring) (pfn : option ParseFunction)
      (texts : list (jsstring * jsstring)) :
  safe_separators (or_default sep (js "&")) (eq_of eq) = true ->
  Forall (fun kv => isWellFormed (fst kv) = true /\ isWellFormed (snd kv) = true) texts ->
  run (parse (AValue (VString (join (or_default sep (js "&"))
                                    (map (group_with (eq_of eq)) texts)))) sep eq pfn) =
  (Normal (fold_left (store_pair (parse_fn_of pfn)) texts empty_object),
   map logged texts).
Proof.
  intros Hsafe Hwf. destruct texts as [|kv texts]; [reflexivity|].
  rewrite parse_run. unfold groups_of.
  rewrite (@groups_of_join_group_with _ _ Hsafe) by (assumption || discriminate).
  destruct (@decoded_pairs_group_with _ _ Hsafe _ Hwf) as [-> ->]. reflexivity.
Qed.

(** X1. What stringify writes, parse reads back: with separators the
    encoding cannot collide with (the default ones are such), parsing the
    result of stringify raises no error and meets, in order, exactly the
    keys and the texts of the values that stringify wrote, one callback
    invocation for each. *)
Theorem parse_reads_back_stringify (obj : any) (sep eq : option jsstring)
        (sfn : option StringifyFunction) (pfn : option ParseFunction) (s : jsstring) :
  isObject obj = true ->
  safe_separators (or_default sep (js "&")) (eq_of eq) = true ->
  Forall (fun occ => forallb is_code_unit (fst occ) = true /\
                     forallb is_code_unit
                       (ToString (stringify_fn_of sfn (fst occ) (snd occ))) = true)
         (occurrences (entries obj)) ->
  outcome (stringify obj sep eq sfn) = Normal s ->
  run (parse (AValue (VString s)) sep eq pfn) =
  (Normal (fold_left (store_pair (parse_fn_of pfn))
                     (map (written (stringify_fn_of sfn)) (occurrences (entries obj)))
                     empty_object),
   map logged (map (written (stringify_fn_of sfn)) (occurrences (entries obj)))).
Proof.
  intros Ho Hsafe Hcu Hs.
  destruct (@stringify_written _ _ _ _ _ Ho Hs) as [Hseq ->].
  apply parse_written_groups; [exact Hsafe|].
  exact (@written_well_formed _ _ _ _ Hseq Hcu).
Qed.

Lemma parse_reads_back_stringify_witness :
  run (parse (AValue (str "a#1|b#true|b#null")) (Some (js "|")) (Some (js "#")) None) =
  (Normal (record [(js "a", str "1"); (js "b", VArray [str "true"; str "null"])]),
   [(js "a", str "1"); (js "b", str "true"); (js "b", str "null")]).
Proof.
  apply (@parse_reads_back_stringify
           (AObject [(js "a", VNumber 1); (js "b", VArray [VBoolean true; VNull]);
                     (js "c", VUndefined)])
           (Some (js "|")) (Some (js "#")) None None (js "a#1|b#true|b#null")).
  - reflexivity.
  - reflexivity.
  - repeat constructor.
  - reflexivity.
Defined.

Lemma well_formed_code_units (s : jsstring) :
  isWellFormed s = true -> forallb is_code_unit s = true.
Proof.
  remember (List.length s) as n eqn:Hn.
  revert s Hn. induction n as [n IH] using lt_wf_ind. intros s Hn Hwf.
  destruct s as [|c rest]; [reflexivity|]. cbn [isWellFormed forallb] in *.
  destruct (URI.is_trailing_surrogate c); [discriminate|].
  destruct (URI.is_leading_surrogate c) eqn:El.
  - destruct rest as [|d rest']; [discriminate|].
    apply andb_true_iff in Hwf. destruct Hwf as [Hd Hwf]. cbn [forallb].
    unfold URI.is_leading_surrogate, URI.is_trailing_surrogate in *.
    apply andb_true_iff in El, Hd. rewrite !N.leb_le in El, Hd.
    rewrite !andb_true_iff. repeat split.
    + apply N.ltb_lt. lia.
    + apply N.ltb_lt. lia.
    + apply (IH (List.length rest')); subst; cbn; auto with arith.
  - apply andb_true_iff in Hwf. destruct Hwf as [Hc Hwf]. rewrite Hc. cbn [andb].
    apply (IH (List.length rest)); subst; cbn; auto with arith.
Qed.

Lemma round_trip_occurrences (m : list (jsstring * value)) :
  Forall (fun entry => round_trip_entry entry = true) m ->
  Forall (fun occ => isWellFormed (fst occ) = true /\
                     exists t, snd occ = VString t /\ isWellFormed t = true)
         (occurrences m) /\
  Forall (fun entry => isWellFormed (fst entry) = true) m.
Proof.
  induction 1 as [|[key v] m He Hm [IH1 IH2]]; [split; constructor|].
  unfold round_trip_entry in He. cbn [fst snd] in He.
  rewrite !andb_true_iff in He. destruct He as [[Hk _] Hv].
  split; [|constructor; assumption].
  rewrite (occurrences_cons (key, v) m). apply Forall_app. split; [|exact IH1].
  unfold occurrences. cbn [flat_map]. rewrite app_nil_r.
  destruct v; try discriminate; cbn [round_trip_value] in Hv.
  - constructor; [|constructor]. cbn [fst snd]. split; [exact Hk | eauto].
  - apply andb_true_iff in Hv. destruct Hv as [_ Hall]. rewrite forallb_forall in Hall.
    apply Forall_forall. intros occ Hin. apply in_map_iff in Hin.
    destruct Hin as (e & <- & Hin). cbn [fst snd]. split; [exact Hk|].
    specialize (Hall e Hin). destruct e; try discriminate. eauto.
Qed.

Lemma written_flat_pairs (m : list (jsstring * value)) :
  Forall (fun entry => round_trip_entry entry = true) m ->
  map (written (stringify_fn_of None)) (occurrences m) = flat_pairs m.
Proof.
  induction 1 as [|[key v] m He Hm IH]; [reflexivity|].
  rewrite (occurrences_cons (key, v) m), map_app, IH, (flat_pairs_cons (key, v) m).
  f_equal. unfold round_trip_entry in He. cbn [fst snd] in He.
  rewrite !andb_true_iff in He. destruct He as [_ Hv].
  unfold occurrences, flat_pairs. cbn [flat_map fst snd]. rewrite !app_nil_r.
  destruct v; try discriminate; [reflexivity|].
  cbn [round_trip_value] in Hv. apply andb_true_iff in Hv. destruct Hv as [_ Hall].
  rewrite map_map. apply map_ext_in. intros e Hin.
  rewrite forallb_forall in Hall. specialize (Hall e Hin).
  destruct e; try discriminate. reflexivity.
Qed.

(** X2. The round trip holds with custom separators too, of any length,
    as long as the encoding cannot collide with them: for a mapping of
    well-formed strings and sequences of at least two of them, with
    distinct well-formed keys that are not inherited,
    parse(stringify(m, sep, eq), sep, eq) is m. *)
Theorem round_trip_custom_separators (m : list (jsstring * value))
        (sep eq : option jsstring) :
  safe_separators (or_default sep (js "&")) (eq_of eq) = true ->
  NoDup (map fst m) ->
  Forall (fun entry => round_trip_entry entry = true) m ->
  exists s,
    outcome (stringify (AObject m) sep eq None) = Normal s /\
    outcome (parse (AValue (VString s)) sep eq None) = Normal (record m).
Proof.
  intros Hsafe Hnd Hall. destruct (round_trip_occurrences Hall) as [Hocc Hkeys].
  assert (Hs : exists s, outcome (stringify (AObject m) sep eq None) = Normal s).
  { rewrite stringify_outcome by reflexivity. cbn [entries].
    destruct (proj2 (emitted_pairs_normal_iff (eq_of eq) (stringify_fn_of None) m))
      as [qs ->]; [|cbn; eauto].
    split.
    - eapply Forall_impl; [|exact Hkeys]. cbn. intros entry Hk.
      now apply encodes_well_formed.
    - eapply Forall_impl; [|exact Hocc]. intros [k v] [_ (t & E & Ht)].
      cbn [fst snd stringify_fn_of] in *. subst v. now apply encodes_well_formed. }
  destruct Hs as [s Hs]. exists s. split; [exact Hs|].
  destruct (@stringify_written (AObject m) sep eq None s eq_refl Hs) as [Hseq ->].
  unfold outcome. rewrite parse_written_groups.
  - cbn [fst entries]. rewrite (written_flat_pairs Hall).
    change empty_object with (record []). f_equal. now apply store_pairs_record.
  - exact Hsafe.
  - apply (@written_well_formed _ _ _ _ Hseq). cbn [entries].
    eapply Forall_impl; [|exact Hocc].
    intros [k v] [Hk (t & E & Ht)]. cbn [fst snd stringify_fn_of] in *. subst v.
    split; now apply well_formed_code_units.
Qed.

Lemma round_trip_custom_separators_witness :
  exists s,
    outcome (stringify (AObject [(js "a", str "1"); (js "b", VArray [str "s"; str "s2"])])
                       (Some (js "||")) (Some (js "#")) None) = Normal s /\
    outcome (parse (AValue (VString s)) (Some (js "||")) (Some (js "#")) None) =
      Normal (record [(js "a", str "1"); (js "b", VArray [str "s"; str "s2"])]).
Proof.
  apply (@round_trip_custom_separators
           [(js "a", str "1"); (js "b", VArray [str "s"; str "s2"])]
           (Some (js "||")) (Some (js "#"))).
  - reflexivity.
  - repeat constructor; cbn; intuition discriminate.
  - repeat constructor.
Defined.

(** ** The shape of the serializer's result *)

(** X3. Whatever the values, the result of stringify holds nothing but
    code units the encoder writes (letters, digits, - _ . ! ~ * ' ( ) and
    "%") and the code units of the two separators. *)
Theorem stringify_output_alphabet (obj : any) (sep eq : option jsstring)
        (fn : option StringifyFunction) (s : jsstring) :
  isObject obj = true ->
  Forall (fun occ => forallb is_code_unit (fst occ) = true /\
                     forallb is_code_unit
                       (ToString (stringify_fn_of fn (fst occ) (snd occ))) = true)
         (occurrences (entries obj)) ->
  outcome (stringify obj sep eq fn) = Normal s ->
  Forall (fun c => uri_output c = true \/ In c (or_default sep (js "&")) \/ In c (eq_of eq)) s.
Proof.
  intros Ho Hcu Hs. destruct (@stringify_written _ _ _ _ _ Ho Hs) as [Hseq ->].
  pose proof (@written_well_formed _ _ _ _ Hseq Hcu) as Hwf.
  apply Forall_join; [apply Forall_forall; auto|].
  apply Forall_forall. intros g Hg. apply in_map_iff in Hg. destruct Hg as (kv & <- & Hkv).
  rewrite Forall_forall in Hwf. destruct (Hwf _ Hkv) as [Hk Hv].
  unfold group_with. rewrite !Forall_app. repeat split.
  - destruct (encoded_well_formed _ Hk) as [He _].
    eapply Forall_impl; [|exact (@Encode_output _ _ Hk He)]. cbn. auto.
  - apply Forall_forall. auto.
  - destruct (encoded_well_formed _ Hv) as [He _].
    eapply Forall_impl; [|exact (@Encode_output _ _ Hv He)]. cbn. auto.
Qed.

Lemma stringify_output_alphabet_witness :
  Forall (fun c => uri_output c = true \/ In c (js "&") \/ In c (js "="))
         (js "a%20b=%E2%82%AC&n=-7").
Proof.
  apply (@stringify_output_alphabet
           (AObject [(js "a b", VString [8364%N]); (js "n", VNumber (-7))])
           None None None (js "a%20b=%E2%82%AC&n=-7")).
  - reflexivity.
  - repeat constructor.
  - reflexivity.
Defined.

(** X4. The result of stringify is the empty string exactly when the
    mapping has no scalar occurrence: no key, or only keys whose value is
    undefined or an empty sequence. *)
Theorem stringify_empty_iff (obj : any) (sep eq : option jsstring)
        (fn : option StringifyFunction) (s : jsstring) :
  isObject obj = true ->
  outcome (stringify obj sep eq fn) = Normal s ->
  (s = [] <-> occurrences (entries obj) = []).
Proof.
  intros Ho Hs. destruct (@stringify_written _ _ _ _ _ Ho Hs) as [_ ->].
  destruct (occurrences (entries obj)) as [|occ occs]; [split; reflexivity|].
  split; [|discriminate]. cbn [map]. intros H. exfalso. revert H.
  apply join_nonempty. unfold group_with. intros H.
  apply app_eq_nil in H. destruct H as [_ H]. apply app_eq_nil in H. destruct H as [H _].
  revert H. unfold eq_of. apply or_default_nonempty. discriminate.
Qed.

Lemma stringify_empty_iff_witness :
  ([] : jsstring) = [] <-> occurrences [(js "a", VUndefined); (js "b", VArray [])] = [].
Proof.
  apply (@stringify_empty_iff (AObject [(js "a", VUndefined); (js "b", VArray [])])
           None None None []); reflexivity.
Defined.

(** ** What a key collects *)

(** The insertion step on a key other than [__proto__], in full. *)
Lemma store_exact (o : object) (key : jsstring) (w : value) :
  plain_prototype o -> key <> proto_key ->
  store o key w =
  {| own := assoc_set key (merged (Get o key) w) (own o); proto := proto o |}.
Proof.
  intros Hplain Hne. unfold store.
  destruct (isArray (Get o key)) eqn:Ea.
  - destruct (assoc_get key (own o)) as [w0|] eqn:E.
    + rewrite (Get_own _ _ E) in *. destruct w0; try discriminate.
      cbn [is_undefined isArray negb merged]. exact (push_own _ _ w E).
    + rewrite Get_inherited_not_array in Ea by assumption. discriminate.
  - destruct (is_undefined (Get o key)) eqn:Eu; cbn [negb].
    + rewrite Put_own by exact Hne. destruct (Get o key); try discriminate. reflexivity.
    + rewrite Put_own by exact Hne.
      rewrite push_own with (w0 := VArray [Get o key])
        by (cbn [own]; apply assoc_get_set_same).
      cbn [own proto pushed app]. rewrite assoc_set_set.
      destruct (Get o key); try discriminate; reflexivity.
Qed.

Lemma values_of_app (fn : ParseFunction) (key : jsstring)
      (pairs : list (jsstring * jsstring)) (kv : jsstring * jsstring) :
  values_of fn key (pairs ++ [kv]) =
  values_of fn key pairs ++
  (if jsstring_eqb (fst kv) key then [fn (fst kv) (snd kv)] else []).
Proof.
  unfold values_of. rewrite filter_app, map_app. cbn [filter].
  destruct (jsstring_eqb (fst kv) key); reflexivity.
Qed.

Lemma collected_snoc (vs : list value) (w : value) :
  Forall (fun v => is_scalar v = true) vs ->
  collected (vs ++ [w]) =
  Some (merged (match collected vs with Some v => v | None => VUndefined end) w).
Proof.
  intros Hs. destruct vs as [|v0 [|v1 vs]]; [reflexivity| |reflexivity].
  apply Forall_inv in Hs. unfold is_scalar in Hs. cbn [app collected].
  destruct v0; try discriminate; reflexivity.
Qed.

Lemma fold_store_collects (fn : ParseFunction) (pairs : list (jsstring * jsstring)) :
  (forall k v, is_scalar (fn k v) = true) ->
  ~ In proto_key (map fst pairs) ->
  proto (fold_left (store_pair fn) pairs empty_object) = None /\
  assoc_get proto_key (own (fold_left (store_pair fn) pairs empty_object)) = None /\
  forall key, inherited key = false ->
    assoc_get key (own (fold_left (store_pair fn) pairs empty_object)) =
    collected (values_of fn key pairs).
Proof.
  intros Hfn. induction pairs as [|kv pairs IH] using rev_ind; intros Hno.
  - repeat split.
  - rewrite map_app, in_app_iff in Hno. cbn [map In] in Hno.
    destruct IH as (Hp & Hown & Hget); [tauto|].
    assert (Hne : fst kv <> proto_key) by (intros E; apply Hno; auto).
    rewrite fold_left_app. cbn [fold_left]. unfold store_pair at 1 3 5.
    set (o := fold_left (store_pair fn) pairs empty_object) in *.
    assert (Hplain : plain_prototype o).
    { split; [exact Hown|]. rewrite Hp. discriminate. }
    rewrite (store_exact _ Hplain Hne). cbn [own proto].
    split; [exact Hp|]. split.
    + rewrite assoc_get_set_other by congruence. exact Hown.
    + intros key Hkey. rewrite values_of_app.
      destruct (jsstring_eqb (fst kv) key) eqn:Ek.
      * apply jsstring_eqb_eq in Ek. rewrite Ek in *. rewrite assoc_get_set_same.
        rewrite collected_snoc.
        -- do 2 f_equal. unfold Get. rewrite (Hget _ Hkey), Hp.
           destruct (collected (values_of fn key pairs)); [reflexivity|].
           now destruct (not_inherited _ Hkey) as [_ ->].
        -- unfold values_of. apply Forall_map, Forall_forall. intros x _. apply Hfn.
      * apply jsstring_eqb_neq in Ek. rewrite assoc_get_set_other by congruence.
        rewrite app_nil_r. now apply Hget.
Qed.

(** X5. What parse collects under a key. When no decoded key is
    [__proto__] and the callback returns scalars (as the default one does),
    a key that is not inherited holds exactly the transformed values of the
    groups with that key, across the whole input and in encounter order:
    nothing if there is none, the value itself if there is one, the
    sequence of all of them otherwise. *)
Theorem parse_collects_values_per_key (s : jsstring) (sep eq : option jsstring)
        (fn : option ParseFunction) (o : object) (key : jsstring) :
  (forall k v, is_scalar (parse_fn_of fn k v) = true) ->
  ~ In proto_key (map fst (decoded_pairs (eq_of eq) (groups_of s sep))) ->
  inherited key = false ->
  outcome (parse (AValue (VString s)) sep eq fn) = Normal o ->
  assoc_get key (own o) =
    collected (values_of (parse_fn_of fn) key (decoded_pairs (eq_of eq) (groups_of s sep))) /\
  Get o key =
    match values_of (parse_fn_of fn) key (decoded_pairs (eq_of eq) (groups_of s sep)) with
    | [] => VUndefined
    | [v] => v
    | vs => VArray vs
    end.
Proof.
  intros Hfn Hno Hkey Ho. unfold outcome in Ho. rewrite parse_run in Ho. cbn [fst] in Ho.
  destruct (existsb (undecodable (eq_of eq)) (groups_of s sep)); [discriminate|].
  injection Ho as <-.
  destruct (@fold_store_collects _ _ Hfn Hno) as (Hp & _ & Hget).
  split; [now apply Hget|].
  unfold Get. rewrite (Hget _ Hkey), Hp.
  destruct (values_of (parse_fn_of fn) key (decoded_pairs (eq_of eq) (groups_of s sep)))
    as [|v0 [|v1 vs]]; cbn [collected]; try reflexivity.
  now destruct (not_inherited _ Hkey) as [_ ->].
Qed.

Lemma parse_collects_values_per_key_witness :
  Get (record [(js "a", VArray [str "1"; str "3"; str "4"]); (js "b", str "2")]) (js "a") =
  VArray [str "1"; str "3"; str "4"].
Proof.
  apply (@parse_collects_values_per_key (js "a=1&b=2&a=3&x&a=4") None None None
           (record [(js "a", VArray [str "1"; str "3"; str "4"]); (js "b", str "2")])
           (js "a")).
  - intros k v. reflexivity.
  - cbn. intuition discriminate.
  - reflexivity.
  - reflexivity.
Defined.

(** ** The result of parse as a source of stringify *)

Lemma assoc_get_In (key : jsstring) (v : value) (props : list (jsstring * value)) :
  assoc_get key props = Some v -> In (key, v) props.
Proof.
  induction props as [|[k u] props IH]; cbn; [discriminate|].
  destruct (jsstring_eqb k key) eqn:E.
  - apply jsstring_eqb_eq in E. intros [= ->]. left. now subst.
  - intros H. right. now apply IH.
Qed.

Lemma In_assoc_get (key : jsstring) (v : value) (props : list (jsstring * value)) :
  NoDup (map fst props) -> In (key, v) props -> assoc_get key props = Some v.
Proof.
  induction props as [|[k u] props IH]; cbn; [intros _ []|].
  intros Hnd [[= -> ->] | Hin].
  - now rewrite jsstring_eqb_refl.
  - inversion Hnd as [|? ? Hk Hnd']; subst.
    replace (jsstring_eqb k key) with false; [now apply IH|].
    symmetry. apply jsstring_eqb_neq. intros ->. apply Hk.
    apply in_map_iff. exists (key, v). auto.
Qed.

Lemma assoc_set_NoDup (key : jsstring) (v : value) (props : list (jsstring * value)) :
  NoDup (map fst props) -> NoDup (map fst (assoc_set key v props)).
Proof.
  induction props as [|[k u] props IH]; cbn; intros Hnd.
  - repeat constructor. intros [].
  - inversion Hnd as [|? ? Hk Hnd']; subst.
    destruct (jsstring_eqb k key) eqn:E; cbn; [now constructor|].
    constructor; [|now apply IH].
    intros Hin. apply assoc_set_keys in Hin. destruct Hin as [-> | Hin]; [|contradiction].
    now rewrite jsstring_eqb_refl in E.
Qed.

(** Two listings of the same properties, with distinct keys, answer every
    lookup alike. *)
Lemma assoc_get_Permutation (m m' : list (jsstring * value)) (key : jsstring) :
  NoDup (map fst m) -> Permutation m' m -> assoc_get key m' = assoc_get key m.
Proof.
  intros Hnd Hperm.
  assert (Hnd' : NoDup (map fst m')).
  { eapply Permutation_NoDup; [|exact Hnd]. apply Permutation_map, Permutation_sym, Hperm. }
  destruct (assoc_get key m) as [v|] eqn:E.
  - apply In_assoc_get; [exact Hnd'|].
    eapply Permutation_in; [apply Permutation_sym, Hperm|]. now apply assoc_get_In.
  - destruct (assoc_get key m') as [v|] eqn:E'; [|reflexivity].
    apply assoc_get_In in E'. eapply Permutation_in in E'; [|exact Hperm].
    apply In_assoc_get in E'; [congruence | exact Hnd].
Qed.

Lemma fold_store_NoDup (fn : ParseFunction) (pairs : list (jsstring * jsstring)) :
  (forall k v, is_scalar (fn k v) = true) ->
  ~ In proto_key (map fst pairs) ->
  NoDup (map fst (own (fold_left (store_pair fn) pairs empty_object))).
Proof.
  intros Hfn. induction pairs as [|kv pairs IH] using rev_ind; intros Hno.
  - constructor.
  - rewrite map_app, in_app_iff in Hno. cbn [map In] in Hno.
    assert (Hno' : ~ In proto_key (map fst pairs)) by tauto.
    assert (Hne : fst kv <> proto_key) by (intros E; apply Hno; auto).
    destruct (@fold_store_collects _ _ Hfn Hno') as (Hp & Hown & _).
    rewrite fold_left_app. cbn [fold_left]. unfold store_pair at 1.
    rewrite store_exact; [|split; [exact Hown | rewrite Hp; discriminate] | exact Hne].
    cbn [own]. apply assoc_set_NoDup. now apply IH.
Qed.

Lemma round_trip_pair_spec (kv : jsstring * jsstring) :
  round_trip_pair kv = true ->
  inherited (fst kv) = false /\ isWellFormed (fst kv) = true /\
  isWellFormed (snd kv) = true /\ fst kv <> proto_key.
Proof.
  unfold round_trip_pair. rewrite !andb_true_iff, negb_true_iff.
  intros [[Hi Hk] Hv]. repeat split; try assumption.
  intros E. rewrite E in Hi. discriminate.
Qed.

(** With the default callback and pairs the round trip can carry, parse
    builds a mapping the round trip can carry. *)
Lemma fold_store_round_trip (pairs : list (jsstring * jsstring)) :
  Forall (fun kv => round_trip_pair kv = true) pairs ->
  proto (fold_left (store_pair (parse_fn_of None)) pairs empty_object) = None /\
  NoDup (map fst (own (fold_left (store_pair (parse_fn_of None)) pairs empty_object))) /\
  Forall (fun entry => round_trip_entry entry = true)
         (own (fold_left (store_pair (parse_fn_of None)) pairs empty_object)).
Proof.
  intros Hall.
  assert (Hfn : forall k v, is_scalar (parse_fn_of None k v) = true) by reflexivity.
  assert (Hno : ~ In proto_key (map fst pairs)).
  { intros Hin. apply in_map_iff in Hin. destruct Hin as (kv & E & Hin).
    rewrite Forall_forall in Hall. apply Hall, round_trip_pair_spec in Hin. tauto. }
  destruct (@fold_store_collects _ _ Hfn Hno) as (Hp & _ & Hget).
  pose proof (@fold_store_NoDup _ _ Hfn Hno) as Hnd.
  split; [exact Hp|]. split; [exact Hnd|].
  apply Forall_forall. intros [key w] Hin.
  assert (Hkey : In key (map fst pairs)).
  { assert (H : In key (map fst (own (fold_left (store_pair (parse_fn_of None)) pairs
                                                empty_object))))
      by (apply in_map_iff; exists (key, w); auto).
    apply fold_store_keys in H. destruct H as [[]|H]. exact H. }
  apply in_map_iff in Hkey. destruct Hkey as (kv & <- & Hkv).
  rewrite Forall_forall in Hall.
  destruct (round_trip_pair_spec _ (Hall _ Hkv)) as (Hi & Hk & _ & _).
  apply In_assoc_get in Hin; [|exact Hnd]. rewrite (Hget _ Hi) in Hin.
  unfold round_trip_entry. cbn [fst snd]. rewrite Hk, Hi. cbn [negb andb].
  assert (Hvs : Forall (fun v => match v with VString t => isWellFormed t | _ => false end
                                 = true)
                       (values_of (parse_fn_of None) (fst kv) pairs)).
  { unfold values_of. apply Forall_map, Forall_forall. intros x Hx.
    apply filter_In in Hx. destruct Hx as [Hx _].
    now destruct (round_trip_pair_spec _ (Hall _ Hx)) as (_ & _ & Hv & _). }
  destruct (values_of (parse_fn_of None) (fst kv) pairs) as [|v0 [|v1 vs]];
    cbn [collected] in Hin; [discriminate| |]; injection Hin as <-.
  - apply Forall_inv in Hvs. destruct v0; try discriminate. exact Hvs.
  - cbn [round_trip_value List.length Nat.leb andb]. now apply forallb_forall, Forall_forall.
Qed.

(** X6. A result of parse goes through stringify and parse unchanged.
    When parse, with the default callback, returns a mapping from keys
    that are not inherited and well-formed keys and values, stringify
    succeeds on that mapping, in whatever order its properties are
    listed, and parsing the string gives a mapping that reads the same
    under every key. *)
Theorem parse_result_round_trips (s : jsstring) (sep eq : option jsstring) (o : object)
        (m' : list (jsstring * value)) :
  Forall (fun kv => round_trip_pair kv = true)
         (decoded_pairs (eq_of eq) (groups_of s sep)) ->
  outcome (parse (AValue (VString s)) sep eq None) = Normal o ->
  Permutation m' (own o) ->
  exists s' o',
    outcome (stringify (AObject m') None None None) = Normal s' /\
    outcome (parse (AValue (VString s')) None None None) = Normal o' /\
    forall key, Get o' key = Get o key.
Proof.
  intros Hall Ho Hperm. destruct (fold_store_round_trip Hall) as (Hp & Hnd & Hrt).
  assert (Eo : fold_left (store_pair (parse_fn_of None))
                         (decoded_pairs (eq_of eq) (groups_of s sep)) empty_object = o).
  { unfold outcome in Ho. rewrite parse_run in Ho. cbn [fst] in Ho.
    destruct (existsb (undecodable (eq_of eq)) (groups_of s sep)); [discriminate|].
    injection Ho as Ho. exact Ho. }
  rewrite Eo in Hp, Hnd, Hrt. clear Eo Ho Hall.
  assert (Hnd' : NoDup (map fst m')).
  { eapply Permutation_NoDup; [|exact Hnd]. apply Permutation_map, Permutation_sym, Hperm. }
  assert (Hrt' : Forall (fun entry => round_trip_entry entry = true) m').
  { eapply Permutation_Forall; [apply Permutation_sym, Hperm | exact Hrt]. }
  destruct (parse_stringify_strings Hnd' Hrt') as (s' & Hs' & Hp').
  exists s', (record m'). split; [exact Hs'|]. split; [exact Hp'|].
  intros key. unfold Get. cbn [own proto record]. rewrite Hp.
  now rewrite (@assoc_get_Permutation (own o) m' key Hnd Hperm).
Qed.

Lemma parse_result_round_trips_witness :
  exists s' o',
    outcome (stringify (AObject [(js "b", str "2"); (js "a", VArray [str "1"; str "3"])])
                       None None None) = Normal s' /\
    outcome (parse (AValue (VString s')) None None None) = Normal o' /\
    forall key, Get o' key =
                Get (record [(js "a", VArray [str "1"; str "3"]); (js "b", str "2")]) key.
Proof.
  apply (@parse_result_round_trips (js "http://h/p?a=1&b=2&a=3") None None
           (record [(js "a", VArray [str "1"; str "3"]); (js "b", str "2")])
           [(js "b", str "2"); (js "a", VArray [str "1"; str "3"])]).
  - repeat constructor.
  - reflexivity.
  - apply perm_swap.
Defined.

(** ** Input without escapes, and the URL prefix *)

Lemma Decode_percent_free (s : jsstring) :
  Forall (fun c => c <> 37%N) s -> URI.Decode s = Normal s.
Proof.
  induction 1 as [|c s Hc Hs IH]; [reflexivity|].
  rewrite Decode_plain by exact Hc. now rewrite IH.
Qed.

Lemma split_from_units (sep : jsstring) (skip : nat) (cur s p : jsstring) (c : code_unit) :
  In p (split_from sep skip cur s) -> In c p -> In c cur \/ In c s.
Proof.
  revert skip cur. induction s as [|a s IH]; intros skip cur Hp Hc; cbn [split_from] in Hp.
  - destruct Hp as [<- | []]. now left.
  - destruct skip as [|n].
    + destruct (starts_with sep (a :: s)).
      * destruct Hp as [<- | Hp]; [now left|].
        destruct (IH _ _ Hp Hc) as [[] | H]. right. now right.
      * destruct (IH _ _ Hp Hc) as [H | H]; [|right; now right].
        apply in_app_iff in H. destruct H as [H | [<- | []]]; [now left | right; now left].
    + destruct (IH _ _ Hp Hc) as [H | H]; [now left | right; now right].
Qed.

(** The parts of a split hold only code units of the string. *)
Lemma split_units (s sep p : jsstring) (c : code_unit) :
  In p (split s sep) -> In c p -> In c s.
Proof.
  unfold split. destruct sep as [|c0 sep'].
  - intros Hp Hc. apply in_map_iff in Hp. destruct Hp as (a & <- & Ha).
    destruct Hc as [<- | []]. exact Ha.
  - intros Hp Hc. destruct (@split_from_units _ _ _ _ _ _ Hp Hc) as [[] | H]. exact H.
Qed.

Lemma match_query_prefix_units (s r : jsstring) (c : code_unit) :
  match_query_prefix s = Some r -> In c r -> In c s.
Proof.
  revert r. induction s as [|a s IH]; intros r H Hc; cbn [match_query_prefix] in H;
    [discriminate|].
  destruct (a =? 63)%N.
  - injection H as <-. now right.
  - destruct (is_line_terminator a); [discriminate|]. right. eapply IH; eassumption.
Qed.

Lemma replace_query_prefix_units (s : jsstring) (c : code_unit) :
  In c (replace_query_prefix s) -> In c s.
Proof.
  induction s as [|a s IH]; cbn [replace_query_prefix]; [exact (fun H => H)|].
  destruct (match_query_prefix (a :: s)) as [r|] eqn:E.
  - now apply match_query_prefix_units.
  - intros [<- | H]; [now left | right; now apply IH].
Qed.

Lemma decoded_pairs_percent_free (eq : jsstring) (groups : list jsstring) :
  Forall (Forall (fun c => c <> 37%N)) groups ->
  decoded_pairs eq groups = raw_pairs eq groups /\
  existsb (undecodable eq) groups = false.
Proof.
  induction 1 as [|g groups Hg Hgroups [IH1 IH2]]; [split; reflexivity|].
  cbn [decoded_pairs existsb raw_pairs flat_map]. unfold undecodable at 1, retained.
  assert (Hparts : forall p, In p (split g eq) -> URI.Decode p = Normal p).
  { intros p Hp. apply Decode_percent_free, Forall_forall. intros c Hc.
    rewrite Forall_forall in Hg. apply Hg. eapply split_units; eassumption. }
  fold (raw_pairs eq groups). rewrite IH1, IH2.
  destruct (split g eq) as [|rk [|rv [|x l]]]; cbn [List.length Nat.eqb andb orb app];
    try (split; reflexivity).
  cbn [nth]. unfold decodeURIComponent.
  rewrite (Hparts rk), (Hparts rv) by (cbn; auto). split; reflexivity.
Qed.

(** X7. On a source without "%" parse raises no error, and the key and the
    value of every retained group are taken as they are written (a "+", in
    particular, stays a "+"). *)
Theorem parse_percent_free (s : jsstring) (sep eq : option jsstring)
        (fn : option ParseFunction) :
  ~ In 37%N s ->
  run (parse (AValue (VString s)) sep eq fn) =
  (Normal (fold_left (store_pair (parse_fn_of fn))
                     (raw_pairs (eq_of eq) (groups_of s sep)) empty_object),
   map logged (raw_pairs (eq_of eq) (groups_of s sep))).
Proof.
  intros Hs. rewrite parse_run.
  destruct (@decoded_pairs_percent_free (eq_of eq) (groups_of s sep)) as [-> ->];
    [|reflexivity].
  apply Forall_forall. intros g Hg. apply Forall_forall. intros c Hc ->. apply Hs.
  apply replace_query_prefix_units. unfold groups_of in Hg. eapply split_units; eassumption.
Qed.

Lemma parse_percent_free_witness :
  run (parse (AValue (str "q=a+b&r")) None None None) =
  (Normal (record [(js "q", str "a+b")]), [(js "q", str "a+b")]).
Proof.
  apply (@parse_percent_free (js "q=a+b&r") None None None).
  cbn. intuition discriminate.
Defined.

(** X8. A URL is accepted in place of its query: when no line terminator
    and no "?" comes before the "?" that starts the query, and the query
    holds no further "?", parse of the whole is parse of the query. *)
Theorem parse_url_prefix (p q : jsstring) (sep eq : option jsstring)
        (fn : option ParseFunction) :
  Forall (fun c => (c =? 63)%N = false /\ is_line_terminator c = false) p ->
  Forall (fun c => (c =? 63)%N = false) q ->
  run (parse (AValue (VString (p ++ 63%N :: q))) sep eq fn) =
  run (parse (AValue (VString q)) sep eq fn).
Proof.
  intros Hp Hq. rewrite !parse_run. unfold groups_of.
  now rewrite (replace_query_prefix_first q Hp), (replace_query_prefix_none Hq).
Qed.

Lemma parse_url_prefix_witness :
  run (parse (AValue (str "http://foo.com/p?a=1&b=s")) None None None) =
  run (parse (AValue (str "a=1&b=s")) None None None).
Proof.
  apply (@parse_url_prefix (js "http://foo.com/p") (js "a=1&b=s") None None None).
  - repeat constructor.
  - repeat constructor.
Defined.

(** ** Defaults and the object test *)

Lemma or_default_idempotent (sep : option jsstring) (d : jsstring) :
  or_default (Some (or_default sep d)) d = or_default sep d.
Proof. destruct sep as [[|c s]|]; cbn; destruct d; reflexivity. Qed.

(** X9. Leaving a separator or the callback out, or passing null or the
    empty string for a separator, is the same as passing the default
    explicitly: "&", "=" and the callback that returns the value; in
    particular null and the empty string are not separators of their
    own. *)
Theorem defaults_are_explicit (a : any) (sep eq : option jsstring)
        (pfn : option ParseFunction) (sfn : option StringifyFunction) :
  run (parse a sep eq pfn) =
    run (parse a (Some (or_default sep (js "&"))) (Some (or_default eq (js "=")))
               (Some (parse_fn_of pfn))) /\
  run (stringify a sep eq sfn) =
    run (stringify a (Some (or_default sep (js "&"))) (Some (or_default eq (js "=")))
                   (Some (stringify_fn_of sfn))) /\
  run (parse a (Some []) (Some []) pfn) = run (parse a None None pfn) /\
  run (stringify a (Some []) (Some []) sfn) = run (stringify a None None sfn).
Proof.
  assert (Hparse : forall sep eq, run (parse a sep eq pfn) =
    run (parse a (Some (or_default sep (js "&"))) (Some (or_default eq (js "=")))
               (Some (parse_fn_of pfn)))).
  { intros sep0 eq0. destruct (nonempty_string a) eqn:E.
    - destruct a as [[| | | |[|c s]| |]|]; try discriminate.
      rewrite !parse_run. unfold groups_of, eq_of.
      now rewrite !or_default_idempotent.
    - now rewrite !parse_not_string by exact E. }
  assert (Hstr : forall sep eq, run (stringify a sep eq sfn) =
    run (stringify a (Some (or_default sep (js "&"))) (Some (or_default eq (js "=")))
                   (Some (stringify_fn_of sfn)))).
  { intros sep0 eq0. destruct (isObject a) eqn:E.
    - rewrite !stringify_object by exact E. unfold eq_of.
      now rewrite !or_default_idempotent.
    - rewrite !stringify_not_object; [reflexivity| |]; rewrite E; apply orb_true_r. }
  split; [apply Hparse|]. split; [apply Hstr|]. split.
  - now rewrite (Hparse (Some []) (Some [])), (Hparse None None).
  - now rewrite (Hstr (Some []) (Some [])), (Hstr None None).
Qed.

(** X10. [isObject] accepts exactly the arrays, the functions and the
    other objects; it rejects undefined, null and every primitive, also
    the truthy ones, so that the test [obj == null] before it never
    decides, and stringify gives the empty string for all of these without
    calling the callback. *)
Theorem isObject_accepts_objects (a : any) (sep eq : option jsstring)
        (fn : option StringifyFunction) :
  isObject a = match a with
               | AObject _ | AValue (VArray _) | AValue (VIntrinsic _) => true
               | AValue _ => false
               end /\
  is_nullish a || negb (isObject a) = negb (isObject a) /\
  (isObject a = false -> run (stringify a sep eq fn) = (Normal [], [])).
Proof.
  split; [|split].
  - destruct a as [[| |[]|n|[|c s]| |[]]|]; try reflexivity.
    unfold isObject, truthy, typeof. destruct (n =? 0)%Z; reflexivity.
  - destruct a as [[]|]; reflexivity.
  - intros H. apply stringify_not_object. rewrite H. apply orb_true_r.
Qed.

Lemma isObject_accepts_objects_witness :
  run (stringify (AValue (VNumber 5)) None None (Some (fun _ v => v))) = (Normal [], []).
Proof.
  apply (@isObject_accepts_objects (AValue (VNumber 5)) None None (Some (fun _ v => v))).
  reflexivity.
Defined.

(** ** Equal separators *)

Section Split_pieces.

Variable c0 : code_unit.
Variable sep' : jsstring.

Lemma starts_with_prefix (p s t : jsstring) :
  starts_with p s = true -> starts_with p (s ++ t) = true.
Proof.
  revert s. induction p as [|x p IH]; intros s H; [reflexivity|].
  destruct s as [|y s]; [discriminate|]. cbn [starts_with app] in *.
  apply andb_true_iff in H. destruct H as [-> H]. now apply IH.
Qed.

(** A string in which the separator occurs nowhere is a single piece. *)
Lemma split_from_no_match (cur p : jsstring) :
  (forall t1 t2, p = t1 ++ t2 -> starts_with (c0 :: sep') t2 = false) ->
  split_from (c0 :: sep') 0 cur p = [cur ++ p].
Proof.
  revert cur. induction p as [|a p IH]; intros cur H.
  - now rewrite app_nil_r.
  - cbn [split_from]. rewrite (H [] (a :: p) eq_refl).
    rewrite IH; [now rewrite <- app_assoc|].
    intros t1 t2 ->. now apply (H (a :: t1) t2).
Qed.

(** No piece of a split holds the separator: the scan cuts at the leftmost
    occurrence, so none starts in the part collected before it. *)
Lemma split_from_pieces (s cur : jsstring) (skip : nat) (p : jsstring) :
  skip = 0%nat \/ cur = [] ->
  (forall t1 t2, cur = t1 ++ t2 -> t2 <> [] ->
                 starts_with (c0 :: sep') (t2 ++ s) = false) ->
  In p (split_from (c0 :: sep') skip cur s) ->
  forall t1 t2, p = t1 ++ t2 -> starts_with (c0 :: sep') t2 = false.
Proof.
  revert cur skip. induction s as [|a s IH]; intros cur skip Hskip Hinv Hp t1 t2 E.
  - destruct Hp as [<- | []]. destruct t2 as [|x t2]; [reflexivity|].
    rewrite <- (app_nil_r (x :: t2)). now apply (Hinv t1).
  - cbn [split_from] in Hp. destruct skip as [|n].
    + destruct (starts_with (c0 :: sep') (a :: s)) eqn:Es.
      * destruct Hp as [<- | Hp].
        -- destruct t2 as [|x t2]; [reflexivity|].
           destruct (starts_with (c0 :: sep') (x :: t2)) eqn:E2; [|reflexivity].
           apply starts_with_prefix with (t := a :: s) in E2.
           rewrite (Hinv t1 (x :: t2) E) in E2; [discriminate | discriminate].
        -- eapply (IH [] _ (or_intror eq_refl)); [|exact Hp | exact E].
           intros [|? ?] u2 Eu Hu; [|discriminate].
           cbn in Eu. now subst u2.
      * eapply (IH (cur ++ [a]) 0%nat (or_introl eq_refl)); [|exact Hp | exact E].
        intros u1 u2 Eu Hu.
        destruct (@exists_last _ u2 Hu) as (u2' & x & ->).
        rewrite app_assoc in Eu. apply app_inj_tail in Eu. destruct Eu as [Eu ->].
        rewrite <- app_assoc. cbn [app].
        destruct u2' as [|y u2']; [exact Es|].
        apply (Hinv u1); [now symmetry | discriminate].
    + destruct Hskip as [Hskip | ->]; [discriminate|].
      eapply (IH [] n (or_intror eq_refl)); [|exact Hp | exact E].
      intros [|? ?] u2 Eu Hu; [|discriminate].
      cbn in Eu. now subst u2.
Qed.

Lemma split_piece_single (s p : jsstring) :
  In p (split s (c0 :: sep')) -> split p (c0 :: sep') = [p].
Proof.
  intros Hp. unfold split in *.
  rewrite split_from_no_match; [reflexivity|].
  eapply (@split_from_pieces s [] 0%nat p (or_introl eq_refl)); [|exact Hp].
  intros [|? ?] u2 Eu Hu; [|discriminate]. cbn in Eu. now subst u2.
Qed.

End Split_pieces.

(** X11. When the separator between the pairs and the separator between
    key and value are the same string, no group of any source splits into
    a key and a value: parse returns the empty mapping, raises no
    error and never calls the callback. *)
Theorem parse_equal_separators (s : jsstring) (sep eq : option jsstring)
        (fn : option ParseFunction) :
  or_default sep (js "&") = eq_of eq ->
  run (parse (AValue (VString s)) sep eq fn) = (Normal empty_object, []).
Proof.
  intros E. rewrite parse_run.
  assert (H : forall groups, (forall g, In g groups -> retained (eq_of eq) g = false) ->
            existsb (undecodable (eq_of eq)) groups = false /\
            decoded_pairs (eq_of eq) groups = []).
  { induction groups as [|g groups IH]; intros Hg; [split; reflexivity|].
    cbn [existsb decoded_pairs]. unfold undecodable at 1.
    rewrite (Hg g (or_introl eq_refl)). cbn [andb orb].
    apply IH. intros g' Hg'. apply Hg. now right. }
  destruct (H (groups_of s sep)) as [-> ->]; [|reflexivity].
  intros g Hg. unfold groups_of in Hg. rewrite E in Hg. unfold retained.
  assert (Hne : eq_of eq <> []) by (apply or_default_nonempty; discriminate).
  destruct (eq_of eq) as [|c0 sep']; [congruence|].
  now rewrite (split_piece_single _ _ _ _ Hg).
Qed.

Lemma parse_equal_separators_witness :
  run (parse (AValue (str "a=1=b=2")) (Some (js "=")) None (Some (fun _ v => VString v))) =
  (Normal empty_object, []).
Proof.
  apply (@parse_equal_separators (js "a=1=b=2") (Some (js "=")) None
           (Some (fun _ v => VString v))).
  reflexivity.
Defined.

(** ** The key [__proto__] *)

Lemma fold_store_proto (fn : ParseFunction) (pairs : list (jsstring * jsstring))
      (o : object) :
  (forall k v, is_scalar (fn k v) = true) -> plain_prototype o ->
  proto (fold_left (store_pair fn) pairs o) =
    match values_of fn proto_key pairs with
    | [] => proto o
    | vs => Some (match proto o with
                  | None => [VIntrinsic ObjectPrototype]
                  | Some elems => elems
                  end ++ vs)
    end.
Proof.
  intros Hfn. revert o. induction pairs as [|kv pairs IH]; intros o Hplain; [reflexivity|].
  cbn [fold_left]. rewrite IH by (now apply store_plain).
  unfold values_of. cbn [filter]. unfold store_pair.
  destruct (jsstring_eqb (fst kv) proto_key) eqn:Ek; cbn [map].
  - apply jsstring_eqb_eq in Ek. rewrite Ek.
    rewrite store_proto_key by apply Hplain. cbn [proto].
    fold (values_of fn proto_key pairs).
    destruct (values_of fn proto_key pairs) as [|v vs]; [reflexivity|].
    now rewrite <- app_assoc.
  - apply jsstring_eqb_neq in Ek.
    destruct (store_own_key (fn (fst kv) (snd kv)) Hplain Ek) as (w' & -> & _).
    reflexivity.
Qed.

(** X12. The key [__proto__] never becomes a property of the result: it
    replaces the prototype of the result. With a callback that returns
    scalars (as the default one does), the result keeps the prototype of an
    object literal exactly when no decoded key is [__proto__]; otherwise
    its prototype is the array of Object.prototype followed by the
    transformed values of these groups, in encounter order. *)
Theorem parse_proto_key_replaces_prototype (s : jsstring) (sep eq : option jsstring)
        (fn : option ParseFunction) (o : object) :
  (forall k v, is_scalar (parse_fn_of fn k v) = true) ->
  outcome (parse (AValue (VString s)) sep eq fn) = Normal o ->
  assoc_get proto_key (own o) = None /\
  proto o =
    match values_of (parse_fn_of fn) proto_key
                    (decoded_pairs (eq_of eq) (groups_of s sep)) with
    | [] => None
    | vs => Some (VIntrinsic ObjectPrototype :: vs)
    end /\
  Get o proto_key =
    match values_of (parse_fn_of fn) proto_key
                    (decoded_pairs (eq_of eq) (groups_of s sep)) with
    | [] => VIntrinsic ObjectPrototype
    | vs => VArray (VIntrinsic ObjectPrototype :: vs)
    end.
Proof.
  intros Hfn Ho. unfold outcome in Ho. rewrite parse_run in Ho. cbn [fst] in Ho.
  destruct (existsb (undecodable (eq_of eq)) (groups_of s sep)); [discriminate|].
  injection Ho as <-.
  assert (Hplain : plain_prototype empty_object) by (split; [reflexivity | discriminate]).
  destruct (@fold_store_kept _ (decoded_pairs (eq_of eq) (groups_of s sep)) _ Hfn Hplain)
    as ([Hown _] & _).
  pose proof (@fold_store_proto _ (decoded_pairs (eq_of eq) (groups_of s sep)) _ Hfn Hplain)
    as Hp.
  cbn [proto empty_object app] in Hp.
  split; [exact Hown|]. rewrite (Get_proto_key _ Hown), Hp.
  destruct (values_of (parse_fn_of fn) proto_key
                      (decoded_pairs (eq_of eq) (groups_of s sep)));
    split; reflexivity.
Qed.

Lemma parse_proto_key_replaces_prototype_witness :
  proto {| own := [(js "a", str "2")];
           proto := Some [VIntrinsic ObjectPrototype; str "1"; str "3"] |} =
  Some [VIntrinsic ObjectPrototype; str "1"; str "3"].
Proof.
  apply (@parse_proto_key_replaces_prototype (js "__proto__=1&a=2&__proto__=3")
           None None None
           {| own := [(js "a", str "2")];
              proto := Some [VIntrinsic ObjectPrototype; str "1"; str "3"] |}).
  - intros k v. reflexivity.
  - reflexivity.
Defined.

(** ** The result of stringify determines what was written *)

Lemma logged_injective (l1 l2 : list (jsstring * jsstring)) :
  map logged l1 = map logged l2 -> l1 = l2.
Proof.
  revert l2. induction l1 as [|[k1 v1] l1 IH]; intros [|[k2 v2] l2] H;
    try discriminate; [reflexivity|].
  cbn [map] in H. unfold logged at 1 3 in H. cbn [fst snd] in H.
  injection H as -> -> H. f_equal. now apply IH.
Qed.

(** X13. With separators the encoding cannot collide with, the result of
    stringify is unambiguous: two sources that give the same string wrote
    the same keys and the same texts of values, in the same order. *)
Theorem stringify_unambiguous (obj1 obj2 : any) (sep eq : option jsstring)
        (fn : option StringifyFunction) (s : jsstring) :
  isObject obj1 = true -> isObject obj2 = true ->
  safe_separators (or_default sep (js "&")) (eq_of eq) = true ->
  Forall (fun occ => forallb is_code_unit (fst occ) = true /\
                     forallb is_code_unit
                       (ToString (stringify_fn_of fn (fst occ) (snd occ))) = true)
         (occurrences (entries obj1) ++ occurrences (entries obj2)) ->
  outcome (stringify obj1 sep eq fn) = Normal s ->
  outcome (stringify obj2 sep eq fn) = Normal s ->
  map (written (stringify_fn_of fn)) (occurrences (entries obj1)) =
  map (written (stringify_fn_of fn)) (occurrences (entries obj2)).
Proof.
  intros Ho1 Ho2 Hsafe Hcu Hs1 Hs2. apply Forall_app in Hcu. destruct Hcu as [Hcu1 Hcu2].
  destruct (@stringify_written _ _ _ _ _ Ho1 Hs1) as [Hseq1 E1].
  destruct (@stringify_written _ _ _ _ _ Ho2 Hs2) as [Hseq2 E2].
  pose proof (@parse_written_groups sep eq None _ Hsafe
                (@written_well_formed _ _ _ _ Hseq1 Hcu1)) as H1.
  pose proof (@parse_written_groups sep eq None _ Hsafe
                (@written_well_formed _ _ _ _ Hseq2 Hcu2)) as H2.
  rewrite <- E1 in H1. rewrite <- E2, H1 in H2.
  apply logged_injective. now injection H2.
Qed.

Lemma stringify_unambiguous_witness :
  map (written (stringify_fn_of None))
      (occurrences (entries (AObject [(js "a", VArray [VNumber 1; str "2"])]))) =
  map (written (stringify_fn_of None))
      (occurrences (entries (AObject [(js "a", VArray [str "1"; VNumber 2]);
                                      (js "b", VUndefined)]))).
Proof.
  apply (@stringify_unambiguous
           (AObject [(js "a", VArray [VNumber 1; str "2"])])
           (AObject [(js "a", VArray [str "1"; VNumber 2]); (js "b", VUndefined)])
           None None None (js "a=1&a=2")).
  - reflexivity.
  - reflexivity.
  - reflexivity.
  - repeat constructor.
  - reflexivity.
  - reflexivity.
Defined.

(** ** The coding applied to every key and value *)

Lemma sequence_Forall2 {A B} (f : A -> completion B) (l : list A) (qs : list B) :
  sequence (map f l) = Normal qs -> Forall2 (fun a q => f a = Normal q) l qs.
Proof.
  revert qs. induction l as [|a l IH]; intros qs H; cbn [map sequence] in H.
  - injection H as <-. constructor.
  - destruct (f a) as [q|] eqn:Ea; [|discriminate]. cbn [bind] in H.
    destruct (sequence (map f l)) as [qs'|]; [|discriminate].
    injection H as <-. constructor; [exact Ea | now apply IH].
Qed.

(** Where no group fails to decode, the decoded pairs are the raw parts
    of the retained groups, each decoded. *)
Lemma raw_pairs_decoded (eq : jsstring) (groups : list jsstring) :
  existsb (undecodable eq) groups = false ->
  Forall2 (fun raw kv => URI.Decode (fst raw) = Normal (fst kv) /\
                         URI.Decode (snd raw) = Normal (snd kv))
          (raw_pairs eq groups) (decoded_pairs eq groups).
Proof.
  induction groups as [|g groups IH]; [constructor|].
  cbn [existsb decoded_pairs raw_pairs flat_map]. fold (raw_pairs eq groups).
  rewrite orb_false_iff. intros [Hg Hrest]. unfold undecodable, retained in *.
  destruct (split g eq) as [|rk [|rv [|x l]]]; cbn [List.length Nat.eqb app nth andb] in *;
    try (now apply IH).
  unfold decodeURIComponent in *.
  destruct (URI.Decode rk) as [k|] eqn:Ek; [|discriminate].
  destruct (URI.Decode rv) as [v|] eqn:Ev; [|discriminate].
  constructor; [now split | now apply IH].
Qed.

(** C7. encodeURIComponent leaves exactly the letters, the digits, the
    marks - _ . ~ and the reserved characters ! ' ( ) * as they are, and
    replaces any other code point by the percent-escapes of its UTF-8
    octets; decodeURIComponent reverses it on every well-formed string.
    stringify writes every key and the text of every transformed value
    through this encoding, parse reads the key and the value of every
    retained group through this decoding, and so, for every well-formed
    key that is not inherited and every well-formed value, parse gives
    back the key and the value that stringify wrote. *)
Theorem uri_component_coding :
  ((forall c, URI.uriUnescaped c = true <->
      URI.is_alpha c = true \/ URI.is_decimal_digit c = true \/
      In c (js "-_.~") \/ In c (js "!'()*")) /\
   (forall c rest, In c (js "!'()*") ->
      URI.Encode (c :: rest) = fmap (cons c) (URI.Encode rest)) /\
   (forall c rest,
      URI.uriUnescaped c = false ->
      URI.is_leading_surrogate c = false -> URI.is_trailing_surrogate c = false ->
      URI.Encode (c :: rest) = fmap (app (URI.escape c)) (URI.Encode rest)) /\
   (forall c d rest,
      URI.is_leading_surrogate c = true -> URI.is_trailing_surrogate d = true ->
      URI.Encode (c :: d :: rest) =
      fmap (app (URI.escape (URI.UTF16SurrogatePairToCodePoint c d))) (URI.Encode rest)) /\
   URI.escape 8364 = js "%E2%82%AC" /\
   (forall s, isWellFormed s = true ->
      exists e, URI.Encode s = Normal e /\ URI.Decode e = Normal s)) /\
  (forall obj sep eq fn s,
     isObject obj = true ->
     outcome (stringify obj sep eq fn) = Normal s ->
     exists qs,
       s = join (or_default sep (js "&")) qs /\
       Forall2 (fun occ q =>
                  exists key value,
                    URI.Encode (fst occ) = Normal key /\
                    URI.Encode (ToString (stringify_fn_of fn (fst occ) (snd occ))) =
                      Normal value /\
                    q = key ++ eq_of eq ++ value)
               (occurrences (entries obj)) qs) /\
  (forall s sep eq fn o,
     outcome (parse (AValue (VString s)) sep eq fn) = Normal o ->
     exists pairs,
       Forall2 (fun raw kv => URI.Decode (fst raw) = Normal (fst kv) /\
                              URI.Decode (snd raw) = Normal (snd kv))
               (raw_pairs (eq_of eq) (groups_of s sep)) pairs /\
       calls (parse (AValue (VString s)) sep eq fn) = map logged pairs /\
       o = fold_left (store_pair (parse_fn_of fn)) pairs empty_object) /\
  (forall key value,
     isWellFormed key = true -> inherited key = false -> isWellFormed value = true ->
     exists s,
       outcome (stringify (AObject [(key, VString value)]) None None None) = Normal s /\
       run (parse (AValue (VString s)) None None None) =
         (Normal (record [(key, VString value)]), [(key, VString value)])) /\
  outcome (stringify (AObject [(js "test", str "a &* b")]) None None None) =
    Normal (js "test=a%20%26*%20b") /\
  outcome (parse (AValue (str "test=a%20%26*%20b")) None None None) =
    Normal (record [(js "test", str "a &* b")]) /\
  outcome (stringify (AObject [(js "a b&", str "c=d")]) None None None) =
    Normal (js "a%20b%26=c%3Dd") /\
  outcome (parse (AValue (str "a%20b%26=c%3Dd")) None None None) =
    Normal (record [(js "a b&", str "c=d")]).
Proof.
  split; [|split; [|split; [|split; [|repeat split; reflexivity]]]].
  - split; [exact uriUnescaped_spec|].
    split; [|split; [|split; [|split; [reflexivity|]]]].
    + intros c rest Hc.
      assert (Hu : URI.uriUnescaped c = true) by (apply uriUnescaped_spec; auto).
      cbn [URI.Encode]. now rewrite Hu.
    + intros c rest Hu Hl Ht. cbn [URI.Encode]. now rewrite Hu, Hl, Ht.
    + intros c d rest Hl Ht. cbn [URI.Encode].
      assert (Hu : URI.uriUnescaped c = false).
      { destruct (URI.uriUnescaped c) eqn:E; [|reflexivity].
        apply uriUnescaped_ascii in E. destruct E as [E _].
        unfold URI.is_leading_surrogate in Hl. apply andb_true_iff in Hl.
        destruct Hl as [Hl _]. apply N.leb_le in Hl. lia. }
      assert (Hnt : URI.is_trailing_surrogate c = false).
      { unfold URI.is_leading_surrogate, URI.is_trailing_surrogate in *.
        apply andb_true_iff in Hl. destruct Hl as [_ Hl]. apply N.leb_le in Hl.
        apply andb_false_iff. left. apply N.leb_gt. lia. }
      now rewrite Hu, Hnt, Hl, Ht.
    + intros s Hs. apply Decode_Encode. exact Hs.
  - intros obj sep eq fn s Ho Hs. rewrite stringify_outcome in Hs by exact Ho.
    destruct (emitted_pairs (eq_of eq) (stringify_fn_of fn) (entries obj)) as [qs|] eqn:E;
      [|discriminate].
    injection Hs as <-. exists qs. split; [reflexivity|].
    apply emitted_pairs_occurrences, sequence_Forall2 in E.
    eapply Forall2_impl; [|exact E]. intros occ q Hq. apply pair_of_shape in Hq.
    destruct Hq as (key & value & Hk & Hv & ->). exists key, value. auto.
  - intros s sep eq fn o Ho. unfold outcome, calls in *. rewrite parse_run in *.
    cbn [fst snd] in *.
    destruct (existsb (undecodable (eq_of eq)) (groups_of s sep)) eqn:Hok; [discriminate|].
    injection Ho as <-. exists (decoded_pairs (eq_of eq) (groups_of s sep)).
    split; [now apply raw_pairs_decoded|]. split; reflexivity.
  - intros key value Hk Hi Hv.
    assert (Ho : isObject (AObject [(key, VString value)]) = true) by reflexivity.
    assert (Hwf : Forall (fun kv => isWellFormed (fst kv) = true /\
                                    isWellFormed (snd kv) = true) [(key, value)])
      by (constructor; [now split | constructor]).
    exists (join (js "&") (map (group_with (js "=")) [(key, value)])). split.
    + rewrite stringify_outcome by exact Ho. cbn [entries].
      destruct (proj2 (emitted_pairs_normal_iff (eq_of None) (stringify_fn_of None)
                         [(key, VString value)])) as [qs Hqs].
      { split; repeat constructor; cbn [fst snd stringify_fn_of];
          now apply encodes_well_formed. }
      rewrite Hqs. apply emitted_pairs_occurrences, sequence_pair_of_written in Hqs.
      now subst qs.
    + pose proof (@parse_written_groups None None None [(key, value)] eq_refl Hwf) as H.
      change (or_default None (js "&")) with (js "&") in H.
      change (eq_of None) with (js "=") in H. rewrite H.
      cbn [fold_left map logged fst snd]. unfold store_pair. cbn [fst snd parse_fn_of].
      change empty_object with (record []).
      now rewrite store_new by (exact Hi || exact (fun H : False => H)).
Qed.

Lemma uri_component_coding_witness :
  (exists qs,
     js "a%20b=%E2%82%AC&a%20b=*" = join (js "&") qs /\
     Forall2 (fun occ q =>
                exists key value,
                  URI.Encode (fst occ) = Normal key /\
                  URI.Encode (ToString (snd occ)) = Normal value /\
                  q = key ++ js "=" ++ value)
             [(js "a b", VString [8364%N]); (js "a b", str "*")] qs) /\
  (exists pairs,
     Forall2 (fun raw kv => URI.Decode (fst raw) = Normal (fst kv) /\
                            URI.Decode (snd raw) = Normal (snd kv))
             [(js "a%20b", js "%E2%82%AC")] pairs /\
     [(js "a b", VString [8364%N])] = map logged pairs /\
     record [(js "a b", VString [8364%N])] =
       fold_left (store_pair (fun _ value => VString value)) pairs empty_object).
Proof.
  split.
  - apply (proj1 (proj2 uri_component_coding)
                 (AObject [(js "a b", VArray [VString [8364%N]; str "*"])])
                 None None None (js "a%20b=%E2%82%AC&a%20b=*")).
    + reflexivity.
    + reflexivity.
  - apply (proj1 (proj2 (proj2 uri_component_coding))
                 (js "a%20b=%E2%82%AC&x") None None None
                 (record [(js "a b", VString [8364%N])])).
    reflexivity.
Defined.

(** ** The callback *)



